(** * SpectraTales: storyboard service, image sequencer and local store

    A shallow embedding of the orchestration code of the storybook
    generator: [types.ts], [services/storageService.ts],
    [services/geminiService.ts] and the state handling of [App.tsx].

    Conventions of the embedding
    - a JavaScript [number] that the program only uses as an integer (page
      ids, [Date.now()] time stamps) is a [Z]; the one place where the
      program computes a page id, [page.id - 1], is the subtraction of
      doubles, [number_sub];
    - a JavaScript string is a [string] of one-byte code units, so the only
      line terminators are LF and CR;
    - an optional field ([image_url?: string]) is an [option];
    - the settled outcome of an [async] function is a [Promise]: either
      [Resolved v] or [Rejected e];
    - React's [setStory (prev => ...)] is an update value ([StoryUpdate])
      with its interpretation [setStory] on the previous state, so that the
      properties of an update hold for whatever state it is applied to;
    - services outside the program (the generative model, IndexedDB, the
      clock, the random generator, [JSON.parse]) are arguments. *)

From Stdlib Require Import ZArith String Ascii List Permutation Sorted.
From stdpp Require Import base option list gmap strings pretty.

Local Open Scope string_scope.
Local Open Scope Z_scope.
Local Open Scope list_scope.

#[local] Set Warnings "-register-all".

(** ** types.ts *)

Inductive VisualComplexity := MINIMAL | BALANCED | RICH.

Inductive Gender := boy | girl.

Module CharacterBlueprint.
Record t := mk {
  age : Z;
  hair : string;
  skin_tone : string;
  clothing : string;
  expression_style : string;
  accessories : option string }.
End CharacterBlueprint.

Module StoryPage.
Record t := mk {
  id : Z;
  text : string;
  action_description : string;
  image_url : option string;
  is_generating : bool;
  error : option string }.
End StoryPage.

Module StoryboardData.
Record t := mk {
  uid : string;
  createdAt : Z;
  title : string;
  purpose : string;
  character_blueprint : CharacterBlueprint.t;
  visual_style_guide : string;
  pages : list StoryPage.t }.
End StoryboardData.

Abbreviation Page := StoryPage.t.
Abbreviation Story := StoryboardData.t.

(** ** Exceptions and promises *)

(** What the program throws or rejects with: [new Error(message)], the
    [DOMException] of a failed IndexedDB request, or whatever the model
    client rejects with. *)
Inductive exn :=
| Error (message : string)
| DOMException (name : string)
| ApiError (detail : string).

Inductive Promise (A : Type) :=
| Resolved (value : A)
| Rejected (reason : exn).
Arguments Resolved {A} value.
Arguments Rejected {A} reason.

(** JavaScript truthiness of an optional string: [undefined] and the empty
    string are falsy. *)
Definition truthy (s : option string) : option string :=
  match s with
  | Some "" => None
  | other => other
  end.

(** ** Numbers

    A [number] is an IEEE 754 double. The integers among the doubles are
    the integers of magnitude below 2^53 and, from there on, the multiples
    of a power of two by a 53-bit integer. [round_double z] is the double
    that the arithmetic of the language returns when the exact result is
    the integer [z]: the nearest double, and of two doubles equally near
    the one whose 53-bit integer is even. (A finite double minus one stays
    below the overflow threshold.) *)
Definition round_double (z : Z) : Z :=
  let a := Z.abs z in
  if a <? 2 ^ 53 then z
  else
    let ulp := 2 ^ (Z.log2 a - 52) in
    let q := a / ulp in
    let r := a mod ulp in
    let q' :=
      if 2 * r <? ulp then q
      else if ulp <? 2 * r then q + 1
      else if Z.even q then q else q + 1 in
    Z.sgn z * (q' * ulp).

(** An integer that is a double. *)
Definition is_double (z : Z) : Prop := round_double z = z.

(** [a - b] on integers that are doubles. *)
Definition number_sub (a b : Z) : Z := round_double (a - b).

(** ** Array.prototype.sort

    [sort cmp l] is the stable sort the language prescribes for a consistent
    comparator: [a] stays before [b] unless [cmp a b > 0]. *)
Section JsSort.
Context {A : Type} (cmp : A → A → Z).

Fixpoint sort_insert (x : A) (l : list A) : list A :=
  match l with
  | [] => [x]
  | y :: l' => if cmp x y <=? 0 then x :: y :: l' else y :: sort_insert x l'
  end.

Fixpoint sort (l : list A) : list A :=
  match l with
  | [] => []
  | x :: l' => sort_insert x (sort l')
  end.
End JsSort.

(** ** services/storageService.ts *)

Module Storage.
Import StoryboardData.

(** The object store [stories], created with [keyPath: 'uid']: at most one
    record per key. *)
Abbreviation ObjectStore := (gmap string Story).

(** The browser's database as this program meets it: the records of the
    store and the failures that the next [open] or the next request on the
    store will report, if any. *)
Record IDB := mkIDB {
  records : ObjectStore;
  open_error : option exn;
  request_error : option exn }.

Definition healthy (store : ObjectStore) : IDB :=
  {| records := store; open_error := None; request_error := None |}.

(** Ordering of keys in the store (strings compare by code units). *)
Definition key_cmp (a b : Story) : Z :=
  match String.compare (uid a) (uid b) with
  | Lt => -1
  | Eq => 0
  | Gt => 1
  end.

(** [store.getAll()]: every record, in key order. *)
Definition getAll (store : ObjectStore) : list Story :=
  sort key_cmp (map snd (map_to_list store)).

(** [store.put(story)]: the key is read through the key path; a record
    with the same key is replaced. *)
Definition put (story : Story) (store : ObjectStore) : ObjectStore :=
  <[uid story := story]> store.

(** [initDB]: [onerror] rejects with the request's error, [onsuccess]
    resolves with the database. *)
Definition initDB (db : IDB) : Promise IDB :=
  match open_error db with
  | Some e => Rejected e
  | None => Resolved db
  end.

(** [saveStoryToDB]: the outcome and the database afterwards. A failure of
    [initDB] is caught, logged and thrown again; the promise of the [put]
    request is returned as it is. *)
Definition saveStoryToDB (story : Story) (db : IDB) : Promise unit * IDB :=
  match initDB db with
  | Rejected e => (Rejected e, db)
  | Resolved conn =>
      match request_error conn with
      | Some e => (Rejected e, db)
      | None =>
          (Resolved tt,
           {| records := put story (records conn);
              open_error := open_error db;
              request_error := request_error db |})
      end
  end.

(** The comparator of [results.sort((a, b) => b.createdAt - a.createdAt)]. *)
Definition newest_first (a b : Story) : Z := createdAt b - createdAt a.

(** [getHistoryFromDB]. The [try] block awaits [initDB] only: when that
    rejects, the [catch] clause returns the empty list. The promise built
    around the [getAll] request is returned without being awaited, so the
    function has left the [try] block when that promise settles and its
    rejection is the function's. *)
Definition getHistoryFromDB (db : IDB) : Promise (list Story) :=
  match initDB db with
  | Rejected _ => Resolved []
  | Resolved conn =>
      match request_error conn with
      | Some e => Rejected e
      | None => Resolved (sort newest_first (getAll (records conn)))
      end
  end.
End Storage.

(** ** JSON values and [JSON.parse] *)

Inductive Json :=
| JNull
| JBool (b : bool)
| JNumber (n : Z)
| JString (s : string)
| JArray (items : list Json)
| JObject (fields : list (string * Json)).

(** [JSON.parse] belongs to the language, not to the program. The program
    relies on one of its values by name: the fallback text of
    [generateStoryboard] is the empty object. [None] is a [SyntaxError]. *)
Class JsonParser := {
  JSON_parse : string → option Json;
  JSON_parse_empty_object : JSON_parse "{}" = Some (JObject []) }.

(** Property lookup [o.k] and assignment [o.k = v] on the fields of an
    object; an assigned key keeps its place, a new key goes last. *)
Fixpoint field (k : string) (fields : list (string * Json)) : option Json :=
  match fields with
  | [] => None
  | (k', v) :: rest => if String.eqb k' k then Some v else field k rest
  end.

Fixpoint set_field (k : string) (v : Json) (fields : list (string * Json))
  : list (string * Json) :=
  match fields with
  | [] => [(k, v)]
  | (k', v') :: rest =>
      if String.eqb k' k then (k, v) :: rest else (k', v') :: set_field k v rest
  end.

Fixpoint indexed {A} (f : A → Json) (i : nat) (l : list A) : list (string * Json) :=
  match l with
  | [] => []
  | x :: l' => (pretty i, f x) :: indexed f (S i) l'
  end.

(** The own enumerable properties that an object spread [{...data}] copies:
    the fields of an object, the indexed elements of an array or of a string,
    nothing for [null], a number or a boolean. *)
Definition spread (data : Json) : list (string * Json) :=
  match data with
  | JObject fields => fields
  | JArray items => indexed (λ x, x) 0 items
  | JString s => indexed (λ c, JString (String c "")) 0 (list_ascii_of_string s)
  | JNull | JBool _ | JNumber _ => []
  end.

(** ** services/geminiService.ts *)

Module Gemini.

(** *** The model client *)

Module Blob.
Record t := mk { mimeType : option string; data : option string }.
End Blob.

Module Part.
Record t := mk { inlineData : option Blob.t; text : option string }.
End Part.

Module Content.
Record t := mk { parts : option (list Part.t) }.
End Content.

Module Candidate.
Record t := mk { content : option Content.t }.
End Candidate.

Module Response.
Record t := mk { text : option string; candidates : option (list Candidate.t) }.
End Response.

(** *** generateStoryboard *)

(** The data the storyboard prompt is built from (its wording is content). *)
Record StoryboardPrompt := {
  prompt_storyText : string;
  prompt_complexity : VisualComplexity;
  prompt_complexityGuide : string;
  prompt_gender : Gender }.

(** What [generateStoryboard] reads from its surroundings besides the model:
    the two [Date.now()] values and [Math.random().toString(36)]. *)
Record Entropy := {
  now_uid : Z;
  random_base36 : string;
  now_createdAt : Z }.

Definition digit36 (d : Z) : ascii :=
  if d <? 10 then ascii_of_N (Z.to_N (48 + d)) else ascii_of_N (Z.to_N (87 + d)).

Fixpoint to_base36 (fuel : nat) (n : Z) (acc : string) : string :=
  match fuel with
  | O => acc
  | S fuel' =>
      let acc' := String (digit36 (n mod 36)) acc in
      if n / 36 =? 0 then acc' else to_base36 fuel' (n / 36) acc'
  end.

(** [n.toString(36)] for an integer [n]. *)
Definition toString36 (n : Z) : string :=
  if n <? 0
  then String "-" (to_base36 (S (Z.to_nat (Z.log2 (- n)))) (- n) "")
  else to_base36 (S (Z.to_nat (Z.log2 n))) n "".

Definition complexityGuide (complexity : VisualComplexity) : string :=
  match complexity with
  | MINIMAL => "Keep backgrounds solid color or empty. Focus purely on the main action."
  | _ => "Standard storybook composition."
  end.

(** The [prompt] constant, as data. *)
Definition storyboard_prompt (storyText : string)
    (complexity : VisualComplexity) (gender : Gender) : StoryboardPrompt :=
  {| prompt_storyText := storyText;
     prompt_complexity := complexity;
     prompt_complexityGuide := complexityGuide complexity;
     prompt_gender := gender |}.

(** [Date.now().toString(36) + Math.random().toString(36).substr(2, 9)] *)
Definition generate_uid (env : Entropy) : string :=
  toString36 (now_uid env) +:+ substring 2 9 (random_base36 env).

(** The value is what [{...data, uid, createdAt}] evaluates to: an untyped
    object. Anything thrown inside the [try] block, by the model call or by
    [JSON.parse], is replaced by the one error of the [catch] clause. *)
Definition generateStoryboard `{JsonParser}
    (ai : StoryboardPrompt → Promise Response.t) (env : Entropy)
    (storyText : string) (complexity : VisualComplexity) (gender : Gender)
  : Promise Json :=
  match ai (storyboard_prompt storyText complexity gender) with
  | Rejected _ => Rejected (Error "Failed to generate storyboard structure.")
  | Resolved response =>
      match JSON_parse (default "{}" (truthy (Response.text response))) with
      | None => Rejected (Error "Failed to generate storyboard structure.")
      | Some data =>
          Resolved
            (JObject
               (set_field "createdAt" (JNumber (now_createdAt env))
                  (set_field "uid" (JString (generate_uid env)) (spread data))))
      end
  end.

(** *** generatePageImage *)

Record StyleConfig := {
  globalPrompt : option string;
  blueprint : option CharacterBlueprint.t;
  complexity : VisualComplexity }.

(** [baseDescription]: the style guide when there is one, else the
    character sheet when there is one, else nothing. *)
Inductive BaseDescription :=
| NoDescription
| VisualStyle (globalPrompt : string)
| Character (bp : CharacterBlueprint.t).

(** The data [finalPrompt] is built from. *)
Record ImagePrompt := {
  prompt_base : BaseDescription;
  prompt_scene : string;
  prompt_reference_handling : bool }.

Inductive RequestPart :=
| InlineData (mimeType data : string)
| Text (prompt : ImagePrompt).

Fixpoint strip_prefix (p s : string) : option string :=
  match p, s with
  | EmptyString, _ => Some s
  | String a p', String b s' =>
      if Ascii.eqb a b then strip_prefix p' s' else None
  | String _ _, EmptyString => None
  end.

(** The characters that [.] does not match. *)
Definition line_terminator (c : ascii) : bool :=
  Ascii.eqb c "010" || Ascii.eqb c "013".

Fixpoint has_line_terminator (s : string) : bool :=
  match s with
  | EmptyString => false
  | String c s' => line_terminator c || has_line_terminator s'
  end.

(** The rightmost split [r = m ++ ";base64," ++ d] with [d] non-empty: the
    first group of the pattern is greedy. *)
Fixpoint split_base64 (r : string) : option (string * string) :=
  match r with
  | EmptyString => None
  | String c r' =>
      match split_base64 r' with
      | Some (m, d) => Some (String c m, d)
      | None =>
          match strip_prefix ";base64," r with
          | Some (String c' d) => Some (EmptyString, String c' d)
          | _ => None
          end
      end
  end.

(** [url.match(/^data:(.+);base64,(.+)$/)], as the two captured groups. *)
Definition match_data_url (url : string) : option (string * string) :=
  match strip_prefix "data:" url with
  | None => None
  | Some r =>
      if has_line_terminator r then None
      else
        match split_base64 r with
        | Some (String c m, d) => Some (String c m, d)
        | _ => None
        end
  end.

(** The [forEach] over the reference urls. *)
Fixpoint reference_parts (referenceImageUrls : list string) : list RequestPart :=
  match referenceImageUrls with
  | [] => []
  | url :: rest =>
      match match_data_url url with
      | Some (mimeType, base64Data) =>
          InlineData mimeType base64Data :: reference_parts rest
      | None => reference_parts rest
      end
  end.

Definition baseDescription (styleConfig : StyleConfig) : BaseDescription :=
  match truthy (globalPrompt styleConfig) with
  | Some g => VisualStyle g
  | None =>
      match blueprint styleConfig with
      | Some bp => Character bp
      | None => NoDescription
      end
  end.

(** [response.candidates?.[0]?.content?.parts || []] *)
Definition response_parts (response : Response.t) : list Part.t :=
  match Response.candidates response with
  | Some (candidate :: _) =>
      match Candidate.content candidate with
      | Some content => default [] (Content.parts content)
      | None => []
      end
  | _ => []
  end.

(** A value interpolated in a template literal. *)
Definition interpolate (v : option string) : string := default "undefined" v.

(** The loop over the parts of the response: the first part whose
    [inlineData] has data gives the result. *)
Fixpoint first_image (parts : list Part.t) : option string :=
  match parts with
  | [] => None
  | part :: rest =>
      match Part.inlineData part with
      | Some blob =>
          match truthy (Blob.data blob) with
          | Some data =>
              Some ("data:" +:+ interpolate (Blob.mimeType blob) +:+ ";base64," +:+ data)
          | None => first_image rest
          end
      | None => first_image rest
      end
  end.

Definition generatePageImage
    (ai : list RequestPart → Promise Response.t)
    (pageDesc : string) (styleConfig : StyleConfig)
    (referenceImageUrls : list string) : Promise string :=
  let finalPrompt :=
    {| prompt_base := baseDescription styleConfig;
       prompt_scene := pageDesc;
       prompt_reference_handling :=
         bool_decide (0 < length referenceImageUrls)%nat |} in
  let parts := (reference_parts referenceImageUrls ++ [Text finalPrompt])%list in
  match ai parts with
  | Rejected error => Rejected error
  | Resolved response =>
      match first_image (response_parts response) with
      | Some url => Resolved url
      | None => Rejected (Error "No image data returned")
      end
  end.

End Gemini.

(** ** App.tsx *)

Module App.
Import Gemini.

(** [{...prev, pages}] *)
Definition with_pages (prev : Story) (pages : list Page) : Story :=
  {| StoryboardData.uid := StoryboardData.uid prev;
     StoryboardData.createdAt := StoryboardData.createdAt prev;
     StoryboardData.title := StoryboardData.title prev;
     StoryboardData.purpose := StoryboardData.purpose prev;
     StoryboardData.character_blueprint := StoryboardData.character_blueprint prev;
     StoryboardData.visual_style_guide := StoryboardData.visual_style_guide prev;
     StoryboardData.pages := pages |}.

(** [{...p, image_url: imageUrl, is_generating: false}] *)
Definition page_loaded (imageUrl : string) (p : Page) : Page :=
  {| StoryPage.id := StoryPage.id p;
     StoryPage.text := StoryPage.text p;
     StoryPage.action_description := StoryPage.action_description p;
     StoryPage.image_url := Some imageUrl;
     StoryPage.is_generating := false;
     StoryPage.error := StoryPage.error p |}.

(** [{...p, is_generating: false, error: message}] *)
Definition page_failed (message : string) (p : Page) : Page :=
  {| StoryPage.id := StoryPage.id p;
     StoryPage.text := StoryPage.text p;
     StoryPage.action_description := StoryPage.action_description p;
     StoryPage.image_url := StoryPage.image_url p;
     StoryPage.is_generating := false;
     StoryPage.error := Some message |}.

(** [{...p, is_generating: true, error: undefined}] *)
Definition page_loading (p : Page) : Page :=
  {| StoryPage.id := StoryPage.id p;
     StoryPage.text := StoryPage.text p;
     StoryPage.action_description := StoryPage.action_description p;
     StoryPage.image_url := StoryPage.image_url p;
     StoryPage.is_generating := true;
     StoryPage.error := None |}.

(** [prev.pages.map(p => p.id === pageId ? f(p) : p)] inside [{...prev}] *)
Definition map_page (pageId : Z) (f : Page → Page) (prev : Story) : Story :=
  with_pages prev
    (map (λ p, if StoryPage.id p =? pageId then f p else p)
       (StoryboardData.pages prev)).

(** The functional updates [setStory(prev => ...)] of the component, one
    constructor per call site. *)
Inductive StoryUpdate :=
| SequenceImage (initialUid : string) (pageId : Z) (imageUrl : string)
| SequenceFailure (initialUid : string) (pageId : Z)
| RetryLoading (pageId : Z)
| RetryImage (pageId : Z) (imageUrl : string)
| RetryFailure (pageId : Z).

Definition setStory (u : StoryUpdate) (prev : option Story) : option Story :=
  match u with
  | SequenceImage initialUid pageId imageUrl =>
      match prev with
      | None => prev
      | Some s =>
          if negb (String.eqb (StoryboardData.uid s) initialUid) then prev
          else Some (map_page pageId (page_loaded imageUrl) s)
      end
  | SequenceFailure initialUid pageId =>
      match prev with
      | None => prev
      | Some s =>
          if negb (String.eqb (StoryboardData.uid s) initialUid) then prev
          else Some (map_page pageId (page_failed "Failed to load image") s)
      end
  | RetryLoading pageId =>
      match prev with
      | None => None
      | Some s => Some (map_page pageId page_loading s)
      end
  | RetryImage pageId imageUrl =>
      match prev with
      | None => None
      | Some s => Some (map_page pageId (page_loaded imageUrl) s)
      end
  | RetryFailure pageId =>
      match prev with
      | None => None
      | Some s => Some (map_page pageId (page_failed "Retry failed") s)
      end
  end.

(** What a run of a handler does, in order: it calls [generatePageImage]
    for a page with a reference list, the awaited call settles, it updates
    the story. *)
Inductive Event :=
| Requested (page : Page) (refs : list string)
| Settled (page : Page) (outcome : Promise string)
| Updated (u : StoryUpdate).

(** The model client during a run: the answer to the [n]-th call. *)
Abbreviation ImageModel := (nat → list RequestPart → Promise Response.t).

Definition styleConfig_of (story : Story) (comp : VisualComplexity) : StyleConfig :=
  {| globalPrompt := Some (StoryboardData.visual_style_guide story);
     blueprint := Some (StoryboardData.character_blueprint story);
     complexity := comp |}.

(** *** generateImagesSequence *)

(** The reference array built at the head of the loop body. *)
Definition sequence_refs (firstPageId : option Z)
    (generatedImagesMap : gmap Z string) (page : Page) : list string :=
  let anchor :=
    match firstPageId with
    | Some first =>
        match generatedImagesMap !! first with
        | Some image => if negb (StoryPage.id page =? first) then [image] else []
        | None => []
        end
    | None => []
    end in
  let prevPageId := number_sub (StoryPage.id page) 1 in
  let context :=
    match generatedImagesMap !! prevPageId with
    | Some image =>
        if bool_decide (Some prevPageId ≠ firstPageId) then [image] else []
    | None => []
    end in
  anchor ++ context.

(** The [for ... of] loop, from call number [n] on, with the images
    generated so far. *)
Fixpoint sequence_loop (ai : ImageModel) (initialStory : Story)
    (comp : VisualComplexity) (firstPageId : option Z) (n : nat)
    (generatedImagesMap : gmap Z string) (todo : list Page) : list Event :=
  match todo with
  | [] => []
  | page :: rest =>
      let refs := sequence_refs firstPageId generatedImagesMap page in
      let outcome :=
        generatePageImage (ai n) (StoryPage.action_description page)
          (styleConfig_of initialStory comp) refs in
      Requested page refs :: Settled page outcome ::
      match outcome with
      | Resolved imageUrl =>
          Updated (SequenceImage (StoryboardData.uid initialStory)
                     (StoryPage.id page) imageUrl)
          :: sequence_loop ai initialStory comp firstPageId (S n)
               (<[StoryPage.id page := imageUrl]> generatedImagesMap) rest
      | Rejected _ =>
          Updated (SequenceFailure (StoryboardData.uid initialStory)
                     (StoryPage.id page))
          :: sequence_loop ai initialStory comp firstPageId (S n)
               generatedImagesMap rest
      end
  end.

Definition generateImagesSequence (ai : ImageModel) (initialStory : Story)
    (comp : VisualComplexity) : list Event :=
  let firstPageId := StoryPage.id <$> head (StoryboardData.pages initialStory) in
  sequence_loop ai initialStory comp firstPageId 0 ∅
    (StoryboardData.pages initialStory).

(** *** handleRegenerateImage *)

Definition regenerate_refs (story : Story) (pageId : Z) : list string :=
  let firstPage := head (StoryboardData.pages story) in
  let anchor :=
    match firstPage with
    | Some first =>
        match truthy (StoryPage.image_url first) with
        | Some image => if negb (StoryPage.id first =? pageId) then [image] else []
        | None => []
        end
    | None => []
    end in
  let prevPage :=
    List.find (λ p, StoryPage.id p =? number_sub pageId 1)
      (StoryboardData.pages story) in
  let context :=
    match prevPage with
    | Some prev =>
        match truthy (StoryPage.image_url prev) with
        | Some image =>
            if bool_decide (Some (StoryPage.id prev) ≠ (StoryPage.id <$> firstPage))
            then [image] else []
        | None => []
        end
    | None => []
    end in
  anchor ++ context.

(** [story] and [complexity] are the values the handler closed over. *)
Definition handleRegenerateImage (ai : ImageModel) (story : option Story)
    (complexity : VisualComplexity) (pageId : Z) : list Event :=
  match story with
  | None => []
  | Some story =>
      Updated (RetryLoading pageId) ::
      match List.find (λ p, StoryPage.id p =? pageId) (StoryboardData.pages story) with
      | None => []
      | Some page =>
          let refs := regenerate_refs story pageId in
          let outcome :=
            generatePageImage (ai 0%nat) (StoryPage.action_description page)
              (styleConfig_of story complexity) refs in
          [ Requested page refs; Settled page outcome;
            Updated match outcome with
                    | Resolved imageUrl => RetryImage pageId imageUrl
                    | Rejected _ => RetryFailure pageId
                    end ]
      end
  end.

(** The story state after the updates of a run, when nothing else touches
    the state in between. *)
Fixpoint run_updates (events : list Event) (state : option Story) : option Story :=
  match events with
  | [] => state
  | Updated u :: rest => run_updates rest (setStory u state)
  | _ :: rest => run_updates rest state
  end.

(** *** The persistence effect and the history *)

(** The argument of [setHistory] in the persistence effect. *)
Definition persist_history (story : Story) (prev : list Story) : list Story :=
  if existsb (λ h, String.eqb (StoryboardData.uid h) (StoryboardData.uid story)) prev
  then map (λ h, if String.eqb (StoryboardData.uid h) (StoryboardData.uid story)
                 then story else h) prev
  else story :: prev.

Record Persistence := {
  history : list Story;
  db : Storage.IDB }.

(** What happens to the history and to the database: the effect that saves
    the current story, the mount effect that loads the history, a reload of
    the page, and the database starting or ceasing to fail. *)
Inductive Action :=
| Save (story : Story)
| LoadHistory
| Reload
| Disturb (open_error request_error : option exn).

Definition act (a : Action) (w : Persistence) : Persistence :=
  match a with
  | Save story =>
      {| history := persist_history story (history w);
         db := snd (Storage.saveStoryToDB story (db w)) |}
  | LoadHistory =>
      match Storage.getHistoryFromDB (db w) with
      | Resolved saved => {| history := saved; db := db w |}
      | Rejected _ => w
      end
  | Reload => {| history := []; db := db w |}
  | Disturb open_error request_error =>
      {| history := history w;
         db := {| Storage.records := Storage.records (db w);
                  Storage.open_error := open_error;
                  Storage.request_error := request_error |} |}
  end.

Definition run (actions : list Action) (w : Persistence) : Persistence :=
  foldl (λ w a, act a w) w actions.

(** A first visit: nothing in memory, an empty database. *)
Definition first_visit : Persistence :=
  {| history := []; db := Storage.healthy ∅ |}.

End App.

(** ** Invariants and reference definitions *)

Module Spec.
Import StoryboardData Storage Gemini App.

(** Keys in descending order: [a] may stand before [b]. *)
Definition descending {A : Type} (key : A → Z) (a b : A) : Prop :=
  key b ≤ key a.

(** Every record of the store sits under its own [uid], as the key path
    demands. *)
Definition keyed (store : gmap string Story) : Prop :=
  ∀ k s, store !! k = Some s → uid s = k.

(** No two storybooks of a list share a [uid]. *)
Definition unique_uids (l : list Story) : Prop := NoDup (map uid l).

(** What every action on the history and the database preserves. *)
Definition consistent (w : Persistence) : Prop :=
  keyed (records (db w)) ∧ unique_uids (history w).

(** *** Reading a run *)

(** The calls of a run, in order: the page and its reference list. *)
Fixpoint requests (events : list Event) : list (Page * list string) :=
  match events with
  | [] => []
  | Requested page refs :: rest => (page, refs) :: requests rest
  | _ :: rest => requests rest
  end.

(** The settled calls of a run, in order. *)
Fixpoint settled (events : list Event) : list (Page * Promise string) :=
  match events with
  | [] => []
  | Settled page outcome :: rest => (page, outcome) :: settled rest
  | _ :: rest => settled rest
  end.

(** The image a settled call produced, if it did. *)
Definition generated (outcome : Promise string) : option string :=
  match outcome with
  | Resolved imageUrl => Some imageUrl
  | Rejected _ => None
  end.

(** The images of the pages of a run, by position in the page list. *)
Definition images (events : list Event) : list (option string) :=
  map (λ s, generated (snd s)) (settled events).

(** The reference list the specification describes for the page at position
    [k]: the image of the first page, when it was generated and the page is
    not the first one, then the image of the page just before, when it was
    generated and that page is not the first one. *)
Definition spec_refs (images : list (option string)) (k : nat) : list string :=
  match k with
  | O => []
  | S j =>
      option_list (mjoin (images !! O))
      ++ match j with
         | O => []
         | S _ => option_list (mjoin (images !! j))
         end
  end.

(** Each id is the id before it plus one, exactly. *)
Definition consecutive (ids : list Z) : Prop :=
  ∀ i a b, ids !! i = Some a → ids !! S i = Some b → b = a + 1.

(** The integers every one of which is a double. *)
Definition safe_integer (z : Z) : Prop := - 2 ^ 53 ≤ z ≤ 2 ^ 53.

(** The map of generated images after a settled call, and after a list of
    them. *)
Definition record (M : gmap Z string) (s : Page * Promise string) : gmap Z string :=
  match snd s with
  | Resolved imageUrl => <[StoryPage.id (fst s) := imageUrl]> M
  | Rejected _ => M
  end.

Definition ledger (M : gmap Z string) (done : list (Page * Promise string))
  : gmap Z string :=
  foldl record M done.

(** Where the references of a call come from. In the sequencer: the keys
    under which the map of generated images is read. *)
Definition sequence_sources (firstPageId : option Z) (page : Page) : list Z :=
  match firstPageId with
  | Some first => if negb (StoryPage.id page =? first) then [first] else []
  | None => []
  end
  ++ (if bool_decide (Some (number_sub (StoryPage.id page) 1) ≠ firstPageId)
      then [number_sub (StoryPage.id page) 1] else []).

(** In the regeneration: the positions in the page list whose image is
    read. *)
Definition regenerate_sources (story : Story) (pageId : Z) : list nat :=
  match head (pages story) with
  | Some first => if negb (StoryPage.id first =? pageId) then [O] else []
  | None => []
  end
  ++ match list_find (λ p, StoryPage.id p = number_sub pageId 1)
             (pages story) with
     | Some (i, prev) =>
         if bool_decide (Some (StoryPage.id prev)
                         ≠ (StoryPage.id <$> head (pages story)))
         then [i] else []
     | None => []
     end.

(** The usable image of the page at a position. *)
Definition image_at (story : Story) (i : nat) : option string :=
  pages story !! i ≫= λ p, truthy (StoryPage.image_url p).

(** The bound on the references of a call for [page] in a story whose first
    page has the id [firstPageId]: two at most, and one at most when the
    number that the code computes as the id of [page] minus one is the id
    of the first page. *)
Definition bounded_refs (firstPageId : option Z) (page : Page)
    (refs : list string) : Prop :=
  (length refs ≤ 2)%nat
  ∧ (Some (number_sub (StoryPage.id page) 1) = firstPageId →
     (length refs ≤ 1)%nat).

(** *** Data urls *)

(** A string of the form [data:<mime>;base64,<data>]. *)
Definition data_url (mime data : string) : string :=
  "data:" +:+ mime +:+ ";base64," +:+ data.

(** The inline images of a response of the model: of each part of the first
    candidate that has inline data with data in it, the mime type as it
    prints and the data. *)
Definition inline_images (response : Response.t) : list (string * string) :=
  omap (λ part,
          blob ← Part.inlineData part;
          data ← truthy (Blob.data blob);
          Some (interpolate (Blob.mimeType blob), data))
       (response_parts response).

(** The request part a reference url stands for, if it is a data url. *)
Definition reference_part (url : string) : option RequestPart :=
  (λ groups, InlineData (fst groups) (snd groups)) <$> match_data_url url.

(** A string that the pattern [/^data:(.+);base64,(.+)$/] matches. *)
Definition matches_pattern (url : string) : Prop :=
  ∃ mime data,
    url = data_url mime data ∧ mime ≠ "" ∧ data ≠ ""
    ∧ has_line_terminator mime = false ∧ has_line_terminator data = false.

(** *** Parsers *)

(** [JSON.stringify] for values whose strings need no escaping. *)
Fixpoint to_json (v : Json) : string :=
  match v with
  | JNull => "null"
  | JBool true => "true"
  | JBool false => "false"
  | JNumber n => pretty n
  | JString s => String "034" s +:+ String "034" ""
  | JArray items =>
      "[" +:+
      (fix go (l : list Json) : string :=
         match l with
         | [] => ""
         | [x] => to_json x
         | x :: l' => to_json x +:+ "," +:+ go l'
         end) items
      +:+ "]"
  | JObject fields =>
      "{" +:+
      (fix go (l : list (string * Json)) : string :=
         match l with
         | [] => ""
         | [(k, x)] => String "034" k +:+ String "034" ":" +:+ to_json x
         | (k, x) :: l' =>
             String "034" k +:+ String "034" ":" +:+ to_json x +:+ "," +:+ go l'
         end) fields
      +:+ "}"
  end.

(** A parser that reads back the texts of the values it knows, and the
    empty object. *)
Definition parse_known (known : list Json) (text : string) : option Json :=
  List.find (λ v, String.eqb (to_json v) text) (JObject [] :: known).

Definition known_parser (known : list Json) : JsonParser :=
  {| JSON_parse := parse_known known;
     JSON_parse_empty_object := eq_refl |}.

(** *** Frames of a story update *)

(** Everything of a story but its pages. *)
Definition same_metadata (prev next : Story) : Prop :=
  uid next = uid prev
  ∧ createdAt next = createdAt prev
  ∧ title next = title prev
  ∧ purpose next = purpose prev
  ∧ character_blueprint next = character_blueprint prev
  ∧ visual_style_guide next = visual_style_guide prev.

(** As many pages as before, and every page with another id as before. *)
Definition others_unchanged (pageId : Z) (prev next : Story) : Prop :=
  length (pages next) = length (pages prev)
  ∧ ∀ i p, pages prev !! i = Some p → StoryPage.id p ≠ pageId →
      pages next !! i = Some p.

(** Every page with the id [pageId] is related by [R] to the page that
    takes its place. *)
Definition targets (pageId : Z) (R : Page → Page → Prop) (prev next : Story)
  : Prop :=
  ∀ i p, pages prev !! i = Some p → StoryPage.id p = pageId →
    ∃ p', pages next !! i = Some p' ∧ R p p'.

(** What an update leaves of a page whatever it does to its image and its
    flags. *)
Definition same_content (p p' : Page) : Prop :=
  StoryPage.id p' = StoryPage.id p
  ∧ StoryPage.text p' = StoryPage.text p
  ∧ StoryPage.action_description p' = StoryPage.action_description p.

(** The page is marked as failed with [message]: no longer generating, the
    error set, the image as it was. *)
Definition marked_failed (message : string) (p p' : Page) : Prop :=
  same_content p p'
  ∧ StoryPage.image_url p' = StoryPage.image_url p
  ∧ StoryPage.is_generating p' = false
  ∧ StoryPage.error p' = Some message.

(** The page got the image: no longer generating, the error as it was. *)
Definition marked_loaded (imageUrl : string) (p p' : Page) : Prop :=
  same_content p p'
  ∧ StoryPage.image_url p' = Some imageUrl
  ∧ StoryPage.is_generating p' = false
  ∧ StoryPage.error p' = StoryPage.error p.

(** The page is marked as loading: generating, no error, the image as it
    was. *)
Definition marked_loading (p p' : Page) : Prop :=
  same_content p p'
  ∧ StoryPage.image_url p' = StoryPage.image_url p
  ∧ StoryPage.is_generating p' = true
  ∧ StoryPage.error p' = None.

(** The kind of an event, without its payload. *)
Inductive Step :=
| Request (page : Page)
| Settle (page : Page)
| Update.

Definition step_of (e : Event) : Step :=
  match e with
  | Requested page _ => Request page
  | Settled page _ => Settle page
  | Updated _ => Update
  end.

(** A strictly sequential run over a page list: for each page in turn the
    call is issued, it settles, the state is updated, and only then comes
    the next page. *)
Definition sequential (pages : list Page) : list Step :=
  flat_map (λ page, [Request page; Settle page; Update]) pages.

End Spec.

(** ** Scenarios

    Concrete inputs on which the properties below are evaluated. *)

Module Scenario.
Import StoryboardData Storage Gemini App Spec.

Definition a_blueprint : CharacterBlueprint.t :=
  {| CharacterBlueprint.age := 6;
     CharacterBlueprint.hair := "short brown";
     CharacterBlueprint.skin_tone := "light";
     CharacterBlueprint.clothing := "red shirt";
     CharacterBlueprint.expression_style := "gentle";
     CharacterBlueprint.accessories := None |}.

(** A page as [handleGenerateStory] hands it to the sequencer. *)
Definition fresh_page (id : Z) : Page :=
  {| StoryPage.id := id;
     StoryPage.text := "A sentence.";
     StoryPage.action_description := "Wide shot of the room";
     StoryPage.image_url := None;
     StoryPage.is_generating := true;
     StoryPage.error := None |}.

Definition a_story (uid : string) (createdAt : Z) (pages : list Page) : Story :=
  {| StoryboardData.uid := uid;
     StoryboardData.createdAt := createdAt;
     StoryboardData.title := "Learning to Share";
     StoryboardData.purpose := "Social Skill";
     StoryboardData.character_blueprint := a_blueprint;
     StoryboardData.visual_style_guide := "Soft watercolor";
     StoryboardData.pages := pages |}.

Definition older : Story := a_story "a1" 1000 [fresh_page 1].
Definition newer : Story := a_story "b2" 2000 [fresh_page 1; fresh_page 2].

Definition two_stories : gmap string Story := put newer (put older ∅).

(** A response of the image model that carries one image. *)
Definition image_response (mimeType data : string) : Response.t :=
  {| Response.text := None;
     Response.candidates :=
       Some [ {| Candidate.content :=
                   Some {| Content.parts :=
                             Some [ {| Part.inlineData :=
                                         Some {| Blob.mimeType := Some mimeType;
                                                 Blob.data := Some data |};
                                       Part.text := None |} ] |} |} ] |}.

(** A model that answers its [n]-th call with the image [IMGn]. *)
Definition numbered_model : ImageModel :=
  λ n _, Resolved (image_response "image/png" ("IMG" +:+ pretty n)).

(** The same model, except that its second call is rejected. *)
Definition flaky_model : ImageModel :=
  λ n parts,
    match n with
    | 1%nat => Rejected (ApiError "503")
    | _ => numbered_model n parts
    end.

(** A model whose first call is rejected. *)
Definition first_call_fails : ImageModel :=
  λ n parts,
    match n with
    | O => Rejected (ApiError "503")
    | _ => numbered_model n parts
    end.

(** Two pages that carry the same id. *)
Definition twin_story : Story :=
  a_story "e5" 5000 [fresh_page 1; fresh_page 1].

(** A page whose image has been generated. *)
Definition finished_page (id : Z) (image : string) : Page :=
  {| StoryPage.id := id;
     StoryPage.text := "A sentence.";
     StoryPage.action_description := "Wide shot of the room";
     StoryPage.image_url := Some image;
     StoryPage.is_generating := false;
     StoryPage.error := None |}.

(** A finished story whose ids are 1, 5, 4 in this order. *)
Definition scrambled_story : Story :=
  a_story "f6" 6000
    [ finished_page 1 "data:image/png;base64,AAAA";
      finished_page 5 "data:image/png;base64,BBBB";
      finished_page 4 "data:image/png;base64,CCCC" ].

(** A finished story whose ids are 1, 2, 3. *)
Definition finished_story : Story :=
  a_story "g7" 7000
    [ finished_page 1 "data:image/png;base64,AAAA";
      finished_page 2 "data:image/png;base64,BBBB";
      finished_page 3 "data:image/png;base64,CCCC" ].

(** Three pages whose ids are 1, 2^53 and 2^53 + 2, all doubles. *)
Definition far_story : Story :=
  a_story "h8" 8000
    [fresh_page 1; fresh_page (2 ^ 53); fresh_page (2 ^ 53 + 2)].

(** Three pages with consecutive ids that start at 5. *)
Definition shifted_story : Story :=
  a_story "d4" 4000 [fresh_page 5; fresh_page 6; fresh_page 7].

(** Three pages whose ids skip 3. *)
Definition gap_story : Story :=
  a_story "c3" 3000 [fresh_page 1; fresh_page 2; fresh_page 4].

(** A storyboard as the model is asked to answer, and its text. *)
Definition a_storyboard : Json :=
  JObject
    [ ("title", JString "Learning to Share");
      ("character_blueprint", JObject [("age", JNumber 6)]);
      ("visual_style_guide", JString "Soft watercolor");
      ("pages", JArray [JObject [("id", JNumber 1)]]) ].

Definition a_storyboard_text : string := to_json a_storyboard.

(** A parser for the scenarios. *)
Definition scenario_parser : JsonParser := known_parser [a_storyboard].

(** A storyboard model that answers with a response without text. *)
Definition silent_model : StoryboardPrompt → Promise Response.t :=
  λ _, Resolved {| Response.text := None; Response.candidates := None |}.

(** A storyboard model that answers with the text of [a_storyboard]. *)
Definition storyboard_model : StoryboardPrompt → Promise Response.t :=
  λ _, Resolved {| Response.text := Some a_storyboard_text;
                   Response.candidates := None |}.

Definition an_entropy : Entropy :=
  {| now_uid := 1730000000000;
     random_base36 := "0.4fzyo82mvyr";
     now_createdAt := 1730000000001 |}.

(** The story [newer] with another title, under the same uid. *)
Definition newer_retitled : Story :=
  {| StoryboardData.uid := "b2";
     StoryboardData.createdAt := 2000;
     StoryboardData.title := "Sharing the Truck";
     StoryboardData.purpose := "Social Skill";
     StoryboardData.character_blueprint := a_blueprint;
     StoryboardData.visual_style_guide := "Soft watercolor";
     StoryboardData.pages := [fresh_page 1; fresh_page 2] |}.

(** A response whose first part is text, whose second part has inline
    data without data and whose third part carries the image. *)
Definition words_part : Part.t :=
  {| Part.inlineData := None; Part.text := Some "Here it is." |}.

Definition hollow_part : Part.t :=
  {| Part.inlineData :=
       Some {| Blob.mimeType := Some "image/png"; Blob.data := Some "" |};
     Part.text := None |}.

Definition picture : Blob.t :=
  {| Blob.mimeType := Some "image/png"; Blob.data := Some "BBBB" |}.

Definition picture_part : Part.t :=
  {| Part.inlineData := Some picture; Part.text := None |}.

Definition mixed_content : Content.t :=
  {| Content.parts := Some [words_part; hollow_part; picture_part] |}.

Definition mixed_candidate : Candidate.t :=
  {| Candidate.content := Some mixed_content |}.

Definition mixed_response : Response.t :=
  {| Response.text := None;
     Response.candidates := Some [mixed_candidate] |}.

Definition chatty_model : ImageModel := λ _ _, Resolved mixed_response.

(** A response with words and no image. *)
Definition wordy_response : Response.t :=
  {| Response.text := Some "I cannot draw this.";
     Response.candidates :=
       Some [ {| Candidate.content :=
                   Some {| Content.parts :=
                             Some [ {| Part.inlineData := None;
                                       Part.text := Some "I cannot draw this." |} ] |} |} ] |}.

(** A model that answers every call with the same image. *)
Definition constant_model : ImageModel :=
  λ _ _, Resolved (image_response "image/png" "AAAA").

(** The database does not open. *)
Definition open_failure : IDB :=
  {| records := two_stories;
     open_error := Some (DOMException "InvalidStateError");
     request_error := None |}.

(** The database opens, the read request fails. *)
Definition read_failure : IDB :=
  {| records := ∅;
     open_error := None;
     request_error := Some (DOMException "UnknownError") |}.

End Scenario.

(** ** App.tsx: the generation of a story *)

Module Flow.
Import Gemini App.

(** *** An untyped value at a declared type

    [generateStoryboard] returns what [JSON.parse] gave it, declared as
    [StoryboardData] and checked nowhere. The handler and the code after it
    read the properties that [types.ts] declares: these are the readings
    of a value at those types, [None] when the value does not have the
    type. *)

Definition as_string (v : option Json) : option string :=
  match v with
  | Some (JString s) => Some s
  | _ => None
  end.

Definition as_number (v : option Json) : option Z :=
  match v with
  | Some (JNumber n) => Some n
  | _ => None
  end.

(** A property declared with [?]. *)
Definition as_optional_string (v : option Json) : option (option string) :=
  match v with
  | None => Some None
  | Some (JString s) => Some (Some s)
  | _ => None
  end.

Definition as_blueprint (v : option Json) : option CharacterBlueprint.t :=
  match v with
  | Some (JObject fields) =>
      age ← as_number (field "age" fields);
      hair ← as_string (field "hair" fields);
      skin_tone ← as_string (field "skin_tone" fields);
      clothing ← as_string (field "clothing" fields);
      expression_style ← as_string (field "expression_style" fields);
      accessories ← as_optional_string (field "accessories" fields);
      Some (CharacterBlueprint.mk age hair skin_tone clothing expression_style
              accessories)
  | _ => None
  end.

(** [{...p, is_generating: true, image_url: undefined, error: undefined}]
    at the type [StoryPage]. *)
Definition page_with_state (p : Json) : option Page :=
  let fields := spread p in
  id ← as_number (field "id" fields);
  text ← as_string (field "text" fields);
  action_description ← as_string (field "action_description" fields);
  Some {| StoryPage.id := id;
          StoryPage.text := text;
          StoryPage.action_description := action_description;
          StoryPage.image_url := None;
          StoryPage.is_generating := true;
          StoryPage.error := None |}.

(** [{ ...storyboard, pages: pagesWithState }] at the type
    [StoryboardData]. *)
Definition full_story (storyboard : Json) (pagesWithState : list Page)
  : option Story :=
  let fields := spread storyboard in
  uid ← as_string (field "uid" fields);
  createdAt ← as_number (field "createdAt" fields);
  title ← as_string (field "title" fields);
  purpose ← as_string (field "purpose" fields);
  character_blueprint ← as_blueprint (field "character_blueprint" fields);
  visual_style_guide ← as_string (field "visual_style_guide" fields);
  Some {| StoryboardData.uid := uid;
          StoryboardData.createdAt := createdAt;
          StoryboardData.title := title;
          StoryboardData.purpose := purpose;
          StoryboardData.character_blueprint := character_blueprint;
          StoryboardData.visual_style_guide := visual_style_guide;
          StoryboardData.pages := pagesWithState |}.

(** The state of the component that the handlers write. *)
Record Screen := {
  story : option Story;
  loading : bool;
  complexity : VisualComplexity }.

(** What a handler does to the component and to the user, in order.
    [Sequence events] is the run that [generateImagesSequence] starts. *)
Inductive Effect :=
| SetLoading (value : bool)
| SetComplexity (value : VisualComplexity)
| SetStory (value : option Story)
| Alert (message : string)
| Sequence (events : list Event).

(** [handleGenerateStory], given how the awaited call
    [generateStoryboard(text, selectedComplexity, gender)] settled. The
    [try] block covers the call and what follows it: when the call rejects,
    and when [storyboard.pages.map] throws because [pages] is not an array,
    the [catch] clause alerts. With an array of pages the handler goes on;
    the result is [None] when the story it then puts on display does not
    have the type [StoryboardData], which is where this embedding, typed
    from there on, ends. *)
Definition handleGenerateStory (storyboard : Promise Json) (ai : ImageModel)
    (selectedComplexity : VisualComplexity) : option (list Effect) :=
  let caught :=
    [ Alert "Something went wrong generating the story structure. Please try again.";
      SetLoading false ] in
  match storyboard with
  | Resolved storyboard =>
      match field "pages" (spread storyboard) with
      | Some (JArray pages) =>
          pagesWithState ← mapM page_with_state pages;
          fullStory ← full_story storyboard pagesWithState;
          Some [ SetLoading true;
                 SetComplexity selectedComplexity;
                 SetStory (Some fullStory);
                 SetLoading false;
                 Sequence (generateImagesSequence ai fullStory selectedComplexity) ]
      | _ =>
          Some (SetLoading true :: SetComplexity selectedComplexity :: caught)
      end
  | Rejected _ =>
      Some (SetLoading true :: SetComplexity selectedComplexity :: caught)
  end.

(** The component after an effect, and after a list of them, when nothing
    else writes the state in between. *)
Definition perform (screen : Screen) (e : Effect) : Screen :=
  match e with
  | SetLoading value =>
      {| story := story screen; loading := value;
         complexity := complexity screen |}
  | SetComplexity value =>
      {| story := story screen; loading := loading screen;
         complexity := value |}
  | SetStory value =>
      {| story := value; loading := loading screen;
         complexity := complexity screen |}
  | Alert _ => screen
  | Sequence events =>
      {| story := run_updates events (story screen);
         loading := loading screen;
         complexity := complexity screen |}
  end.

Definition perform_all (effects : list Effect) (screen : Screen) : Screen :=
  foldl perform screen effects.

End Flow.

(** ** components/BookPreview.tsx and components/StoryInput.tsx *)

Module Components.

(** *** The controls of a page in the book *)

(** The buttons of a page that call [onRegenerateImage(page.id)]. *)
Inductive Control :=
| StuckRetry
| RetryFailedImage
| Redraw.

(** What the image side of a page shows. *)
Inductive Display :=
| Picture (src : string)
| Painting
| Waiting.

Definition page_display (page : Page) : Display :=
  match truthy (StoryPage.image_url page) with
  | Some src => Picture src
  | None => if StoryPage.is_generating page then Painting else Waiting
  end.

Definition page_controls (page : Page) : list Control :=
  match truthy (StoryPage.image_url page) with
  | Some _ => []
  | None =>
      if StoryPage.is_generating page then [StuckRetry]
      else
        match truthy (StoryPage.error page) with
        | Some _ => [RetryFailedImage]
        | None => []
        end
  end
  ++ (if negb (StoryPage.is_generating page)
      then match truthy (StoryPage.image_url page) with
           | Some _ => [Redraw]
           | None => []
           end
      else []).

(** *** The submission of a story text *)

Inductive StoryMode := CUSTOM | TEMPLATE.

(** An entry of [TEMPLATES]. *)
Record Template := {
  template_id : string;
  template_title : string;
  template_text : string;
  template_purpose : string }.

(** White space and line terminators among the one-byte code units: TAB,
    LF, VT, FF, CR, SP and NBSP. *)
Definition is_space (c : ascii) : bool :=
  Ascii.eqb c "009" || Ascii.eqb c "010" || Ascii.eqb c "011"
  || Ascii.eqb c "012" || Ascii.eqb c "013" || Ascii.eqb c " "
  || Ascii.eqb c "160".

Fixpoint trimStart (s : string) : string :=
  match s with
  | EmptyString => EmptyString
  | String c s' => if is_space c then trimStart s' else s
  end.

Fixpoint trimEnd (s : string) : string :=
  match s with
  | EmptyString => EmptyString
  | String c s' =>
      match trimEnd s' with
      | EmptyString => if is_space c then EmptyString else String c EmptyString
      | rest => String c rest
      end
  end.

(** [s.trim()] *)
Definition trim (s : string) : string := trimEnd (trimStart s).

(** [handleSubmit]: the call of [onGenerate] it makes, if it makes one. *)
Definition handleSubmit (mode : StoryMode) (customText : string)
    (selectedTemplate : Template) (complexity : VisualComplexity)
    (gender : Gender) : option (string * VisualComplexity * Gender) :=
  let text :=
    match mode with
    | CUSTOM => customText
    | TEMPLATE => template_text selectedTemplate
    end in
  if String.eqb (trim text) "" then None else Some (text, complexity, gender).

(** The [disabled] attribute of the button that calls [handleSubmit]. *)
Definition submit_disabled (isLoading : bool) (mode : StoryMode)
    (customText : string) : bool :=
  isLoading
  || match mode with
     | CUSTOM => String.eqb (trim customText) ""
     | TEMPLATE => false
     end.

End Components.

(** ** Further invariants and reference definitions *)

Module Further.
Import StoryboardData Storage Gemini App Spec Flow Components.

(** The in-memory history and the store hold the same storybooks, on a
    database that works. *)
Definition in_step (w : Persistence) : Prop :=
  open_error (db w) = None
  ∧ request_error (db w) = None
  ∧ keyed (records (db w))
  ∧ unique_uids (history w)
  ∧ ∀ s, s ∈ history w ↔ records (db w) !! uid s = Some s.

(** The page after the call for it has settled. *)
Definition settle (outcome : Promise string) (p : Page) : Page :=
  match outcome with
  | Resolved imageUrl => page_loaded imageUrl p
  | Rejected _ => page_failed "Failed to load image" p
  end.

(** A page of the story on display after a settled call of the run, and
    after a list of them: the calls for pages with its id settle it. *)
Definition settle_step (p : Page) (x : Page * Promise string) : Page :=
  if StoryPage.id p =? StoryPage.id (fst x) then settle (snd x) p else p.

Definition settle_all (xs : list (Page * Promise string)) (p : Page) : Page :=
  foldl settle_step p xs.

Definition settle_story (s : Story) (x : Page * Promise string) : Story :=
  map_page (StoryPage.id (fst x)) (settle (snd x)) s.

(** A page that waits for nothing: not generating, and with a picture or
    with an error to show. *)
Definition at_rest (p : Page) : Prop :=
  StoryPage.is_generating p = false
  ∧ (truthy (StoryPage.image_url p) ≠ None
     ∨ truthy (StoryPage.error p) ≠ None).

(** Settled calls whose images are not the empty string. *)
Definition with_pictures (xs : list (Page * Promise string)) : Prop :=
  ∀ p imageUrl, (p, Resolved imageUrl) ∈ xs → imageUrl ≠ "".

(** A page after its regeneration: no longer generating; after a success
    with the new image and no error, after a failure with the image it had
    and the error "Retry failed". *)
Definition retried (outcome : Promise string) (p p' : Page) : Prop :=
  same_content p p'
  ∧ StoryPage.is_generating p' = false
  ∧ match outcome with
    | Resolved imageUrl =>
        StoryPage.image_url p' = Some imageUrl ∧ StoryPage.error p' = None
    | Rejected _ =>
        StoryPage.image_url p' = StoryPage.image_url p
        ∧ StoryPage.error p' = Some "Retry failed"
    end.

(** *** Storyboards of the declared type, as objects *)

Definition blueprint_object (bp : CharacterBlueprint.t) : Json :=
  JObject
    ([ ("age", JNumber (CharacterBlueprint.age bp));
       ("hair", JString (CharacterBlueprint.hair bp));
       ("skin_tone", JString (CharacterBlueprint.skin_tone bp));
       ("clothing", JString (CharacterBlueprint.clothing bp));
       ("expression_style", JString (CharacterBlueprint.expression_style bp)) ]
     ++ match CharacterBlueprint.accessories bp with
        | Some a => [("accessories", JString a)]
        | None => []
        end).

(** A page as the response schema has it: id, text, action_description. *)
Definition page_object (p : Page) : Json :=
  JObject
    [ ("id", JNumber (StoryPage.id p));
      ("text", JString (StoryPage.text p));
      ("action_description", JString (StoryPage.action_description p)) ].

Definition story_object (s : Story) : Json :=
  JObject
    [ ("title", JString (title s));
      ("purpose", JString (purpose s));
      ("character_blueprint", blueprint_object (character_blueprint s));
      ("visual_style_guide", JString (visual_style_guide s));
      ("pages", JArray (map page_object (pages s)));
      ("uid", JString (uid s));
      ("createdAt", JNumber (createdAt s)) ].

(** The page as the handler puts it on display. *)
Definition fresh (p : Page) : Page :=
  {| StoryPage.id := StoryPage.id p;
     StoryPage.text := StoryPage.text p;
     StoryPage.action_description := StoryPage.action_description p;
     StoryPage.image_url := None;
     StoryPage.is_generating := true;
     StoryPage.error := None |}.

(** *** Images and references *)

Fixpoint has_semicolon (s : string) : bool :=
  match s with
  | EmptyString => false
  | String c s' => Ascii.eqb c ";" || has_semicolon s'
  end.

(** What [generatePageImage] makes of the settled call of the model. *)
Definition read_image (settled : Promise Response.t) : Promise string :=
  match settled with
  | Rejected error => Rejected error
  | Resolved response =>
      match head (inline_images response) with
      | Some (mime, data) => Resolved (data_url mime data)
      | None => Rejected (Error "No image data returned")
      end
  end.

(** A model whose images have a mime type and no line break in the mime
    type or in the data. *)
Definition tidy (ai : ImageModel) : Prop :=
  ∀ n parts response mime data,
    ai n parts = Resolved response →
    head (inline_images response) = Some (mime, data) →
    mime ≠ "" ∧ has_line_terminator mime = false
    ∧ has_line_terminator data = false.

(** The parts that [generatePageImage] sends to the model: the inline
    parts of the references that are data urls, then the text. *)
Definition image_request (pageDesc : string) (styleConfig : StyleConfig)
    (refs : list string) : list RequestPart :=
  omap reference_part refs
  ++ [Text {| prompt_base := baseDescription styleConfig;
              prompt_scene := pageDesc;
              prompt_reference_handling := bool_decide (refs ≠ []) |}].

End Further.

(** ** The storage handler of the earlier App

    [src/unnamed/part_003] keeps the history in [localStorage] under one
    key. *)

Module Legacy.
Import StoryboardData App.

(** [localStorage.setItem(STORAGE_KEY, JSON.stringify(data))]: what it
    throws for the data, if it throws. *)
Abbreviation LocalStorage := (list Story → option exn).

(** What [saveToHistory] does, in order: [SetItem] is a call of
    [localStorage.setItem] that returned. *)
Inductive Effect :=
| SetHistory (value : list Story)
| SetItem (data : list Story)
| Console (message : string).

(** [e instanceof DOMException && (e.name === 'QuotaExceededError' ||
    e.name === 'NS_ERROR_DOM_QUOTA_REACHED')] *)
Definition quota_exceeded (e : exn) : bool :=
  match e with
  | DOMException name =>
      String.eqb name "QuotaExceededError"
      || String.eqb name "NS_ERROR_DOM_QUOTA_REACHED"
  | _ => false
  end.

(** [trySave]; [removelast data] is [data.slice(0, -1)]. The recursion is
    on a list that gets shorter: [fuel] bounds its depth. *)
Fixpoint trySave_from (fuel : nat) (setItem : LocalStorage) (data : list Story)
  : list Effect :=
  match fuel with
  | O => []
  | S fuel' =>
      match setItem data with
      | None => [SetItem data]
      | Some e =>
          if quota_exceeded e then
            if bool_decide (1 < length data)%nat then
              Console "Storage quota exceeded, removing oldest story"
              :: trySave_from fuel' setItem (removelast data)
              ++ [SetHistory (removelast data)]
            else [Console "Cannot save even one story, storage is full"]
          else []
      end
  end.

Definition trySave (setItem : LocalStorage) (data : list Story) : list Effect :=
  trySave_from (S (length data)) setItem data.

(** [updatedHistory] is the expression of the persistence effect of the
    later App, [persist_history]. *)
Definition saveToHistory (setItem : LocalStorage) (newStory : Story)
    (currentHistory : list Story) : list Effect :=
  let updatedHistory := persist_history newStory currentHistory in
  SetHistory updatedHistory :: trySave setItem updatedHistory.

(** The [history] state after the effects. *)
Definition history_after (effects : list Effect) (history : list Story)
  : list Story :=
  foldl (λ h e, match e with SetHistory value => value | _ => h end)
    history effects.

(** The value under the storage key after the effects. *)
Definition stored_after (effects : list Effect) (stored : option (list Story))
  : option (list Story) :=
  foldl (λ s e, match e with SetItem data => Some data | _ => s end)
    stored effects.

(** A storage that has room for one storybook. *)
Definition small_storage : LocalStorage :=
  λ data,
    if bool_decide (1 < length data)%nat
    then Some (DOMException "QuotaExceededError") else None.

End Legacy.

(** * Properties *)

Import StoryboardData Storage Gemini App Spec Scenario.
Import Flow Components Further.

(** ** Numbers *)

Lemma round_double_safe (z : Z) : safe_integer z → is_double z.
Proof.
  unfold safe_integer, is_double, round_double. intros Hz.
  destruct (Z.ltb_spec (Z.abs z) (2 ^ 53)) as [|Hge]; [done|].
  assert (z = 2 ^ 53 ∨ z = - 2 ^ 53) as [-> | ->] by lia; reflexivity.
Qed.

Lemma number_sub_succ (a : Z) : is_double a → number_sub (a + 1) 1 = a.
Proof.
  unfold number_sub, is_double. intros Ha.
  by replace (a + 1 - 1) with a by lia.
Qed.

Lemma number_sub_safe (a : Z) :
  - 2 ^ 53 < a ≤ 2 ^ 53 + 1 → number_sub a 1 = a - 1.
Proof.
  intros Ha. apply round_double_safe. unfold safe_integer. lia.
Qed.

(** From 2^53 to 2^54 the doubles are the even integers, and a double
    minus one lies half way between two of them: the result is the one
    that is a multiple of four, the number itself or the double below. *)
Lemma number_sub_binade (a : Z) :
  2 ^ 53 < a ≤ 2 ^ 54 → a mod 2 = 0 →
  number_sub a 1 = if a mod 4 =? 0 then a else a - 2.
Proof.
  intros Ha Heven. unfold number_sub, round_double.
  assert (Z.abs (a - 1) = a - 1) as -> by lia.
  destruct (Z.ltb_spec (a - 1) (2 ^ 53)) as [|_]; [lia|].
  assert (Z.log2 (a - 1) = 53) as -> by (apply Z.log2_unique; lia).
  change (2 ^ (53 - 52)) with 2.
  assert ((a - 1) mod 2 = 1) as ->
    by (Z.to_euclidean_division_equations; lia).
  change (2 * 1 <? 2) with false. change (2 <? 2 * 1) with false. cbv iota.
  assert (Z.sgn (a - 1) = 1) as -> by lia.
  rewrite Zeven_mod.
  destruct (Z.eqb_spec (a mod 4) 0), (Z.eqb_spec (((a - 1) / 2) mod 2) 0);
    Z.to_euclidean_division_equations; lia.
Qed.

(** Beyond 2^53 the subtraction rounds: to the even neighbour, or back to
    the number itself. *)
Lemma number_sub_rounds :
  number_sub (2 ^ 53) 1 = 2 ^ 53 - 1
  ∧ number_sub (2 ^ 53 + 2) 1 = 2 ^ 53
  ∧ number_sub (2 ^ 53 + 4) 1 = 2 ^ 53 + 4
  ∧ number_sub (2 ^ 54) 1 = 2 ^ 54
  ∧ number_sub (- 2 ^ 53) 1 = - 2 ^ 53.
Proof. repeat split; vm_compute; reflexivity. Qed.

(** ** The sort *)

Section SortFacts.
Context {A : Type} (cmp : A → A → Z).

Lemma sort_insert_Permutation (x : A) (l : list A) :
  sort_insert cmp x l ≡ₚ x :: l.
Proof.
  induction l as [|y l IH]; simpl; [done|].
  destruct (cmp x y <=? 0); [done|].
  rewrite IH. apply Permutation_swap.
Qed.

Lemma sort_Permutation (l : list A) : sort cmp l ≡ₚ l.
Proof.
  induction l as [|x l IH]; simpl; [done|].
  by rewrite sort_insert_Permutation, IH.
Qed.

(** A comparator that subtracts keys, as [(a, b) => key b - key a] does. *)
Context (key : A → Z) (Hcmp : ∀ a b, cmp a b = key b - key a).

Lemma sort_insert_HdRel (x a : A) (l : list A) :
  descending key a x → HdRel (descending key) a l →
  HdRel (descending key) a (sort_insert cmp x l).
Proof.
  intros Hax Hal. destruct l as [|y l]; simpl.
  - by constructor.
  - destruct (cmp x y <=? 0); constructor; [done|].
    by inversion Hal.
Qed.

Lemma sort_insert_Sorted (x : A) (l : list A) :
  Sorted (descending key) l → Sorted (descending key) (sort_insert cmp x l).
Proof.
  induction 1 as [|y l Hl IH Hhd]; simpl.
  - repeat constructor.
  - destruct (Z.leb_spec (cmp x y) 0) as [Hle|Hgt]; rewrite Hcmp in *.
    + constructor; [by constructor|]. constructor. unfold descending. lia.
    + constructor; [done|]. apply sort_insert_HdRel; [|done].
      unfold descending. lia.
Qed.

Lemma sort_Sorted (l : list A) : Sorted (descending key) (sort cmp l).
Proof.
  induction l as [|x l IH]; simpl; [constructor|].
  by apply sort_insert_Sorted.
Qed.

Lemma Sorted_adjacent (l : list A) (i : nat) (a b : A) :
  Sorted (descending key) l → l !! i = Some a → l !! S i = Some b →
  key b ≤ key a.
Proof.
  intros Hs. revert i. induction Hs as [|y l Hl IH Hhd]; intros i Ha Hb.
  - done.
  - destruct i as [|i]; simpl in *.
    + injection Ha as ->. destruct l as [|z l]; [done|].
      injection Hb as ->. by inversion Hhd.
    + eauto.
Qed.

End SortFacts.

(** ** The local store *)

Lemma getAll_Permutation (store : gmap string Story) :
  getAll store ≡ₚ map snd (map_to_list store).
Proof. apply sort_Permutation. Qed.

Lemma history_Permutation (store : gmap string Story) :
  sort newest_first (getAll store) ≡ₚ map snd (map_to_list store).
Proof. by rewrite sort_Permutation, getAll_Permutation. Qed.

Lemma resolved_history_sorted (db : IDB) (l : list Story) :
  getHistoryFromDB db = Resolved l → Sorted (descending createdAt) l.
Proof.
  unfold getHistoryFromDB, initDB.
  destruct (open_error db); [intros [= <-]; constructor|].
  destruct (request_error db); [done|]. intros [= <-].
  by apply (sort_Sorted newest_first createdAt).
Qed.

(** C3. With the database at hand, [getHistoryFromDB] resolves with a list
    that holds exactly the storybooks of the store, each as often as the
    store has it; and whatever list [getHistoryFromDB] resolves with is in
    newest-first order: of two adjacent entries the earlier one has a
    [createdAt] greater than or equal to that of the later one. *)
Theorem C3_getHistoryFromDB_all_newest_first :
  (∀ store : gmap string Story,
     ∃ l, getHistoryFromDB (healthy store) = Resolved l
          ∧ l ≡ₚ map snd (map_to_list store)
          ∧ (∀ k s, store !! k = Some s → s ∈ l))
  ∧ (∀ (db : IDB) (l : list Story) (i : nat) (a b : Story),
       getHistoryFromDB db = Resolved l →
       l !! i = Some a → l !! S i = Some b →
       createdAt b ≤ createdAt a).
Proof.
  split.
  - intros store. eexists. split; [reflexivity|]. split.
    + apply history_Permutation.
    + intros k s Hk. rewrite history_Permutation.
      apply list_elem_of_fmap. exists (k, s). split; [done|].
      by apply elem_of_map_to_list.
  - intros db l i a b Hl Ha Hb.
    apply (Sorted_adjacent createdAt l i a b); [|done..].
    by apply (resolved_history_sorted db).
Qed.

Lemma C3_getHistoryFromDB_all_newest_first_witness :
  getHistoryFromDB (healthy two_stories) = Resolved [newer; older]
  ∧ createdAt older ≤ createdAt newer.
Proof.
  assert (getHistoryFromDB (healthy two_stories) = Resolved [newer; older])
    as Hrun by (vm_compute; reflexivity).
  split; [exact Hrun|].
  exact (proj2 C3_getHistoryFromDB_all_newest_first
           (healthy two_stories) [newer; older] 0%nat newer older
           Hrun eq_refl eq_refl).
Defined.

(** C8, where the code departs from it. When the database opens and the
    [getAll] request then reports an error, [getHistoryFromDB] does not
    resolve with the empty list: it rejects with the error of the request.
    Only a failure to open the database yields the empty list. *)
Theorem C8_read_failure_rejects :
  getHistoryFromDB read_failure = Rejected (DOMException "UnknownError")
  ∧ (∀ db e, open_error db = Some e → getHistoryFromDB db = Resolved []).
Proof.
  split; [reflexivity|].
  intros db e He. unfold getHistoryFromDB, initDB. by rewrite He.
Qed.

Lemma C8_read_failure_rejects_witness :
  getHistoryFromDB open_failure = Resolved [].
Proof.
  exact (proj2 C8_read_failure_rejects open_failure
           (DOMException "InvalidStateError") eq_refl).
Defined.

(** ** Uniqueness of uids *)

Lemma keyed_empty : keyed ∅.
Proof. intros k s. by rewrite lookup_empty. Qed.

Lemma keyed_put (story : Story) (store : gmap string Story) :
  keyed store → keyed (put story store).
Proof.
  intros Hk k s. unfold put. rewrite lookup_insert.
  case_decide; [by intros [= <-]|]. apply Hk.
Qed.

Lemma keyed_uids (store : gmap string Story) :
  keyed store → map uid (map snd (map_to_list store)) = map fst (map_to_list store).
Proof.
  intros Hk. rewrite map_map. apply map_ext_in. intros [k s] Hin.
  apply Hk. apply elem_of_map_to_list. by apply list_elem_of_In.
Qed.

Lemma keyed_unique_uids (store : gmap string Story) (l : list Story) :
  keyed store → l ≡ₚ map snd (map_to_list store) → unique_uids l.
Proof.
  intros Hk Hl. unfold unique_uids. rewrite Hl, keyed_uids by done.
  apply NoDup_fst_map_to_list.
Qed.

Lemma existsb_uid (story : Story) (prev : list Story) :
  existsb (λ h, String.eqb (uid h) (uid story)) prev = true
  ↔ uid story ∈ map uid prev.
Proof.
  rewrite existsb_exists, list_elem_of_In, in_map_iff.
  split; intros (h & H1 & H2); exists h.
  - by apply String.eqb_eq in H2.
  - split; [done|]. by apply String.eqb_eq.
Qed.

Lemma replace_keeps_uids (story : Story) (prev : list Story) :
  map uid (map (λ h, if String.eqb (uid h) (uid story) then story else h) prev)
  = map uid prev.
Proof.
  rewrite map_map. apply map_ext. intros h.
  destruct (String.eqb_spec (uid h) (uid story)); congruence.
Qed.

Lemma persist_history_unique (story : Story) (prev : list Story) :
  unique_uids prev → unique_uids (persist_history story prev).
Proof.
  unfold unique_uids, persist_history. intros Hprev.
  destruct (existsb _ prev) eqn:Hex.
  - by rewrite replace_keeps_uids.
  - simpl. apply NoDup_cons. split; [|done].
    rewrite <- existsb_uid. by rewrite Hex.
Qed.

Lemma act_consistent (a : Action) (w : Persistence) :
  consistent w → consistent (act a w).
Proof.
  intros [Hk Hu]. destruct a as [story| | |oe re]; simpl.
  - split; [|by apply persist_history_unique].
    unfold saveStoryToDB, initDB.
    destruct (open_error (db w)); [done|].
    destruct (request_error (db w)); [done|]. by apply keyed_put.
  - unfold getHistoryFromDB, initDB.
    destruct (open_error (db w)); [split; [done|constructor]|].
    destruct (request_error (db w)); [done|]. split; [done|]. simpl.
    eapply keyed_unique_uids; [done|]. apply history_Permutation.
  - split; [done|constructor].
  - done.
Qed.

Lemma run_consistent (actions : list Action) (w : Persistence) :
  consistent w → consistent (run actions w).
Proof.
  revert w. induction actions as [|a actions IH]; intros w Hw; [done|].
  apply IH. by apply act_consistent.
Qed.

Lemma first_visit_consistent : consistent first_visit.
Proof. split; [apply keyed_empty|constructor]. Qed.

Lemma replace_lookup (story : Story) (prev : list Story) (i : nat) (h : Story) :
  uid story ∈ map uid prev → prev !! i = Some h →
  persist_history story prev !! i
  = Some (if String.eqb (uid h) (uid story) then story else h).
Proof.
  intros Hin Hi. unfold persist_history.
  apply existsb_uid in Hin. rewrite Hin.
  change (map ?f prev) with (f <$> prev).
  by rewrite list_lookup_fmap, Hi.
Qed.

(** C6. After any sequence of saves, loads of the history, reloads of the
    page and database failures, started on a first visit, no two storybooks
    of the in-memory history share a uid, and no two records of the store
    do. A save of a story whose uid is in the history already leaves the
    history as long as it was and puts the story at the place of the entry
    with that uid, every other entry staying where it was; a save of a story
    whose uid is in the store already leaves the store with as many records
    as before. On a database that opens and takes the request, the save
    resolves and the record under the uid of the story is the story, the
    one it replaces being gone and the records under other keys as they
    were; a load that follows shows the story and no other storybook with
    its uid. A save that rejects leaves the store as it was. (The program
    listens to the [put] request only: its success is taken as the
    write.) *)
Theorem C6_saves_keep_uids_unique :
  (∀ actions : list Action,
     unique_uids (history (run actions first_visit))
     ∧ unique_uids (getAll (records (db (run actions first_visit)))))
  ∧ (∀ (story : Story) (prev : list Story),
       uid story ∈ map uid prev →
       length (persist_history story prev) = length prev
       ∧ ∀ i h, prev !! i = Some h →
           persist_history story prev !! i
           = Some (if String.eqb (uid h) (uid story) then story else h))
  ∧ (∀ (story : Story) (db : IDB),
       is_Some (records db !! uid story) →
       size (records (snd (saveStoryToDB story db))) = size (records db))
  ∧ (∀ (story : Story) (db : IDB),
       open_error db = None → request_error db = None →
       fst (saveStoryToDB story db) = Resolved tt
       ∧ records (snd (saveStoryToDB story db)) !! uid story = Some story
       ∧ (∀ k, k ≠ uid story →
            records (snd (saveStoryToDB story db)) !! k = records db !! k)
       ∧ (keyed (records db) →
          ∃ l, getHistoryFromDB (snd (saveStoryToDB story db)) = Resolved l
               ∧ story ∈ l
               ∧ ∀ s, s ∈ l → uid s = uid story → s = story))
  ∧ (∀ (story : Story) (db : IDB) (e : exn),
       fst (saveStoryToDB story db) = Rejected e →
       snd (saveStoryToDB story db) = db).
Proof.
  split; [|split; [|split; [|split]]].
  - intros actions.
    destruct (run_consistent actions first_visit first_visit_consistent)
      as [Hk Hu].
    split; [done|]. eapply keyed_unique_uids; [done|].
    apply getAll_Permutation.
  - intros story prev Hin. split.
    + unfold persist_history. apply existsb_uid in Hin. rewrite Hin.
      apply length_map.
    + intros i h Hi. by apply replace_lookup.
  - intros story db Hsome. unfold saveStoryToDB, initDB.
    destruct (open_error db); [done|].
    destruct (request_error db); [done|]. simpl.
    unfold put. by rewrite map_size_insert_Some.
  - intros story db Hopen Hreq. unfold saveStoryToDB, getHistoryFromDB, initDB.
    rewrite Hopen, Hreq. cbn [fst snd records open_error request_error].
    unfold put.
    split; [done|]. split; [apply lookup_insert_eq|].
    split; [intros k Hk; by apply lookup_insert_ne|].
    intros Hkeyed. eexists. split; [reflexivity|].
    assert (∀ s, s ∈ sort newest_first (getAll (<[uid story:=story]> (records db)))
                 ↔ <[uid story:=story]> (records db) !! uid s = Some s) as Hin.
    { intros s. rewrite history_Permutation, list_elem_of_fmap. split.
      - intros ([k s'] & -> & Hks). apply elem_of_map_to_list in Hks. simpl.
        assert (uid s' = k) as <-; [|done].
        by apply (keyed_put story (records db) Hkeyed k s').
      - intros Hs. exists (uid s, s). split; [done|].
        by apply elem_of_map_to_list. }
    split.
    + apply Hin, lookup_insert_eq.
    + intros s Hs Huid. apply Hin in Hs. rewrite Huid, lookup_insert_eq in Hs.
      by injection Hs.
  - intros story db e. unfold saveStoryToDB, initDB.
    destruct (open_error db); [done|]. by destruct (request_error db).
Qed.

Lemma C6_saves_keep_uids_unique_witness :
  (length (persist_history newer_retitled [newer; older]) = 2%nat
   ∧ persist_history newer_retitled [newer; older] !! O = Some newer_retitled)
  ∧ size (records (snd (saveStoryToDB newer_retitled (healthy two_stories))))
    = size two_stories
  ∧ two_stories !! uid newer_retitled = Some newer
  ∧ fst (saveStoryToDB newer_retitled (healthy two_stories)) = Resolved tt
  ∧ records (snd (saveStoryToDB newer_retitled (healthy two_stories)))
    !! uid newer_retitled
    = Some newer_retitled
  ∧ snd (saveStoryToDB newer_retitled read_failure) = read_failure.
Proof.
  destruct C6_saves_keep_uids_unique
    as (_ & Hhistory & Hstore & Hsaved & Hfailed).
  split; [|split; [|split; [|split; [|split]]]].
  - destruct (Hhistory newer_retitled [newer; older]) as [Hlen Hplace].
    + apply list_elem_of_here.
    + split; [exact Hlen|]. exact (Hplace O newer eq_refl).
  - apply (Hstore newer_retitled (healthy two_stories)).
    exists newer. vm_compute. reflexivity.
  - vm_compute. reflexivity.
  - by apply (Hsaved newer_retitled (healthy two_stories)).
  - by apply (Hsaved newer_retitled (healthy two_stories)).
  - apply (Hfailed newer_retitled read_failure (DOMException "UnknownError")).
    reflexivity.
Defined.

(** ** The image sequencer *)

Section Sequencer.
Context (ai : ImageModel) (initialStory : Story) (comp : VisualComplexity).
Context (firstPageId : option Z).

Lemma loop_steps (todo : list Page) (n : nat) (M : gmap Z string) :
  map step_of (sequence_loop ai initialStory comp firstPageId n M todo)
  = sequential todo.
Proof.
  revert n M. induction todo as [|page rest IH]; intros n M; [done|].
  simpl.
  destruct (generatePageImage _ _ _ _); simpl; by rewrite IH.
Qed.

Lemma loop_requests (todo : list Page) (n : nat) (M : gmap Z string) :
  map fst (requests (sequence_loop ai initialStory comp firstPageId n M todo))
  = todo.
Proof.
  revert n M. induction todo as [|page rest IH]; intros n M; [done|].
  simpl.
  destruct (generatePageImage _ _ _ _); simpl; by rewrite IH.
Qed.

Lemma loop_settled (todo : list Page) (n : nat) (M : gmap Z string) :
  map fst (settled (sequence_loop ai initialStory comp firstPageId n M todo))
  = todo.
Proof.
  revert n M. induction todo as [|page rest IH]; intros n M; [done|].
  simpl.
  destruct (generatePageImage _ _ _ _); simpl; by rewrite IH.
Qed.

End Sequencer.

(** C5. A run of the sequencer is strictly sequential over the page list of
    the story: page by page in list order, the call for the page is issued,
    that call settles (with an image or with a failure), the story is
    updated, and only then the call for the next page is issued. So the
    pages for which a call is issued are exactly the pages of the story, in
    their order, each once. *)
Theorem C5_one_request_per_page_in_order
    (ai : ImageModel) (story : Story) (comp : VisualComplexity) :
  map step_of (generateImagesSequence ai story comp) = sequential (pages story)
  ∧ map fst (requests (generateImagesSequence ai story comp)) = pages story
  ∧ map fst (settled (generateImagesSequence ai story comp)) = pages story.
Proof.
  unfold generateImagesSequence.
  split; [apply loop_steps|]. split; [apply loop_requests|apply loop_settled].
Qed.

(** ** References of the sequencer *)

Section SequencerRefs.
Context (ai : ImageModel) (initialStory : Story) (comp : VisualComplexity).
Context (firstPageId : option Z).

Lemma loop_refs (todo : list Page) (n : nat) (M : gmap Z string)
    (k : nat) (page : Page) (refs : list string) :
  requests (sequence_loop ai initialStory comp firstPageId n M todo) !! k
  = Some (page, refs) →
  refs
  = sequence_refs firstPageId
      (ledger M
         (take k
            (settled (sequence_loop ai initialStory comp firstPageId n M todo))))
      page.
Proof.
  revert n M k. induction todo as [|p rest IH]; intros n M k; [done|].
  simpl.
  destruct k as [|k].
  - simpl. by intros [= <- <-].
  - destruct (generatePageImage _ _ _ _) as [imageUrl|e]; simpl;
      intros Hk; by apply IH in Hk.
Qed.

End SequencerRefs.

Lemma ledger_snoc (M : gmap Z string) (done : list (Page * Promise string))
    (s : Page * Promise string) :
  ledger M (done ++ [s]) = record (ledger M done) s.
Proof. unfold ledger. by rewrite foldl_app. Qed.

Lemma ledger_absent (done : list (Page * Promise string)) (key : Z) :
  key ∉ map (λ s, StoryPage.id (fst s)) done → ledger ∅ done !! key = None.
Proof.
  induction done as [|[p o] done IH] using rev_ind; intros Hnot; [done|].
  rewrite ledger_snoc. rewrite map_app in Hnot. simpl in Hnot.
  apply not_elem_of_app in Hnot as [Hdone Hp].
  apply not_elem_of_cons in Hp as [Hp _].
  unfold record. simpl. destruct o; [|by apply IH].
  rewrite lookup_insert_ne by done. by apply IH.
Qed.

Lemma ledger_lookup (done : list (Page * Promise string)) (j : nat)
    (p : Page) (o : Promise string) :
  NoDup (map (λ s, StoryPage.id (fst s)) done) →
  done !! j = Some (p, o) →
  ledger ∅ done !! StoryPage.id p = generated o.
Proof.
  revert j. induction done as [|[q r] done IH] using rev_ind;
    intros j Hnd Hj; [done|].
  rewrite map_app in Hnd. apply NoDup_app in Hnd as (Hnd & Hdisj & _).
  rewrite ledger_snoc. unfold record. simpl.
  destruct (decide (j < length done)%nat) as [Hlt|Hge].
  - rewrite lookup_app_l in Hj by done.
    assert (StoryPage.id p ≠ StoryPage.id q) as Hne.
    { intros Heq. apply (Hdisj (StoryPage.id p)).
      - apply list_elem_of_fmap. exists (p, o). split; [done|].
        by eapply list_elem_of_lookup_2.
      - rewrite Heq. simpl. apply list_elem_of_here. }
    destruct r; [rewrite lookup_insert_ne by done|]; by eapply IH.
  - rewrite lookup_app_r in Hj by lia.
    destruct (j - length done)%nat; [|done]. injection Hj as -> ->.
    destruct o; simpl; [by rewrite lookup_insert_eq|].
    apply ledger_absent. intros Hin. apply (Hdisj _ Hin).
    simpl. apply list_elem_of_here.
Qed.

Lemma consecutive_from (ids : list Z) (f a : Z) (j : nat) :
  consecutive ids → ids !! O = Some f → ids !! j = Some a → a = f + Z.of_nat j.
Proof.
  intros Hc Hf. revert a. induction j as [|j IH]; intros a Hj.
  - rewrite Hf in Hj. injection Hj as <-. lia.
  - destruct (ids !! j) as [b|] eqn:Hb.
    + rewrite (Hc j b a Hb Hj), (IH b eq_refl). lia.
    + apply lookup_ge_None in Hb. apply lookup_lt_Some in Hj. lia.
Qed.

Lemma consecutive_NoDup_take (ids : list Z) (k : nat) :
  consecutive ids → NoDup (take k ids).
Proof.
  intros Hc. apply NoDup_alt. intros i j x Hi Hj.
  apply lookup_take_Some in Hi as [Hi _].
  apply lookup_take_Some in Hj as [Hj _].
  destruct (ids !! O) as [f|] eqn:Hf.
  - pose proof (consecutive_from ids f x i Hc Hf Hi).
    pose proof (consecutive_from ids f x j Hc Hf Hj). lia.
  - apply lookup_ge_None in Hf. apply lookup_lt_Some in Hi. lia.
Qed.

Lemma sequence_refs_empty (firstPageId : option Z) (page : Page) :
  sequence_refs firstPageId ∅ page = [].
Proof.
  unfold sequence_refs. rewrite lookup_empty.
  destruct firstPageId; [by rewrite lookup_empty|done].
Qed.

Lemma settled_lookup (l : list (Page * Promise string)) (pages : list Page)
    (j : nat) (p : Page) :
  map fst l = pages → pages !! j = Some p → ∃ o, l !! j = Some (p, o).
Proof.
  intros <- Hj. change (map fst l) with (fst <$> l) in Hj.
  rewrite list_lookup_fmap in Hj.
  destruct (l !! j) as [[q o]|]; [|done]. injection Hj as ->. by exists o.
Qed.

(** The references of the page at position [k >= 1] of a run over pages
    with consecutive ids. *)
Lemma consecutive_refs (S : list (Page * Promise string)) (p0 page : Page)
    (o0 : Promise string) (j : nat) :
  Forall is_double (map (λ s, StoryPage.id (fst s)) S) →
  consecutive (map (λ s, StoryPage.id (fst s)) S) →
  S !! O = Some (p0, o0) →
  map fst S !! (Datatypes.S j) = Some page →
  sequence_refs (Some (StoryPage.id p0)) (ledger ∅ (take (Datatypes.S j) S)) page
  = spec_refs (map (λ s, generated (snd s)) S) (Datatypes.S j).
Proof.
  intros Hdbl Hc H0 Hpage.
  set (idf := λ s : Page * Promise string, StoryPage.id (fst s)) in *.
  set (f := StoryPage.id p0).
  assert (∀ i x, S !! i = Some x → is_double (idf x)) as Hdouble.
  { intros i x Hx. eapply (proj1 (Forall_lookup _ _) Hdbl i).
    change (map idf S) with (idf <$> S). by rewrite list_lookup_fmap, Hx. }
  assert (NoDup (map idf (take (Datatypes.S j) S))) as Hnd.
  { change (map idf ?l) with (idf <$> l). rewrite fmap_take.
    by apply consecutive_NoDup_take. }
  assert (map idf S !! O = Some f) as Hf.
  { change (map idf S) with (idf <$> S). by rewrite list_lookup_fmap, H0. }
  assert (StoryPage.id page = f + Z.of_nat (Datatypes.S j)) as Hid.
  { apply (consecutive_from (map idf S)); [done..|].
    change (map idf S) with (idf <$> S). rewrite list_lookup_fmap.
    change (map fst S) with (fst <$> S) in Hpage.
    rewrite list_lookup_fmap in Hpage.
    destruct (S !! Datatypes.S j) as [[q o]|]; [|done].
    by injection Hpage as ->. }
  assert (ledger ∅ (take (Datatypes.S j) S) !! f = generated o0) as Hanchor.
  { apply (ledger_lookup _ O p0 o0 Hnd). by rewrite lookup_take_lt by lia. }
  unfold sequence_refs, spec_refs. rewrite Hanchor.
  change (map ?g S) with (g <$> S). rewrite !list_lookup_fmap, H0. simpl.
  f_equal.
  - destruct (generated o0); [|done].
    destruct (Z.eqb_spec (StoryPage.id page) f); [lia|done].
  - destruct j as [|j].
    + replace (number_sub (StoryPage.id page) 1) with f
        by (rewrite Hid, Nat2Z.inj_succ; simpl; symmetry;
            apply number_sub_succ, (Hdouble O _ H0)).
      rewrite Hanchor.
      destruct (generated o0); [|done]. by rewrite bool_decide_eq_false_2 by naive_solver.
    + destruct (S !! Datatypes.S j) as [[q o]|] eqn:Hq.
      * assert (StoryPage.id q = f + Z.of_nat (Datatypes.S j)) as Hq'.
        { apply (consecutive_from (map idf S)); [done..|].
          change (map idf S) with (idf <$> S). by rewrite list_lookup_fmap, Hq. }
        replace (number_sub (StoryPage.id page) 1) with (StoryPage.id q)
          by (rewrite Hid, (Nat2Z.inj_succ (Datatypes.S j)), Z.add_succ_r,
                <- Z.add_1_r, <- Hq'; symmetry;
              apply number_sub_succ, (Hdouble _ _ Hq)).
        rewrite (ledger_lookup _ (Datatypes.S j) q o Hnd)
          by (by rewrite lookup_take_lt by lia).
        simpl. destruct (generated o); [|done].
        rewrite bool_decide_eq_true_2; [done|]. intros [= Heq]. lia.
      * apply lookup_ge_None in Hq.
        change (map fst S) with (fst <$> S) in Hpage.
        apply lookup_lt_Some in Hpage. rewrite length_fmap in Hpage. lia.
Qed.

Lemma sequence_refs_sources (firstPageId : option Z) (M : gmap Z string)
    (page : Page) :
  sequence_refs firstPageId M page
  = omap (λ key, M !! key) (sequence_sources firstPageId page).
Proof.
  unfold sequence_refs, sequence_sources. rewrite omap_app. f_equal.
  - destruct firstPageId as [first|]; [|done].
    destruct (M !! first) eqn:HM, (StoryPage.id page =? first);
      simpl; by rewrite ?HM.
  - destruct (M !! number_sub (StoryPage.id page) 1) eqn:HM, (bool_decide _);
      simpl; by rewrite ?HM.
Qed.

(** C1, as the code has it. The references of the call for a page are read
    from the map of the images that the calls before it in the run have
    generated: under the id of the first page, unless the page has that id
    itself, then under the number that [page.id - 1] evaluates to, unless
    that is the id of the first page. The subtraction is that of doubles:
    it gives the id one less for the ids from -2^53 + 1 to 2^53 + 1, and
    beyond them a rounded value: for the ids from 2^53 to 2^54, which are
    even, the id itself when it is a multiple of four and the id two less
    otherwise. So for every
    story the call for the first page is made with an empty reference list,
    and for every story whose page ids are consecutive (each id is the id
    of the page before plus one, from any first id; ids are doubles) the
    call for each page is made with the references the specification
    describes: the image of the first page, when it was generated and the
    page is not the first one, then the image of the page just before, when
    it was generated and that page is not the first one. *)
Theorem C1_references_with_consecutive_ids
    (ai : ImageModel) (story : Story) (comp : VisualComplexity)
    (k : nat) (page : Page) (refs : list string) :
  requests (generateImagesSequence ai story comp) !! k = Some (page, refs) →
  pages story !! k = Some page
  ∧ refs
    = omap (λ key,
              ledger ∅ (take k (settled (generateImagesSequence ai story comp)))
              !! key)
        (sequence_sources (StoryPage.id <$> head (pages story)) page)
  ∧ (k = O → refs = [])
  ∧ (- 2 ^ 53 < StoryPage.id page ≤ 2 ^ 53 + 1 →
     number_sub (StoryPage.id page) 1 = StoryPage.id page - 1)
  ∧ (2 ^ 53 < StoryPage.id page ≤ 2 ^ 54 → StoryPage.id page mod 2 = 0 →
     number_sub (StoryPage.id page) 1
     = if StoryPage.id page mod 4 =? 0 then StoryPage.id page
       else StoryPage.id page - 2)
  ∧ (Forall is_double (map StoryPage.id (pages story)) →
     consecutive (map StoryPage.id (pages story)) →
     refs = spec_refs (images (generateImagesSequence ai story comp)) k).
Proof.
  intros Hk.
  assert (map fst (requests (generateImagesSequence ai story comp))
          = pages story) as Hreq by apply loop_requests.
  assert (map fst (settled (generateImagesSequence ai story comp))
          = pages story) as Hset by apply loop_settled.
  assert (pages story !! k = Some page) as Hpage.
  { rewrite <- Hreq. change (map fst ?l) with (fst <$> l).
    by rewrite list_lookup_fmap, Hk. }
  split; [done|].
  unfold generateImagesSequence in *. apply loop_refs in Hk.
  match type of Hk with context [settled ?e] => set (S := settled e) in * end.
  split; [by rewrite <- sequence_refs_sources|].
  assert (- 2 ^ 53 < StoryPage.id page ≤ 2 ^ 53 + 1 →
          number_sub (StoryPage.id page) 1 = StoryPage.id page - 1) as Hsafe
    by apply number_sub_safe.
  assert (2 ^ 53 < StoryPage.id page ≤ 2 ^ 54 → StoryPage.id page mod 2 = 0 →
          number_sub (StoryPage.id page) 1
          = if StoryPage.id page mod 4 =? 0 then StoryPage.id page
            else StoryPage.id page - 2) as Hfar
    by apply number_sub_binade.
  destruct k as [|j].
  - rewrite take_0 in Hk. unfold ledger in Hk. simpl in Hk.
    rewrite sequence_refs_empty in Hk. split; [done|]. split; [done|].
    split; [done|]. by intros _ _.
  - split; [done|]. split; [done|]. split; [done|]. intros Hdbl Hc.
    rewrite Hk. unfold images. fold S.
    destruct (pages story !! O) as [p0|] eqn:H0.
    + destruct (settled_lookup S _ O p0 Hset H0) as [o0 Ho0].
      replace (head (pages story)) with (Some p0)
        by (by destruct (pages story)).
      simpl.
      apply (consecutive_refs S p0 page o0 j); [| |done|by rewrite Hset].
      * rewrite <- Hset, map_map in Hdbl. exact Hdbl.
      * rewrite <- Hset, map_map in Hc. exact Hc.
    + apply lookup_ge_None in H0. apply lookup_lt_Some in Hpage. lia.
Qed.

Lemma C1_references_with_consecutive_ids_witness :
  ["data:image/png;base64,IMG0"; "data:image/png;base64,IMG1"]
  = spec_refs (images (generateImagesSequence numbered_model shifted_story BALANCED)) 2.
Proof.
  destruct (C1_references_with_consecutive_ids numbered_model shifted_story
              BALANCED 2 (fresh_page 7)
              ["data:image/png;base64,IMG0"; "data:image/png;base64,IMG1"])
    as (_ & _ & _ & _ & _ & Hrefs).
  - vm_compute. reflexivity.
  - apply Hrefs.
    + repeat constructor.
    + intros [|[|[|i]]] a b; simpl; intros [= <-] [= <-]; reflexivity.
Defined.

(** C1 as stated fails on a page list whose ids are not consecutive. With
    the ids 1, 2, 4 and every image generated, the call for the third page
    carries the image of the first page only, whereas the page just before
    it has an image and is not the first page. *)
Lemma C1_counterexample_gap_in_ids :
  requests (generateImagesSequence numbered_model gap_story BALANCED) !! 2%nat
  = Some (fresh_page 4, ["data:image/png;base64,IMG0"])
  ∧ spec_refs (images (generateImagesSequence numbered_model gap_story BALANCED)) 2
    = ["data:image/png;base64,IMG0"; "data:image/png;base64,IMG1"].
Proof. split; vm_compute; reflexivity. Qed.

(** The subtraction at work beyond 2^53, on ids that are doubles. With the
    ids 1, 2^53 and 2^53 + 2 the call for the third page reads the map under
    2^53, the id of the second page, and carries the images of the first
    and of the second page. In the regeneration of a page with the id 2^54
    the page found under [pageId - 1] is the page itself, and its own image
    is sent as the second reference. *)
Lemma references_beyond_safe_integers :
  Forall is_double (map StoryPage.id (pages far_story))
  ∧ requests (generateImagesSequence numbered_model far_story BALANCED) !! 2%nat
    = Some (fresh_page (2 ^ 53 + 2),
            ["data:image/png;base64,IMG0"; "data:image/png;base64,IMG1"])
  ∧ regenerate_refs
      (a_story "i9" 9000
         [ finished_page 1 "data:image/png;base64,AAAA";
           finished_page (2 ^ 54) "data:image/png;base64,BBBB" ])
      (2 ^ 54)
    = ["data:image/png;base64,AAAA"; "data:image/png;base64,BBBB"].
Proof.
  split; [repeat constructor|]. split; vm_compute; reflexivity.
Qed.

(** ** Number and origin of the references *)

Lemma sequence_sources_NoDup (firstPageId : option Z) (page : Page) :
  NoDup (sequence_sources firstPageId page).
Proof.
  unfold sequence_sources.
  destruct firstPageId as [first|]; [destruct (_ =? _)|];
    case_bool_decide as Hne; simpl; repeat constructor;
    rewrite ?elem_of_cons; try apply not_elem_of_nil.
  intros [Heq|Hin]; [naive_solver|by apply not_elem_of_nil in Hin].
Qed.

Lemma sequence_refs_bounded (firstPageId : option Z) (M : gmap Z string)
    (page : Page) :
  bounded_refs firstPageId page (sequence_refs firstPageId M page).
Proof.
  unfold bounded_refs, sequence_refs. split.
  - destruct firstPageId as [first|];
      [destruct (M !! first), (StoryPage.id page =? first)|];
      destruct (M !! number_sub (StoryPage.id page) 1);
      try case_bool_decide; simpl; lia.
  - intros <-. rewrite bool_decide_eq_false_2 by naive_solver.
    destruct (M !! number_sub (StoryPage.id page) 1); [destruct (_ =? _)|];
      simpl; lia.
Qed.

Lemma find_list_find (pageId : Z) (l : list Page) :
  List.find (λ p, StoryPage.id p =? pageId) l
  = snd <$> list_find (λ p, StoryPage.id p = pageId) l.
Proof.
  induction l as [|q l IH]; [done|]. simpl.
  destruct (Z.eqb_spec (StoryPage.id q) pageId); case_decide; try done.
  rewrite IH. by destruct (list_find _ l) as [[i r]|].
Qed.

Lemma regenerate_refs_sources (story : Story) (pageId : Z) :
  regenerate_refs story pageId
  = omap (image_at story) (regenerate_sources story pageId).
Proof.
  unfold regenerate_refs, regenerate_sources. rewrite omap_app. f_equal.
  - unfold image_at. destruct (pages story) as [|first rest]; [done|]. simpl.
    destruct (truthy (StoryPage.image_url first)) eqn:Hu, (_ =? _);
      simpl; by rewrite ?Hu.
  - rewrite find_list_find.
    destruct (list_find _ _) as [[i prev]|] eqn:Hfind; [|done]. simpl.
    apply list_find_Some in Hfind as (Hi & _ & _).
    unfold image_at.
    destruct (truthy (StoryPage.image_url prev)) eqn:Hu, (bool_decide _);
      simpl; by rewrite ?Hi; simpl; rewrite ?Hu.
Qed.

Lemma regenerate_sources_NoDup (story : Story) (pageId : Z) :
  NoDup (regenerate_sources story pageId).
Proof.
  unfold regenerate_sources.
  destruct (list_find _ _) as [[i prev]|] eqn:Hfind.
  - apply list_find_Some in Hfind as (Hi & _ & _).
    destruct (pages story) as [|first rest]; simpl in *; [done|].
    destruct (_ =? _); case_bool_decide as Hne; simpl;
      repeat constructor; rewrite ?elem_of_cons;
      try apply not_elem_of_nil.
    intros [<-|Hin]; [|by apply not_elem_of_nil in Hin].
    injection Hi as ->. by apply Hne.
  - destruct (head (pages story)); [destruct (_ =? _)|];
      simpl; repeat constructor; apply not_elem_of_nil.
Qed.

Lemma regenerate_refs_bounded (story : Story) (pageId : Z) (page : Page) :
  StoryPage.id page = pageId →
  bounded_refs (StoryPage.id <$> head (pages story)) page
    (regenerate_refs story pageId).
Proof.
  intros <-. unfold bounded_refs, regenerate_refs.
  set (pageId := StoryPage.id page).
  destruct (pages story) as [|first rest] eqn:Hpages; simpl.
  - split; [lia|done].
  - split.
    + destruct (truthy (StoryPage.image_url first)) as [image|];
        [destruct (StoryPage.id first =? pageId)|];
        (destruct (if StoryPage.id first =? number_sub pageId 1 then _ else _)
           as [prev|];
         [destruct (truthy (StoryPage.image_url prev));
          try case_bool_decide|]);
        simpl; lia.
    + intros [= Hprev]. rewrite Hprev, Z.eqb_refl.
      rewrite bool_decide_eq_false_2 by (intros Hne; by apply Hne).
      destruct (truthy (StoryPage.image_url first));
        [destruct (StoryPage.id first =? pageId)|]; simpl; lia.
Qed.

Lemma loop_requested (ai : ImageModel) (initialStory : Story)
    (comp : VisualComplexity) (firstPageId : option Z) (todo : list Page)
    (n : nat) (M : gmap Z string) (page : Page) (refs : list string) :
  Requested page refs ∈ sequence_loop ai initialStory comp firstPageId n M todo →
  ∃ M', refs = sequence_refs firstPageId M' page.
Proof.
  revert n M. induction todo as [|p rest IH]; intros n M Hin; simpl in Hin.
  - by apply not_elem_of_nil in Hin.
  - apply elem_of_cons in Hin as [[= -> ->]|Hin]; [by exists M|].
    apply elem_of_cons in Hin as [[=]|Hin].
    destruct (generatePageImage _ _ _ _);
      apply elem_of_cons in Hin as [[=]|Hin]; by eapply IH.
Qed.

Lemma find_id (pageId : Z) (l : list Page) (page : Page) :
  List.find (λ p, StoryPage.id p =? pageId) l = Some page →
  StoryPage.id page = pageId.
Proof. intros Hfind. apply find_some in Hfind as [_ Heq]. lia. Qed.

Lemma regenerate_requested (ai : ImageModel) (story : Story)
    (complexity : VisualComplexity) (pageId : Z) (page : Page)
    (refs : list string) :
  Requested page refs ∈ handleRegenerateImage ai (Some story) complexity pageId →
  StoryPage.id page = pageId ∧ refs = regenerate_refs story pageId.
Proof.
  unfold handleRegenerateImage.
  destruct (List.find _ _) as [found|] eqn:Hfind; intros Hin.
  - apply find_id in Hfind.
    apply elem_of_cons in Hin as [[=]|Hin].
    apply elem_of_cons in Hin as [[= -> ->]|Hin]; [done|].
    apply elem_of_cons in Hin as [[=]|Hin].
    apply elem_of_cons in Hin as [[=]|Hin].
    by apply not_elem_of_nil in Hin.
  - apply elem_of_cons in Hin as [[=]|Hin]. by apply not_elem_of_nil in Hin.
Qed.

Lemma sequence_sources_first (firstPageId : option Z) (page : Page) :
  Some (number_sub (StoryPage.id page) 1) = firstPageId →
  sequence_sources firstPageId page
  = if bool_decide (number_sub (StoryPage.id page) 1 = StoryPage.id page)
    then [] else [number_sub (StoryPage.id page) 1].
Proof.
  intros <-. unfold sequence_sources.
  rewrite (bool_decide_eq_false_2 (Some _ ≠ Some _))
    by (intros Hne; by apply Hne).
  rewrite app_nil_r.
  destruct (Z.eqb_spec (StoryPage.id page) (number_sub (StoryPage.id page) 1));
    case_bool_decide; simpl; congruence.
Qed.

Lemma regenerate_sources_first (story : Story) (pageId : Z) :
  Some (number_sub pageId 1) = (StoryPage.id <$> head (pages story)) →
  regenerate_sources story pageId
  = if bool_decide (number_sub pageId 1 = pageId) then [] else [O].
Proof.
  unfold regenerate_sources.
  destruct (pages story) as [|first rest]; [done|]. simpl. intros [= Hfirst].
  rewrite decide_True by done. simpl.
  rewrite (bool_decide_eq_false_2 (Some _ ≠ Some _))
    by (intros Hne; by apply Hne).
  rewrite app_nil_r.
  destruct (Z.eqb_spec (StoryPage.id first) pageId);
    case_bool_decide; simpl; congruence.
Qed.

Lemma second_request_refs (ai : ImageModel) (story : Story)
    (comp : VisualComplexity) (page : Page) (refs : list string) :
  requests (generateImagesSequence ai story comp) !! 1%nat = Some (page, refs) →
  (length refs ≤ 1)%nat.
Proof.
  intros Hk.
  assert (map fst (settled (generateImagesSequence ai story comp))
          = pages story) as Hset by apply loop_settled.
  unfold generateImagesSequence in *. apply loop_refs in Hk.
  match type of Hk with context [settled ?e] => set (S := settled e) in * end.
  destruct S as [|[p0 o0] S']; simpl in Hset.
  - rewrite Hk. unfold ledger. simpl. rewrite sequence_refs_empty. simpl. lia.
  - rewrite <- Hset in Hk. simpl in Hk.
    rewrite Hk. unfold record, sequence_refs. simpl.
    destruct o0 as [image|e]; simpl.
    + destruct (decide (number_sub (StoryPage.id page) 1 = StoryPage.id p0))
        as [->|Hne].
      * rewrite lookup_insert_eq.
        rewrite bool_decide_eq_false_2 by (intros Hne; by apply Hne).
        destruct (_ =? _); simpl; lia.
      * rewrite lookup_insert_eq, (lookup_insert_ne _ _ _ _ (not_eq_sym Hne)).
        rewrite lookup_empty. destruct (_ =? _); simpl; lia.
    + rewrite !lookup_empty. simpl. lia.
Qed.

(** C9, as the code has it. Every call made by the sequencer and every
    call made by the regeneration of a page carries two reference images at
    most, read from distinct sources (distinct keys of the map of generated
    images, distinct positions of the page list), so the image of the first
    page is never taken twice: when the number that the code computes as
    the id of the page minus one is the id of the first page, the call
    carries one reference at most, read from the first page, and none when
    the subtraction has rounded back to the id of the page itself, as it
    does for the multiples of four from 2^53 to 2^54. For the ids from
    -2^53 + 1 to 2^53 + 1 that number is the id one less, and the one
    source is then the first page. In the sequencer the bound of one
    holds of the page that comes right after the first page, whatever the
    ids. *)
Theorem C9_at_most_two_references :
  (∀ (ai : ImageModel) (story : Story) (comp : VisualComplexity)
     (page : Page) (refs : list string),
     Requested page refs ∈ generateImagesSequence ai story comp →
     bounded_refs (StoryPage.id <$> head (pages story)) page refs)
  ∧ (∀ (ai : ImageModel) (story : Story) (complexity : VisualComplexity)
       (pageId : Z) (page : Page) (refs : list string),
       Requested page refs
         ∈ handleRegenerateImage ai (Some story) complexity pageId →
       bounded_refs (StoryPage.id <$> head (pages story)) page refs)
  ∧ (∀ (firstPageId : option Z) (M : gmap Z string) (page : Page),
       NoDup (sequence_sources firstPageId page)
       ∧ sequence_refs firstPageId M page
         = omap (λ key, M !! key) (sequence_sources firstPageId page)
       ∧ (Some (number_sub (StoryPage.id page) 1) = firstPageId →
          sequence_sources firstPageId page
          = if bool_decide (number_sub (StoryPage.id page) 1 = StoryPage.id page)
            then [] else [number_sub (StoryPage.id page) 1])
       ∧ (- 2 ^ 53 < StoryPage.id page ≤ 2 ^ 53 + 1 →
          Some (StoryPage.id page - 1) = firstPageId →
          sequence_sources firstPageId page = [StoryPage.id page - 1])
       ∧ (2 ^ 53 < StoryPage.id page ≤ 2 ^ 54 →
          StoryPage.id page mod 4 = 0 →
          Some (StoryPage.id page) = firstPageId →
          sequence_sources firstPageId page = []))
  ∧ (∀ (story : Story) (pageId : Z),
       NoDup (regenerate_sources story pageId)
       ∧ regenerate_refs story pageId
         = omap (image_at story) (regenerate_sources story pageId)
       ∧ (Some (number_sub pageId 1) = (StoryPage.id <$> head (pages story)) →
          regenerate_sources story pageId
          = if bool_decide (number_sub pageId 1 = pageId) then [] else [O])
       ∧ (- 2 ^ 53 < pageId ≤ 2 ^ 53 + 1 →
          Some (pageId - 1) = (StoryPage.id <$> head (pages story)) →
          regenerate_sources story pageId = [O]))
  ∧ (∀ (ai : ImageModel) (story : Story) (comp : VisualComplexity)
       (page : Page) (refs : list string),
       requests (generateImagesSequence ai story comp) !! 1%nat
       = Some (page, refs) →
       (length refs ≤ 1)%nat).
Proof.
  split; [|split; [|split; [|split]]].
  - intros ai story comp page refs Hin. unfold generateImagesSequence in Hin.
    apply loop_requested in Hin as [M' ->]. apply sequence_refs_bounded.
  - intros ai story complexity pageId page refs Hin.
    apply regenerate_requested in Hin as [Hid ->].
    by apply regenerate_refs_bounded.
  - intros firstPageId M page. split; [|split; [|split; [|split]]].
    + apply sequence_sources_NoDup.
    + apply sequence_refs_sources.
    + apply sequence_sources_first.
    + intros Hsafe Hfirst. rewrite <- (number_sub_safe _ Hsafe) in Hfirst.
      rewrite (sequence_sources_first _ _ Hfirst).
      rewrite (number_sub_safe _ Hsafe).
      rewrite bool_decide_eq_false_2 by lia. done.
    + intros Hfar H4 Hfirst.
      assert (number_sub (StoryPage.id page) 1 = StoryPage.id page) as Hback.
      { rewrite number_sub_binade;
          [by rewrite H4|done|Z.to_euclidean_division_equations; lia]. }
      rewrite <- Hback in Hfirst at 1.
      rewrite (sequence_sources_first _ _ Hfirst).
      by rewrite bool_decide_eq_true_2.
  - intros story pageId. split; [|split; [|split]].
    + apply regenerate_sources_NoDup.
    + apply regenerate_refs_sources.
    + apply regenerate_sources_first.
    + intros Hsafe Hfirst. rewrite <- (number_sub_safe _ Hsafe) in Hfirst.
      rewrite (regenerate_sources_first _ _ Hfirst).
      rewrite (number_sub_safe _ Hsafe).
      rewrite bool_decide_eq_false_2 by lia. done.
  - apply second_request_refs.
Qed.

Lemma C9_at_most_two_references_witness :
  bounded_refs (Some 5) (fresh_page 6) ["data:image/png;base64,IMG0"]
  ∧ bounded_refs (Some 1) (finished_page 2 "data:image/png;base64,BBBB")
      ["data:image/png;base64,AAAA"]
  ∧ bounded_refs (Some 1) (finished_page 3 "data:image/png;base64,CCCC")
      ["data:image/png;base64,AAAA"; "data:image/png;base64,BBBB"]
  ∧ regenerate_sources finished_story 2 = [O].
Proof.
  destruct C9_at_most_two_references as (Hseq & Hregen & _ & Hsources & _).
  split; [|split; [|split]].
  - apply (Hseq numbered_model shifted_story BALANCED).
    apply (list_elem_of_lookup_2 _ 3). vm_compute. reflexivity.
  - apply (Hregen numbered_model finished_story BALANCED 2).
    apply (list_elem_of_lookup_2 _ 1). vm_compute. reflexivity.
  - apply (Hregen numbered_model finished_story BALANCED 3).
    apply (list_elem_of_lookup_2 _ 1). vm_compute. reflexivity.
  - destruct (Hsources finished_story 2) as (_ & _ & _ & Hfirst).
    apply Hfirst; [lia|reflexivity].
Defined.

(** C9 as stated fails in the regeneration of a page when the ids are out
    of order. In a finished story whose pages have the ids 1, 5, 4, the page
    with the id 5 comes right after the first page, and its regeneration
    carries two references: the image of the first page and the image of
    the page with the id 4. *)
Lemma C9_counterexample_regeneration_out_of_order :
  pages scrambled_story !! O
  = Some (finished_page 1 "data:image/png;base64,AAAA")
  ∧ pages scrambled_story !! 1%nat
    = Some (finished_page 5 "data:image/png;base64,BBBB")
  ∧ handleRegenerateImage numbered_model (Some scrambled_story) BALANCED 5
    !! 1%nat
    = Some (Requested (finished_page 5 "data:image/png;base64,BBBB")
              [ "data:image/png;base64,AAAA"; "data:image/png;base64,CCCC" ]).
Proof. repeat split; vm_compute; reflexivity. Qed.

(** ** Story updates *)

Lemma map_page_metadata (pageId : Z) (f : Page → Page) (s : Story) :
  same_metadata s (map_page pageId f s).
Proof. by repeat split. Qed.

Lemma map_page_others (pageId : Z) (f : Page → Page) (s : Story) :
  others_unchanged pageId s (map_page pageId f s).
Proof.
  split; simpl; [apply length_map|].
  intros i p Hi Hne. change (map ?g ?l) with (g <$> l).
  rewrite list_lookup_fmap, Hi. simpl.
  by destruct (Z.eqb_spec (StoryPage.id p) pageId).
Qed.

Lemma map_page_targets (pageId : Z) (f : Page → Page) (R : Page → Page → Prop)
    (s : Story) :
  (∀ p, R p (f p)) → targets pageId R s (map_page pageId f s).
Proof.
  intros HR i p Hi Heq. exists (f p). split; [|done]. simpl.
  change (map ?g ?l) with (g <$> l). rewrite list_lookup_fmap, Hi. simpl.
  by rewrite (proj2 (Z.eqb_eq _ _) Heq).
Qed.

Lemma map_page_no_target (pageId : Z) (f : Page → Page) (s : Story) :
  (∀ p, p ∈ pages s → StoryPage.id p ≠ pageId) → map_page pageId f s = s.
Proof.
  intros Hno. destruct s as [u c t pu bp g ps]. unfold map_page, with_pages.
  simpl in *. f_equal.
  induction ps as [|p ps IH]; [done|]. simpl.
  rewrite IH by (intros q Hq; apply Hno; by apply list_elem_of_further).
  destruct (Z.eqb_spec (StoryPage.id p) pageId) as [Heq|]; [|done].
  exfalso. by eapply Hno; [apply list_elem_of_here|].
Qed.

Lemma page_failed_marked (message : string) (p : Page) :
  marked_failed message p (page_failed message p).
Proof. by repeat split. Qed.

Lemma page_loaded_marked (imageUrl : string) (p : Page) :
  marked_loaded imageUrl p (page_loaded imageUrl p).
Proof. by repeat split. Qed.

Lemma page_loading_marked (p : Page) : marked_loading p (page_loading p).
Proof. by repeat split. Qed.

(** The three events of the [k]-th page of the loop. *)
Lemma loop_events (ai : ImageModel) (initialStory : Story)
    (comp : VisualComplexity) (firstPageId : option Z) (todo : list Page)
    (n : nat) (M : gmap Z string) (k : nat) (page : Page)
    (outcome : Promise string) :
  settled (sequence_loop ai initialStory comp firstPageId n M todo) !! k
  = Some (page, outcome) →
  sequence_loop ai initialStory comp firstPageId n M todo !! (3 * k + 2)%nat
  = Some (Updated
            match outcome with
            | Resolved imageUrl =>
                SequenceImage (uid initialStory) (StoryPage.id page) imageUrl
            | Rejected _ => SequenceFailure (uid initialStory) (StoryPage.id page)
            end).
Proof.
  revert n M k. induction todo as [|p rest IH]; intros n M k; [done|].
  destruct k as [|k].
  - simpl. intros [= -> <-]. by destruct (generatePageImage _ _ _ _).
  - replace (3 * S k + 2)%nat with (S (S (S (3 * k + 2)))) by lia.
    cbn [sequence_loop].
    destruct (generatePageImage _ _ _ _); intros Hk;
      apply (IH _ _ k) in Hk; exact Hk.
Qed.

Lemma others_unchanged_positions (pageId : Z) (prev next : Story)
    (k : nat) (page : Page) :
  others_unchanged pageId prev next →
  NoDup (map StoryPage.id (pages prev)) →
  pages prev !! k = Some page → StoryPage.id page = pageId →
  ∀ i, i ≠ k → pages next !! i = pages prev !! i.
Proof.
  intros [Hlen Hoth] Hnd Hk Hid i Hik.
  destruct (pages prev !! i) as [p|] eqn:Hi.
  - apply Hoth; [done|]. intros Hp. apply Hik.
    apply (proj1 (NoDup_alt _) Hnd i k pageId);
      change (map ?g ?l) with (g <$> l);
      rewrite list_lookup_fmap; [by rewrite Hi; simpl; rewrite Hp
                                |by rewrite Hk; simpl; rewrite Hid].
  - apply lookup_ge_None. apply lookup_ge_None in Hi. lia.
Qed.

(** C2, as the code has it. When the call for a page is rejected, the step
    that follows in the run is the failure update for the id of that page,
    and the run stays strictly sequential over all the pages of the story:
    the failure ends nothing. The failure update leaves the metadata of the
    story on display and every page with another id as they were. When the
    story on display is the story of the run, every page with the id of the
    failed page becomes a failed page ([is_generating] false, [error]
    "Failed to load image"); with distinct ids that is the failed page and
    no other. When another story is on display, or none, the update changes
    nothing. *)
Theorem C2_failure_update_and_continuation
    (ai : ImageModel) (story : Story) (comp : VisualComplexity)
    (k : nat) (page : Page) (e : exn) :
  settled (generateImagesSequence ai story comp) !! k
  = Some (page, Rejected e) →
  generateImagesSequence ai story comp !! (3 * k + 2)%nat
  = Some (Updated (SequenceFailure (uid story) (StoryPage.id page)))
  ∧ map step_of (generateImagesSequence ai story comp)
    = sequential (pages story)
  ∧ setStory (SequenceFailure (uid story) (StoryPage.id page)) None = None
  ∧ ∀ prev : Story,
      ∃ next : Story,
        setStory (SequenceFailure (uid story) (StoryPage.id page)) (Some prev)
        = Some next
        ∧ same_metadata prev next
        ∧ others_unchanged (StoryPage.id page) prev next
        ∧ (uid prev = uid story →
           targets (StoryPage.id page) (marked_failed "Failed to load image")
             prev next)
        ∧ (uid prev ≠ uid story → next = prev)
        ∧ (NoDup (map StoryPage.id (pages prev)) →
           pages prev !! k = Some page →
           ∀ i, i ≠ k → pages next !! i = pages prev !! i).
Proof.
  intros Hk. split; [|split; [|split]].
  - unfold generateImagesSequence in *. by apply loop_events in Hk.
  - apply loop_steps.
  - done.
  - intros prev. simpl.
    destruct (String.eqb_spec (uid prev) (uid story)) as [Heq|Hne]; simpl.
    + eexists. split; [reflexivity|].
      split; [apply map_page_metadata|].
      split; [apply map_page_others|].
      split; [intros _; apply map_page_targets, page_failed_marked|].
      split; [done|]. intros Hnd Hpage.
      by eapply others_unchanged_positions; [apply map_page_others|..].
    + exists prev. split; [done|]. split; [by repeat split|].
      split; [by split|]. by repeat split.
Qed.

Lemma C2_failure_update_and_continuation_witness :
  generateImagesSequence flaky_model shifted_story BALANCED !! 5%nat
  = Some (Updated (SequenceFailure "d4" 6))
  ∧ ∃ next,
      setStory (SequenceFailure "d4" 6) (Some shifted_story) = Some next
      ∧ targets 6 (marked_failed "Failed to load image") shifted_story next
      ∧ pages next !! O = Some (fresh_page 5)
      ∧ pages next !! 2%nat = Some (fresh_page 7).
Proof.
  destruct (C2_failure_update_and_continuation flaky_model shifted_story
              BALANCED 1 (fresh_page 6) (ApiError "503"))
    as (Hupdate & _ & _ & Hframe).
  - vm_compute. reflexivity.
  - split; [exact Hupdate|].
    destruct (Hframe shifted_story)
      as (next & Hnext & _ & _ & Hmarked & _ & Hothers).
    exists next. split; [exact Hnext|]. split; [by apply Hmarked|].
    assert (NoDup (map StoryPage.id (pages shifted_story))) as Hnd.
    { apply NoDup_alt. intros [|[|[|i]]] [|[|[|j]]] x; simpl;
        intros [= <-] [=]; reflexivity. }
    split; by rewrite (Hothers Hnd eq_refl).
Defined.

(** C2 as stated fails when two pages share an id. The story has two pages
    with the id 1 and the call for the first one is rejected: the failure
    update then marks the second page as failed too, and the run, left to
    itself, ends with the error on the second page although its call
    produced an image. And when another story has been put on display while
    the call was on its way, the failure update marks nothing. *)
Lemma C2_counterexample_shared_id :
  map snd (settled (generateImagesSequence first_call_fails twin_story BALANCED))
  = [Rejected (ApiError "503"); Resolved "data:image/png;base64,IMG1"]
  ∧ (StoryPage.error <$>
       (setStory (SequenceFailure (uid twin_story) 1) (Some twin_story)
        ≫= λ s, pages s !! 1%nat))
    = Some (Some "Failed to load image")
  ∧ (StoryPage.error <$>
       (run_updates (generateImagesSequence first_call_fails twin_story BALANCED)
          (Some twin_story)
        ≫= λ s, pages s !! 1%nat))
    = Some (Some "Failed to load image")
  ∧ setStory (SequenceFailure (uid twin_story) 1) (Some older) = Some older.
Proof. repeat split; vm_compute; reflexivity. Qed.

(** ** Regeneration of a page *)

Lemma find_no_match (pageId : Z) (l : list Page) :
  (∀ p, p ∈ l → StoryPage.id p ≠ pageId) →
  List.find (λ p, StoryPage.id p =? pageId) l = None.
Proof.
  induction l as [|q l IH]; intros Hno; [done|]. simpl.
  destruct (Z.eqb_spec (StoryPage.id q) pageId) as [Heq|_].
  - exfalso. by eapply Hno; [apply list_elem_of_here|].
  - apply IH. intros p Hp. apply Hno. by apply list_elem_of_further.
Qed.

Lemma regenerate_updates (ai : ImageModel) (story : Story)
    (complexity : VisualComplexity) (pageId : Z) (u : StoryUpdate) :
  Updated u ∈ handleRegenerateImage ai (Some story) complexity pageId →
  u = RetryLoading pageId
  ∨ (∃ imageUrl, u = RetryImage pageId imageUrl)
  ∨ u = RetryFailure pageId.
Proof.
  unfold handleRegenerateImage. intros Hin.
  apply elem_of_cons in Hin as [[= ->]|Hin]; [by left|].
  destruct (List.find _ _) as [page|]; [|by apply not_elem_of_nil in Hin].
  apply elem_of_cons in Hin as [[=]|Hin].
  apply elem_of_cons in Hin as [[=]|Hin].
  apply elem_of_cons in Hin as [[= ->]|Hin];
    [|by apply not_elem_of_nil in Hin].
  destruct (generatePageImage _ _ _ _) as [imageUrl|e]; eauto.
Qed.

Lemma regenerate_settled (ai : ImageModel) (story : Story)
    (complexity : VisualComplexity) (pageId : Z) (page : Page)
    (outcome : Promise string) :
  Settled page outcome ∈ handleRegenerateImage ai (Some story) complexity pageId →
  last (handleRegenerateImage ai (Some story) complexity pageId)
  = Some (Updated match outcome with
                  | Resolved imageUrl => RetryImage pageId imageUrl
                  | Rejected _ => RetryFailure pageId
                  end).
Proof.
  unfold handleRegenerateImage. intros Hin.
  apply elem_of_cons in Hin as [[=]|Hin].
  destruct (List.find _ _) as [found|]; [|by apply not_elem_of_nil in Hin].
  apply elem_of_cons in Hin as [[=]|Hin].
  apply elem_of_cons in Hin as [[= -> <-]|Hin]; [done|].
  apply elem_of_cons in Hin as [[=]|Hin]. by apply not_elem_of_nil in Hin.
Qed.

Lemma find_match (pageId : Z) (l : list Page) (p : Page) :
  p ∈ l → StoryPage.id p = pageId →
  ∃ page, List.find (λ q, StoryPage.id q =? pageId) l = Some page
          ∧ StoryPage.id page = pageId.
Proof.
  intros Hin Hid. induction l as [|q l IH]; [by apply not_elem_of_nil in Hin|].
  simpl. destruct (Z.eqb_spec (StoryPage.id q) pageId) as [Heq|Hne].
  - by exists q.
  - apply elem_of_cons in Hin as [->|Hin]; [done|]. by apply IH.
Qed.

(** C7. The regeneration of the page id [pageId] updates the story three
    times at most: the loading flag first, then, once the call has settled,
    the image or the failure. When a page of the story has the id, the call
    is made, for the first page with the id, it settles, and the update
    that follows is the image or the failure. Each of these updates,
    whatever story it
    meets, leaves the metadata of the story (uid, createdAt, title, purpose,
    character_blueprint, visual_style_guide) and every page with another id
    as they were. On success the pages with the id [pageId] get the image
    and are no longer generating; on failure they get the error "Retry
    failed" and are no longer generating. When no page of the story has the
    id [pageId], the loading update is the only thing that happens, and it
    leaves the story as it was. *)
Theorem C7_regeneration_touches_one_page_id
    (ai : ImageModel) (story : Story) (complexity : VisualComplexity)
    (pageId : Z) :
  (∀ u, Updated u ∈ handleRegenerateImage ai (Some story) complexity pageId →
     ∀ prev : Story, ∃ next : Story,
       setStory u (Some prev) = Some next
       ∧ same_metadata prev next
       ∧ others_unchanged pageId prev next)
  ∧ (∀ p, p ∈ pages story → StoryPage.id p = pageId →
       ∃ page outcome,
         List.find (λ q, StoryPage.id q =? pageId) (pages story) = Some page
         ∧ StoryPage.id page = pageId
         ∧ outcome
           = generatePageImage (ai O) (StoryPage.action_description page)
               (styleConfig_of story complexity) (regenerate_refs story pageId)
         ∧ handleRegenerateImage ai (Some story) complexity pageId
           = [ Updated (RetryLoading pageId);
               Requested page (regenerate_refs story pageId);
               Settled page outcome;
               Updated match outcome with
                       | Resolved imageUrl => RetryImage pageId imageUrl
                       | Rejected _ => RetryFailure pageId
                       end ])
  ∧ (∀ page imageUrl,
       Settled page (Resolved imageUrl)
         ∈ handleRegenerateImage ai (Some story) complexity pageId →
       last (handleRegenerateImage ai (Some story) complexity pageId)
       = Some (Updated (RetryImage pageId imageUrl))
       ∧ ∀ prev : Story, ∃ next : Story,
           setStory (RetryImage pageId imageUrl) (Some prev) = Some next
           ∧ targets pageId (marked_loaded imageUrl) prev next)
  ∧ (∀ page e,
       Settled page (Rejected e)
         ∈ handleRegenerateImage ai (Some story) complexity pageId →
       last (handleRegenerateImage ai (Some story) complexity pageId)
       = Some (Updated (RetryFailure pageId))
       ∧ ∀ prev : Story, ∃ next : Story,
           setStory (RetryFailure pageId) (Some prev) = Some next
           ∧ targets pageId (marked_failed "Retry failed") prev next)
  ∧ ((∀ p, p ∈ pages story → StoryPage.id p ≠ pageId) →
     handleRegenerateImage ai (Some story) complexity pageId
     = [Updated (RetryLoading pageId)]
     ∧ run_updates (handleRegenerateImage ai (Some story) complexity pageId)
         (Some story)
       = Some story)
  ∧ head (handleRegenerateImage ai (Some story) complexity pageId)
    = Some (Updated (RetryLoading pageId))
  ∧ (∀ prev : Story, ∃ next : Story,
       setStory (RetryLoading pageId) (Some prev) = Some next
       ∧ targets pageId marked_loading prev next)
  ∧ handleRegenerateImage ai None complexity pageId = [].
Proof.
  split; [|split; [|split; [|split; [|split; [|split; [|split]]]]]].
  - intros u Hu prev.
    apply regenerate_updates in Hu as [->|[[imageUrl ->]| ->]];
      (eexists; split; [reflexivity|]; split;
       [apply map_page_metadata|apply map_page_others]).
  - intros p Hp Hid.
    destruct (find_match pageId (pages story) p Hp Hid) as (page & Hfind & Hpage).
    exists page. eexists. split; [done|]. split; [done|].
    split; [reflexivity|]. unfold handleRegenerateImage. by rewrite Hfind.
  - intros page imageUrl Hin. split.
    + by apply regenerate_settled in Hin.
    + intros prev. eexists. split; [reflexivity|].
      apply map_page_targets, page_loaded_marked.
  - intros page e Hin. split.
    + by apply regenerate_settled in Hin.
    + intros prev. eexists. split; [reflexivity|].
      apply map_page_targets, page_failed_marked.
  - intros Hno. unfold handleRegenerateImage.
    rewrite find_no_match by done. split; [done|]. simpl.
    by rewrite map_page_no_target.
  - reflexivity.
  - intros prev. eexists. split; [reflexivity|].
    apply map_page_targets, page_loading_marked.
  - reflexivity.
Qed.

Lemma C7_regeneration_touches_one_page_id_witness :
  (last (handleRegenerateImage numbered_model (Some finished_story) BALANCED 2)
   = Some (Updated (RetryImage 2 "data:image/png;base64,IMG0"))
   ∧ ∃ next,
       setStory (RetryImage 2 "data:image/png;base64,IMG0") (Some finished_story)
       = Some next
       ∧ targets 2 (marked_loaded "data:image/png;base64,IMG0")
           finished_story next)
  ∧ (last (handleRegenerateImage first_call_fails (Some finished_story)
             BALANCED 2)
     = Some (Updated (RetryFailure 2))
     ∧ ∃ next,
         setStory (RetryFailure 2) (Some finished_story) = Some next
         ∧ targets 2 (marked_failed "Retry failed") finished_story next)
  ∧ (∃ page outcome,
       handleRegenerateImage numbered_model (Some finished_story) BALANCED 2
       = [ Updated (RetryLoading 2);
           Requested page (regenerate_refs finished_story 2);
           Settled page outcome;
           Updated match outcome with
                   | Resolved imageUrl => RetryImage 2 imageUrl
                   | Rejected _ => RetryFailure 2
                   end ])
  ∧ handleRegenerateImage numbered_model (Some shifted_story) BALANCED 99
    = [Updated (RetryLoading 99)]
  ∧ run_updates
      (handleRegenerateImage numbered_model (Some shifted_story) BALANCED 99)
      (Some shifted_story)
    = Some shifted_story.
Proof.
  split; [|split; [|split]].
  - destruct (C7_regeneration_touches_one_page_id numbered_model
                finished_story BALANCED 2) as (_ & _ & Hok & _).
    destruct (Hok (finished_page 2 "data:image/png;base64,BBBB")
                "data:image/png;base64,IMG0") as [Hlast Hnext].
    + apply (list_elem_of_lookup_2 _ 2). vm_compute. reflexivity.
    + split; [exact Hlast|]. exact (Hnext finished_story).
  - destruct (C7_regeneration_touches_one_page_id first_call_fails
                finished_story BALANCED 2) as (_ & _ & _ & Hko & _).
    destruct (Hko (finished_page 2 "data:image/png;base64,BBBB")
                (ApiError "503")) as [Hlast Hnext].
    + apply (list_elem_of_lookup_2 _ 2). vm_compute. reflexivity.
    + split; [exact Hlast|]. exact (Hnext finished_story).
  - destruct (C7_regeneration_touches_one_page_id numbered_model
                finished_story BALANCED 2) as (_ & Hcall & _).
    destruct (Hcall (finished_page 2 "data:image/png;base64,BBBB"))
      as (page & outcome & _ & _ & _ & Hrun).
    + apply list_elem_of_further, list_elem_of_here.
    + reflexivity.
    + by exists page, outcome.
  - destruct (C7_regeneration_touches_one_page_id numbered_model shifted_story
                BALANCED 99) as (_ & _ & _ & _ & Hnone & _).
    apply Hnone. intros p Hp.
    repeat (apply elem_of_cons in Hp as [->|Hp]; [discriminate|]).
    by apply not_elem_of_nil in Hp.
Defined.

(** ** generatePageImage *)

Lemma strip_prefix_spec (p s r : string) :
  strip_prefix p s = Some r ↔ s = p +:+ r.
Proof.
  revert s. induction p as [|a p IH]; intros s; simpl.
  - split; [by intros [= ->]|by intros ->].
  - destruct s as [|b s]; [done|].
    destruct (Ascii.eqb_spec a b) as [->|Hne].
    + rewrite IH. split; [by intros ->|by intros [= ->]].
    + split; [done|]. intros [= <- _]. done.
Qed.

Lemma has_line_terminator_app (a b : string) :
  has_line_terminator (a +:+ b)
  = has_line_terminator a || has_line_terminator b.
Proof.
  induction a as [|c a IH]; [done|]. simpl. by rewrite IH, orb_assoc.
Qed.

Lemma split_base64_sound (r m d : string) :
  split_base64 r = Some (m, d) → r = m +:+ ";base64," +:+ d ∧ d ≠ "".
Proof.
  revert m. induction r as [|c r IH]; intros m; [done|].
  cbn [split_base64].
  destruct (split_base64 r) as [[m' d']|].
  - intros [= <- <-]. destruct (IH m' eq_refl) as [-> Hd]. by split.
  - destruct (strip_prefix ";base64," (String c r)) as [[|c' d0]|] eqn:Hs;
      [done| |done].
    intros [= <- <-]. apply strip_prefix_spec in Hs. by split.
Qed.

Lemma split_base64_complete (m d : string) :
  d ≠ "" →
  ∃ m' d', split_base64 (m +:+ ";base64," +:+ d) = Some (m', d')
           ∧ (m ≠ "" → m' ≠ "").
Proof.
  intros Hd. induction m as [|c m IH].
  - change ("" +:+ ";base64," +:+ d) with (String ";" ("base64," +:+ d)).
    cbn [split_base64].
    destruct (split_base64 ("base64," +:+ d)) as [[m' d']|]; [by eauto|].
    assert (strip_prefix ";base64," (String ";" ("base64," +:+ d)) = Some d)
      as -> by (by apply strip_prefix_spec).
    destruct d as [|c' d0]; [done|]. by eauto.
  - destruct IH as (m' & d' & Hsplit & _).
    change (String c m +:+ ";base64," +:+ d)
      with (String c (m +:+ ";base64," +:+ d)).
    cbn [split_base64]. rewrite Hsplit. by eauto.
Qed.

Lemma match_data_url_sound (url m d : string) :
  match_data_url url = Some (m, d) →
  url = data_url m d ∧ m ≠ "" ∧ d ≠ ""
  ∧ has_line_terminator m = false ∧ has_line_terminator d = false.
Proof.
  unfold match_data_url.
  destruct (strip_prefix "data:" url) as [r|] eqn:Hr; [|done].
  apply strip_prefix_spec in Hr.
  destruct (has_line_terminator r) eqn:Ht; [done|].
  destruct (split_base64 r) as [[[|c m'] d']|] eqn:Hs; [done| |done].
  intros [= <- <-]. apply split_base64_sound in Hs as [-> Hd].
  rewrite !has_line_terminator_app in Ht.
  apply orb_false_elim in Ht as [Hm Ht]. apply orb_false_elim in Ht as [_ Ht].
  by repeat split.
Qed.

Lemma match_data_url_complete (m d : string) :
  m ≠ "" → d ≠ "" →
  has_line_terminator m = false → has_line_terminator d = false →
  is_Some (match_data_url (data_url m d)).
Proof.
  intros Hm Hd Htm Htd. unfold match_data_url, data_url.
  assert (strip_prefix "data:" ("data:" +:+ m +:+ ";base64," +:+ d)
          = Some (m +:+ ";base64," +:+ d)) as ->
    by (by apply strip_prefix_spec).
  rewrite !has_line_terminator_app, Htm, Htd. simpl.
  destruct (split_base64_complete m d Hd) as (m' & d' & -> & Hm').
  destruct m' as [|c m']; [by destruct Hm'|]. by eexists.
Qed.

Lemma reference_parts_omap (referenceImageUrls : list string) :
  reference_parts referenceImageUrls = omap reference_part referenceImageUrls.
Proof.
  induction referenceImageUrls as [|url rest IH]; [done|]. simpl.
  unfold reference_part at 1.
  destruct (match_data_url url) as [[m d]|]; simpl; by rewrite IH.
Qed.

Lemma first_image_inline (response : Response.t) :
  first_image (response_parts response)
  = (λ image, data_url (fst image) (snd image))
      <$> head (inline_images response).
Proof.
  unfold inline_images.
  induction (response_parts response) as [|part rest IH]; [done|]. simpl.
  destruct (Part.inlineData part) as [blob|]; simpl; [|done].
  destruct (truthy (Blob.data blob)); simpl; done.
Qed.

Lemma matches_pattern_match (url : string) :
  matches_pattern url ↔ is_Some (match_data_url url).
Proof.
  split.
  - intros (m & d & -> & Hm & Hd & Htm & Htd).
    by apply match_data_url_complete.
  - intros [[m d] Hmatch]. exists m, d. by apply match_data_url_sound.
Qed.

Lemma generatePageImage_request
    (ai : list RequestPart → Promise Response.t) (pageDesc : string)
    (styleConfig : StyleConfig) (refs : list string) :
  generatePageImage ai pageDesc styleConfig refs
  = match ai (image_request pageDesc styleConfig refs) with
    | Rejected error => Rejected error
    | Resolved response =>
        match first_image (response_parts response) with
        | Some url => Resolved url
        | None => Rejected (Error "No image data returned")
        end
    end.
Proof.
  unfold generatePageImage, image_request. rewrite reference_parts_omap.
  by replace (bool_decide (0 < length refs)%nat) with (bool_decide (refs ≠ []))
    by (destruct refs; apply bool_decide_ext; simpl; split;
        (done || lia || (intros; lia))).
Qed.

Lemma first_image_skip (before rest : list Part.t) :
  (∀ q b d, q ∈ before → Part.inlineData q = Some b → Blob.data b = Some d →
     d = "") →
  first_image (before ++ rest) = first_image rest.
Proof.
  induction before as [|q before IH]; intros Hno; [done|]. simpl.
  rewrite IH by (intros q' b d Hq; apply Hno; by apply list_elem_of_further).
  destruct (Part.inlineData q) as [b|] eqn:Hb; [|done].
  destruct (Blob.data b) as [d|] eqn:Hd; [|done].
  by rewrite (Hno q b d (list_elem_of_here _ _) Hb Hd).
Qed.

Lemma first_image_none (parts : list Part.t) :
  (∀ q b d, q ∈ parts → Part.inlineData q = Some b → Blob.data b = Some d →
     d = "") →
  first_image parts = None.
Proof.
  intros Hno. rewrite <- (app_nil_r parts). by rewrite first_image_skip.
Qed.

Lemma first_image_data_url (parts : list Part.t) (url : string) :
  first_image parts = Some url →
  ∃ mime data, url = data_url mime data ∧ data ≠ "".
Proof.
  induction parts as [|part rest IH]; [done|]. simpl.
  destruct (Part.inlineData part) as [blob|]; [|done].
  destruct (Blob.data blob) as [[|c data]|]; simpl; try done.
  intros [= <-]. by eexists _, _.
Qed.

(** C10. For every list of reference urls, [generatePageImage] sends to the
    model one inline part for each url that matches the pattern
    [data:<mime>;base64,<data>], in order, followed by the text part: a url
    that does not match contributes nothing and stops nothing. When the
    model client rejects, the function rejects with the same error. When the
    model answers, the function reads the parts of the content of the first
    candidate: it resolves with [data:<mime>;base64,<data>] built from the
    first of these parts that has inline data with data that is not empty
    (the mime type as it prints, [undefined] when absent), and rejects with
    the error "No image data returned" when there is no such part, be it
    that the response has no candidate, that the first candidate has no
    content or no parts, or that no part has data. Whatever it resolves
    with has the form [data:<mime>;base64,<data>] with data. *)
Theorem C10_generatePageImage_total
    (ai : list RequestPart → Promise Response.t) (pageDesc : string)
    (styleConfig : StyleConfig) (referenceImageUrls : list string) :
  let request := image_request pageDesc styleConfig referenceImageUrls in
  let outcome :=
    generatePageImage ai pageDesc styleConfig referenceImageUrls in
  (∃ prompt : ImagePrompt,
     request = omap reference_part referenceImageUrls ++ [Text prompt]
     ∧ outcome
       = match ai (omap reference_part referenceImageUrls ++ [Text prompt]) with
         | Rejected error => Rejected error
         | Resolved response =>
             match head (inline_images response) with
             | Some (mime, data) => Resolved (data_url mime data)
             | None => Rejected (Error "No image data returned")
             end
         end)
  ∧ (∀ url, reference_part url = None ↔ ¬ matches_pattern url)
  ∧ (∀ before url after,
       ¬ matches_pattern url →
       omap reference_part (before ++ url :: after)
       = omap reference_part (before ++ after))
  ∧ (∀ error, ai request = Rejected error → outcome = Rejected error)
  ∧ (∀ response candidate others content parts before part blob data after,
       ai request = Resolved response →
       Response.candidates response = Some (candidate :: others) →
       Candidate.content candidate = Some content →
       Content.parts content = Some parts →
       parts = before ++ part :: after →
       (∀ q b d, q ∈ before → Part.inlineData q = Some b →
          Blob.data b = Some d → d = "") →
       Part.inlineData part = Some blob →
       Blob.data blob = Some data → data ≠ "" →
       outcome
       = Resolved ("data:" +:+ default "undefined" (Blob.mimeType blob)
                   +:+ ";base64," +:+ data))
  ∧ (∀ response,
       ai request = Resolved response →
       (∀ candidate others content parts q b d,
          Response.candidates response = Some (candidate :: others) →
          Candidate.content candidate = Some content →
          Content.parts content = Some parts →
          q ∈ parts → Part.inlineData q = Some b → Blob.data b = Some d →
          d = "") →
       outcome = Rejected (Error "No image data returned"))
  ∧ (∀ url, outcome = Resolved url →
       ∃ mime data, url = data_url mime data ∧ data ≠ "").
Proof.
  intros request outcome.
  assert (∀ url, reference_part url = None ↔ ¬ matches_pattern url) as Hdrop.
  { intros url. rewrite matches_pattern_match. unfold reference_part.
    destruct (match_data_url url) as [groups|]; simpl; split.
    - done.
    - intros Hno. destruct Hno. by exists groups.
    - by intros _ [groups [=]].
    - done. }
  assert (outcome
          = match ai request with
            | Rejected error => Rejected error
            | Resolved response =>
                match first_image (response_parts response) with
                | Some url => Resolved url
                | None => Rejected (Error "No image data returned")
                end
            end) as Hrun by apply generatePageImage_request.
  split; [|split; [done|split; [|split; [|split; [|split]]]]].
  - eexists. split; [reflexivity|]. rewrite Hrun. unfold request, image_request.
    destruct (ai _) as [response|e]; [|done].
    rewrite first_image_inline.
    by destruct (head (inline_images response)) as [[mime data]|].
  - intros before url after Hno. apply Hdrop in Hno.
    rewrite !omap_app. simpl. by rewrite Hno.
  - intros error Hai. by rewrite Hrun, Hai.
  - intros response candidate others content parts before part blob data after
      Hai Hcand Hcontent Hparts -> Hbefore Hblob Hdata Hne.
    rewrite Hrun, Hai. unfold response_parts.
    rewrite Hcand, Hcontent, Hparts. simpl.
    rewrite first_image_skip by done. simpl. rewrite Hblob, Hdata.
    by destruct data.
  - intros response Hai Hno. rewrite Hrun, Hai.
    rewrite first_image_none; [done|].
    intros q b d Hq. unfold response_parts in Hq.
    destruct (Response.candidates response) as [[|candidate others]|] eqn:Hcand;
      try (by apply not_elem_of_nil in Hq).
    destruct (Candidate.content candidate) as [content|] eqn:Hcontent;
      [|by apply not_elem_of_nil in Hq].
    destruct (Content.parts content) as [parts|] eqn:Hparts;
      [|by apply not_elem_of_nil in Hq].
    by eapply Hno.
  - intros url. rewrite Hrun. destruct (ai request) as [response|e]; [|done].
    destruct (first_image _) as [u|] eqn:Hu; [|done].
    intros [= <-]. by eapply first_image_data_url.
Qed.

Lemma C10_generatePageImage_total_witness :
  generatePageImage (chatty_model O) "Wide shot"
    (styleConfig_of shifted_story BALANCED)
    ["data:image/png;base64,AAAA"; "https://example.org/a.png"]
  = Resolved "data:image/png;base64,BBBB"
  ∧ generatePageImage (λ _, Resolved wordy_response) "Wide shot"
      (styleConfig_of shifted_story BALANCED) []
    = Rejected (Error "No image data returned")
  ∧ generatePageImage (first_call_fails O) "Wide shot"
      (styleConfig_of shifted_story BALANCED) []
    = Rejected (ApiError "503")
  ∧ omap reference_part
      ["data:image/png;base64,AAAA"; "https://example.org/a.png";
       "data:image/png;base64,BBBB"]
    = omap reference_part
        ["data:image/png;base64,AAAA"; "data:image/png;base64,BBBB"].
Proof.
  split; [|split; [|split]].
  - destruct (C10_generatePageImage_total (chatty_model O) "Wide shot"
                (styleConfig_of shifted_story BALANCED)
                ["data:image/png;base64,AAAA"; "https://example.org/a.png"])
      as (_ & _ & _ & _ & Himage & _).
    apply (Himage mixed_response mixed_candidate [] mixed_content
             [words_part; hollow_part; picture_part] [words_part; hollow_part]
             picture_part picture "BBBB" []);
      try reflexivity; try discriminate.
    intros q b d Hq Hb Hd.
    apply elem_of_cons in Hq as [->|Hq]; [discriminate|].
    apply elem_of_cons in Hq as [->|Hq]; [|by apply not_elem_of_nil in Hq].
    injection Hb as <-. by injection Hd.
  - destruct (C10_generatePageImage_total (λ _, Resolved wordy_response)
                "Wide shot" (styleConfig_of shifted_story BALANCED) [])
      as (_ & _ & _ & _ & _ & Hnone & _).
    apply (Hnone wordy_response eq_refl).
    intros candidate others content parts q b d [= <- <-] [= <-] [= <-] Hq.
    apply elem_of_cons in Hq as [->|Hq]; [discriminate|].
    by apply not_elem_of_nil in Hq.
  - destruct (C10_generatePageImage_total (first_call_fails O) "Wide shot"
                (styleConfig_of shifted_story BALANCED) [])
      as (_ & _ & _ & Hreject & _).
    by apply Hreject.
  - destruct (C10_generatePageImage_total (numbered_model 0) "Wide shot"
                (styleConfig_of shifted_story BALANCED) [])
      as (_ & Hdrop & Hskip & _).
    apply (Hskip ["data:image/png;base64,AAAA"] "https://example.org/a.png"
             ["data:image/png;base64,BBBB"]).
    apply Hdrop. vm_compute. reflexivity.
Defined.

(** ** generateStoryboard *)

Lemma field_set_field_eq (k : string) (v : Json) (fields : list (string * Json)) :
  field k (set_field k v fields) = Some v.
Proof.
  induction fields as [|[k' v'] rest IH]; simpl.
  - by rewrite String.eqb_refl.
  - destruct (String.eqb_spec k' k) as [->|Hne]; simpl.
    + by rewrite String.eqb_refl.
    + by rewrite (proj2 (String.eqb_neq _ _) Hne).
Qed.

Lemma field_set_field_ne (k k' : string) (v : Json)
    (fields : list (string * Json)) :
  k ≠ k' → field k' (set_field k v fields) = field k' fields.
Proof.
  intros Hne. induction fields as [|[k'' v''] rest IH]; simpl.
  - by rewrite (proj2 (String.eqb_neq _ _) Hne).
  - destruct (String.eqb_spec k'' k) as [->|Hne']; simpl.
    + by rewrite (proj2 (String.eqb_neq _ _) Hne).
    + by rewrite IH.
Qed.

(** C4, as the code has it. [generateStoryboard] resolves with the object
    that the text of the model's response parses to, the empty object when
    the text is empty or absent, with a generated uid and the createdAt time
    stamp set over whatever the response had under these names: every other
    field, character_blueprint, visual_style_guide and pages among them, is
    in the result exactly as it is in the response, so a response without
    text gives an object with uid and createdAt only. When the model call
    fails, and when the text of the response is not JSON, it throws the
    error "Failed to generate storyboard structure.". *)
Theorem C4_generateStoryboard_injects_metadata `{JsonParser}
    (ai : StoryboardPrompt → Promise Response.t) (env : Entropy)
    (storyText : string) (complexity : VisualComplexity) (gender : Gender) :
  (∀ e, ai (storyboard_prompt storyText complexity gender) = Rejected e →
     generateStoryboard ai env storyText complexity gender
     = Rejected (Error "Failed to generate storyboard structure."))
  ∧ (∀ response,
       ai (storyboard_prompt storyText complexity gender) = Resolved response →
       JSON_parse (default "{}" (truthy (Response.text response))) = None →
       generateStoryboard ai env storyText complexity gender
       = Rejected (Error "Failed to generate storyboard structure."))
  ∧ (∀ response data,
       ai (storyboard_prompt storyText complexity gender) = Resolved response →
       JSON_parse (default "{}" (truthy (Response.text response))) = Some data →
       ∃ fields,
         generateStoryboard ai env storyText complexity gender
         = Resolved (JObject fields)
         ∧ field "uid" fields = Some (JString (generate_uid env))
         ∧ field "createdAt" fields = Some (JNumber (now_createdAt env))
         ∧ ∀ k, k ≠ "uid" → k ≠ "createdAt" →
             field k fields = field k (spread data))
  ∧ (∀ response,
       ai (storyboard_prompt storyText complexity gender) = Resolved response →
       truthy (Response.text response) = None →
       generateStoryboard ai env storyText complexity gender
       = Resolved (JObject [ ("uid", JString (generate_uid env));
                             ("createdAt", JNumber (now_createdAt env)) ])).
Proof.
  unfold generateStoryboard. split; [|split; [|split]].
  - by intros e ->.
  - by intros response -> ->.
  - intros response data -> ->. eexists. split; [reflexivity|].
    split; [|split].
    + by rewrite field_set_field_ne, field_set_field_eq.
    + by rewrite field_set_field_eq.
    + intros k Hu Hc. by rewrite !field_set_field_ne.
  - intros response -> ->. simpl. by rewrite JSON_parse_empty_object.
Qed.

Lemma C4_generateStoryboard_injects_metadata_witness :
  ∃ fields,
    @generateStoryboard scenario_parser storyboard_model an_entropy
      "Timmy shares his truck." BALANCED boy
    = Resolved (JObject fields)
    ∧ field "uid" fields = Some (JString "m2r1bz7k4fzyo82mv")
    ∧ field "pages" fields = Some (JArray [JObject [("id", JNumber 1)]]).
Proof.
  destruct (@C4_generateStoryboard_injects_metadata scenario_parser
              storyboard_model an_entropy "Timmy shares his truck." BALANCED boy)
    as (_ & _ & Hparsed & _).
  destruct (Hparsed {| Response.text := Some a_storyboard_text;
                       Response.candidates := None |} a_storyboard
              eq_refl eq_refl)
    as (fields & Hrun & Huid & _ & Hrest).
  exists fields. split; [exact Hrun|]. split; [exact Huid|].
  rewrite Hrest; [reflexivity|discriminate|discriminate].
Defined.

(** C4 as stated fails on a response without text. The text then defaults
    to the empty object, and the function resolves with an object that has a
    uid and a createdAt and neither character_blueprint nor
    visual_style_guide nor pages. *)
Lemma C4_counterexample_empty_response :
  @generateStoryboard scenario_parser silent_model an_entropy
    "Timmy shares his truck." BALANCED boy
  = Resolved (JObject [ ("uid", JString "m2r1bz7k4fzyo82mv");
                        ("createdAt", JNumber 1730000000001) ])
  ∧ field "character_blueprint"
      [ ("uid", JString "m2r1bz7k4fzyo82mv");
        ("createdAt", JNumber 1730000000001) ] = None
  ∧ field "visual_style_guide"
      [ ("uid", JString "m2r1bz7k4fzyo82mv");
        ("createdAt", JNumber 1730000000001) ] = None
  ∧ field "pages"
      [ ("uid", JString "m2r1bz7k4fzyo82mv");
        ("createdAt", JNumber 1730000000001) ] = None.
Proof. repeat split; vm_compute; reflexivity. Qed.

(** * Further properties of the code *)

(** ** Saving and loading *)

Lemma healthy_load (store : gmap string Story) :
  getHistoryFromDB (healthy store) = Resolved (sort newest_first (getAll store)).
Proof. reflexivity. Qed.

Lemma healthy_save (story : Story) (store : gmap string Story) :
  saveStoryToDB story (healthy store) = (Resolved tt, healthy (put story store)).
Proof. reflexivity. Qed.

Lemma filter_uid_absent (l : list Story) (u : string) :
  u ∉ map uid l → filter (λ s, uid s = u) l = [].
Proof.
  induction l as [|y l IH]; intros Hnot; [done|]. simpl in Hnot.
  apply not_elem_of_cons in Hnot as [Hy Hl].
  rewrite filter_cons_False by (intros Heq; by apply Hy). by apply IH.
Qed.

Lemma unique_uid_filter (l : list Story) (x : Story) :
  unique_uids l → x ∈ l →
  filter (λ s, uid s = uid x) l = [x].
Proof.
  unfold unique_uids. induction l as [|y l IH]; intros Hnd Hin.
  - by apply not_elem_of_nil in Hin.
  - simpl in Hnd. apply NoDup_cons in Hnd as [Hy Hnd].
    apply elem_of_cons in Hin as [->|Hin].
    + rewrite filter_cons_True by done. f_equal.
      by apply filter_uid_absent.
    + rewrite filter_cons_False; [by apply IH|].
      intros Heq. apply Hy. rewrite Heq. apply list_elem_of_fmap. by exists x.
Qed.

Lemma stored_in_history (store : gmap string Story) (k : string) (s : Story) :
  store !! k = Some s → s ∈ sort newest_first (getAll store).
Proof.
  intros Hk. rewrite history_Permutation.
  apply list_elem_of_fmap. exists (k, s). split; [done|].
  by apply elem_of_map_to_list.
Qed.

Lemma history_length (store : gmap string Story) :
  length (sort newest_first (getAll store)) = size store.
Proof.
  rewrite history_Permutation, length_map. apply length_map_to_list.
Qed.

(** X1. A save followed by a load. On a database that works and whose
    records sit under their uids, [saveStoryToDB] resolves, and
    [getHistoryFromDB] then resolves with a list in which the saved story is
    the one and only storybook with its uid, in which every storybook that
    was stored under another uid still is, and which has one entry more than
    the store had if the uid was new, as many if it was known. *)
Theorem X1_save_then_load (story : Story) (store : gmap string Story) :
  keyed store →
  fst (saveStoryToDB story (healthy store)) = Resolved tt
  ∧ ∃ l,
      getHistoryFromDB (snd (saveStoryToDB story (healthy store))) = Resolved l
      ∧ filter (λ s, uid s = uid story) l = [story]
      ∧ (∀ k s, k ≠ uid story → store !! k = Some s → s ∈ l)
      ∧ length l
        = match store !! uid story with
          | Some _ => size store
          | None => S (size store)
          end.
Proof.
  intros Hk. rewrite healthy_save. split; [done|]. simpl.
  eexists. split; [apply healthy_load|]. split; [|split].
  - apply unique_uid_filter.
    + eapply keyed_unique_uids; [by apply keyed_put|].
      apply history_Permutation.
    + apply (stored_in_history _ (uid story)). apply lookup_insert_eq.
  - intros k s Hne Hs. apply (stored_in_history _ k).
    unfold put. by rewrite lookup_insert_ne.
  - rewrite history_length. unfold put. rewrite map_size_insert.
    by destruct (store !! uid story).
Qed.

Lemma X1_save_then_load_witness :
  getHistoryFromDB (snd (saveStoryToDB newer_retitled (healthy two_stories)))
  = Resolved [newer_retitled; older]
  ∧ filter (λ s, uid s = uid newer_retitled) [newer_retitled; older]
    = [newer_retitled].
Proof.
  assert (keyed two_stories) as Hk
    by (apply keyed_put, keyed_put, keyed_empty).
  destruct (X1_save_then_load newer_retitled two_stories Hk)
    as (_ & l & Hload & Hone & _).
  assert (getHistoryFromDB
            (snd (saveStoryToDB newer_retitled (healthy two_stories)))
          = Resolved [newer_retitled; older]) as Hrun
    by (vm_compute; reflexivity).
  split; [exact Hrun|].
  rewrite Hrun in Hload. injection Hload as <-. exact Hone.
Defined.

Lemma disturbed_save (story : Story) (w : Persistence)
    (o r : option exn) :
  records (db (act (Save story) (act (Disturb o r) w)))
  = match o, r with
    | None, None => put story (records (db w))
    | _, _ => records (db w)
    end.
Proof.
  cbn [act db history]. unfold saveStoryToDB, initDB.
  cbn [open_error request_error records].
  by destruct o, r.
Qed.

(** X3. Saves compose by key, whatever the database does before and
    between them: each of the two saves meets a database that opens or not
    and takes the request or not. When the second save meets a database
    that works, two saves of stories with the same uid leave the store as
    the second one alone does, whether or not the first one went through:
    the last write wins. When the second save fails, the store is as the
    first save left it. Two saves of stories with different uids, each
    under its own conditions, leave the same store in either order. *)
Theorem X3_saves_compose (s1 s2 : Story) (w : Persistence)
    (o1 r1 o2 r2 : option exn) :
  let first := [Disturb o1 r1; Save s1] in
  let second := [Disturb o2 r2; Save s2] in
  (uid s1 = uid s2 → o2 = None → r2 = None →
   records (db (run (first ++ second) w)) = put s2 (records (db w))
   ∧ records (db (run (first ++ second) w)) = records (db (run second w)))
  ∧ (is_Some o2 ∨ is_Some r2 →
     records (db (run (first ++ second) w)) = records (db (run first w)))
  ∧ (uid s1 ≠ uid s2 →
     records (db (run (first ++ second) w))
     = records (db (run (second ++ first) w))).
Proof.
  intros first second. subst first second.
  change (run ([Disturb o1 r1; Save s1] ++ [Disturb o2 r2; Save s2]) w)
    with (act (Save s2) (act (Disturb o2 r2)
            (act (Save s1) (act (Disturb o1 r1) w)))).
  change (run ([Disturb o2 r2; Save s2] ++ [Disturb o1 r1; Save s1]) w)
    with (act (Save s1) (act (Disturb o1 r1)
            (act (Save s2) (act (Disturb o2 r2) w)))).
  change (run [Disturb o2 r2; Save s2] w)
    with (act (Save s2) (act (Disturb o2 r2) w)).
  change (run [Disturb o1 r1; Save s1] w)
    with (act (Save s1) (act (Disturb o1 r1) w)).
  rewrite !disturbed_save. split; [|split].
  - intros Huid -> ->. unfold put.
    destruct o1, r1; try done. by rewrite Huid, insert_insert_eq.
  - intros [[e ->]|[e ->]]; [done|]. by destruct o2.
  - intros Hne. destruct o1, r1, o2, r2; try done.
    unfold put. by apply insert_insert_ne.
Qed.

Lemma X3_saves_compose_witness :
  records
    (db (run [ Disturb (Some (DOMException "InvalidStateError")) None;
               Save newer; Disturb None None; Save newer_retitled ]
           first_visit))
  = put newer_retitled ∅
  ∧ records
      (db (run [ Disturb None None; Save newer;
                 Disturb None (Some (DOMException "UnknownError"));
                 Save newer_retitled ]
             first_visit))
    = put newer ∅.
Proof.
  split.
  - destruct (X3_saves_compose newer newer_retitled first_visit
                (Some (DOMException "InvalidStateError")) None None None)
      as (Hlast & _).
    exact (proj1 (Hlast eq_refl eq_refl eq_refl)).
  - destruct (X3_saves_compose newer newer_retitled first_visit
                None None None (Some (DOMException "UnknownError")))
      as (_ & Hfailed & _).
    exact (Hfailed (or_intror (mk_is_Some _ _ eq_refl))).
Defined.

(** ** The history in memory *)

Lemma persist_history_known (story : Story) (prev : list Story) :
  uid story ∈ map uid prev →
  persist_history story prev
  = map (λ h, if String.eqb (uid h) (uid story) then story else h) prev.
Proof. intros Hin. unfold persist_history. by rewrite (proj2 (existsb_uid _ _) Hin). Qed.

Lemma persist_history_new (story : Story) (prev : list Story) :
  uid story ∉ map uid prev → persist_history story prev = story :: prev.
Proof.
  intros Hnot. unfold persist_history.
  destruct (existsb _ prev) eqn:Hex; [|done].
  by apply existsb_uid in Hex.
Qed.

Lemma replace_absent (story : Story) (prev : list Story) :
  uid story ∉ map uid prev →
  map (λ h, if String.eqb (uid h) (uid story) then story else h) prev = prev.
Proof.
  induction prev as [|y prev IH]; intros Hnot; [done|]. simpl in *.
  apply not_elem_of_cons in Hnot as [Hy Hprev]. rewrite IH by done.
  destruct (String.eqb_spec (uid y) (uid story)); congruence.
Qed.

Lemma replace_replace (story : Story) (prev : list Story) :
  let f := λ h, if String.eqb (uid h) (uid story) then story else h in
  map f (map f prev) = map f prev.
Proof.
  intros f. rewrite map_map. apply map_ext. intros h. unfold f.
  destruct (String.eqb_spec (uid h) (uid story)); [|by rewrite (proj2 (String.eqb_neq _ _))].
  by rewrite String.eqb_refl.
Qed.

Lemma persist_history_elem (story : Story) (prev : list Story) (x : Story) :
  x ∈ persist_history story prev
  ↔ x = story ∨ (uid x ≠ uid story ∧ x ∈ prev).
Proof.
  destruct (decide (uid story ∈ map uid prev)) as [Hin|Hnot].
  - rewrite persist_history_known by done.
    change (map ?f prev) with (f <$> prev). rewrite list_elem_of_fmap. split.
    + intros (y & -> & Hy).
      destruct (String.eqb_spec (uid y) (uid story)); [by left|by right].
    + intros [->|[Hne Hx]].
      * apply list_elem_of_fmap in Hin as (y & Hu & Hy). exists y.
        split; [|done]. by rewrite Hu, String.eqb_refl.
      * exists x. split; [|done].
        by rewrite (proj2 (String.eqb_neq _ _) Hne).
  - rewrite persist_history_new by done. rewrite elem_of_cons. split.
    + intros [->|Hx]; [by left|]. right.
      split; [|done]. intros Heq. apply Hnot. rewrite <- Heq.
      apply list_elem_of_fmap. by exists x.
    + intros [->|[_ Hx]]; auto.
Qed.

Lemma persist_history_others (story : Story) (prev : list Story) :
  filter (λ h, uid h ≠ uid story) (persist_history story prev)
  = filter (λ h, uid h ≠ uid story) prev.
Proof.
  unfold persist_history. destruct (existsb _ prev).
  - induction prev as [|y prev IH]; [done|]. simpl.
    destruct (String.eqb_spec (uid y) (uid story)) as [Heq|Hne].
    + rewrite !filter_cons_False by (intros Hne; by apply Hne). apply IH.
    + rewrite !filter_cons_True by done. by rewrite IH.
  - rewrite filter_cons_False; [done|]. intros Hne. by apply Hne.
Qed.

(** X4. The history update of the persistence effect. The story is in the
    history afterwards; the storybooks with another uid are the same as
    before, in the same order; a story with a new uid goes to the front of
    the list; and running the update a second time with the same story
    changes nothing. *)
Theorem X4_persist_history (story : Story) (prev : list Story) :
  story ∈ persist_history story prev
  ∧ filter (λ h, uid h ≠ uid story) (persist_history story prev)
    = filter (λ h, uid h ≠ uid story) prev
  ∧ (uid story ∉ map uid prev → persist_history story prev = story :: prev)
  ∧ persist_history story (persist_history story prev)
    = persist_history story prev.
Proof.
  split; [|split; [|split]].
  - apply persist_history_elem. by left.
  - apply persist_history_others.
  - apply persist_history_new.
  - destruct (decide (uid story ∈ map uid prev)) as [Hin|Hnot].
    + rewrite (persist_history_known story prev) by done.
      rewrite persist_history_known by (by rewrite replace_keeps_uids).
      apply replace_replace.
    + rewrite (persist_history_new story prev) by done.
      rewrite persist_history_known by (simpl; apply list_elem_of_here).
      simpl. rewrite String.eqb_refl. f_equal. by apply replace_absent.
Qed.

Lemma X4_persist_history_witness :
  persist_history newer [older] = [newer; older].
Proof.
  apply (proj1 (proj2 (proj2 (X4_persist_history newer [older])))).
  intros Hin. apply elem_of_cons in Hin as [[=]|Hin].
  by apply not_elem_of_nil in Hin.
Defined.

Lemma first_visit_in_step : in_step first_visit.
Proof.
  split; [done|]. split; [done|]. split; [apply keyed_empty|].
  split; [constructor|]. intros s. split.
  - intros Hs. by apply not_elem_of_nil in Hs.
  - simpl. by rewrite lookup_empty.
Qed.

Lemma save_in_step (story : Story) (w : Persistence) :
  in_step w → in_step (act (Save story) w).
Proof.
  intros (Ho & Hr & Hk & Hu & Hagree).
  unfold in_step. cbn [act history db].
  unfold saveStoryToDB, initDB. rewrite Ho, Hr.
  cbn [snd records open_error request_error].
  split; [done|]. split; [done|]. split; [by apply keyed_put|].
  split; [by apply persist_history_unique|].
  intros s. rewrite persist_history_elem. unfold put. split.
  - intros [->|[Hne Hs]]; [apply lookup_insert_eq|].
    rewrite lookup_insert_ne by done. by apply Hagree.
  - destruct (decide (uid s = uid story)) as [Heq|Hne].
    + rewrite Heq, lookup_insert_eq. intros [= ->]. by left.
    + rewrite lookup_insert_ne by done. intros Hs. right.
      split; [done|]. by apply Hagree.
Qed.

Lemma saves_in_step (stories : list Story) (w : Persistence) :
  in_step w → in_step (run (map Save stories) w).
Proof.
  revert w. induction stories as [|story stories IH]; intros w Hw; [done|].
  apply IH. by apply save_in_step.
Qed.

Lemma in_step_Permutation (w : Persistence) :
  in_step w → history w ≡ₚ getAll (records (db w)).
Proof.
  intros (_ & _ & Hk & Hu & Hagree). apply NoDup_Permutation.
  - unfold unique_uids in Hu. change (map uid ?l) with (uid <$> l) in Hu.
    by apply NoDup_fmap_1 in Hu.
  - assert (unique_uids (getAll (records (db w)))) as Hg
      by (eapply keyed_unique_uids; [done|apply getAll_Permutation]).
    unfold unique_uids in Hg. change (map uid ?l) with (uid <$> l) in Hg.
    by apply NoDup_fmap_1 in Hg.
  - intros s. rewrite Hagree, getAll_Permutation.
    change (map snd ?l) with (snd <$> l). rewrite list_elem_of_fmap. split.
    + intros Hs. exists (uid s, s). split; [done|].
      by apply elem_of_map_to_list.
    + intros ([k s'] & -> & Hin). apply elem_of_map_to_list in Hin.
      simpl. by rewrite (Hk k s' Hin).
Qed.

(** X5. Memory and store stay in step. After any series of saves, started
    on a first visit with a database that works, the in-memory history
    holds exactly the storybooks of the store. So a reload of the page
    followed by the load of the history brings the same storybooks back, now
    in newest-first order. *)
Theorem X5_history_survives_reload (stories : list Story) :
  history (run (map Save stories) first_visit)
  ≡ₚ getAll (records (db (run (map Save stories) first_visit)))
  ∧ history (run [Reload; LoadHistory] (run (map Save stories) first_visit))
    ≡ₚ history (run (map Save stories) first_visit)
  ∧ Sorted (descending createdAt)
      (history (run [Reload; LoadHistory] (run (map Save stories) first_visit))).
Proof.
  pose proof (saves_in_step stories first_visit first_visit_in_step) as Hw.
  pose proof (in_step_Permutation _ Hw) as Hperm.
  destruct Hw as (Ho & Hr & _).
  set (w := run (map Save stories) first_visit) in *.
  assert (history (run [Reload; LoadHistory] w)
          = sort newest_first (getAll (records (db w)))) as ->.
  { unfold run. simpl. unfold getHistoryFromDB, initDB. simpl.
    by rewrite Ho, Hr. }
  split; [done|]. split.
  - by rewrite sort_Permutation.
  - by apply (sort_Sorted newest_first createdAt).
Qed.

(** ** The story after a run of the sequencer *)

Lemma map_page_uid (pageId : Z) (f : Page → Page) (s : Story) :
  uid (map_page pageId f s) = uid s.
Proof. reflexivity. Qed.

Lemma loop_final_state (ai : ImageModel) (initialStory : Story)
    (comp : VisualComplexity) (firstPageId : option Z) (todo : list Page)
    (n : nat) (M : gmap Z string) (s : Story) :
  uid s = uid initialStory →
  run_updates (sequence_loop ai initialStory comp firstPageId n M todo) (Some s)
  = Some (foldl settle_story s
            (settled (sequence_loop ai initialStory comp firstPageId n M todo))).
Proof.
  revert n M s. induction todo as [|page rest IH]; intros n M s Hs; [done|].
  cbn [sequence_loop].
  destruct (generatePageImage _ _ _ _) as [imageUrl|e];
    cbn [run_updates settled foldl setStory];
    rewrite Hs, String.eqb_refl; cbn [negb];
    by rewrite IH by (by rewrite map_page_uid).
Qed.

Lemma loop_other_story (ai : ImageModel) (initialStory : Story)
    (comp : VisualComplexity) (firstPageId : option Z) (todo : list Page)
    (n : nat) (M : gmap Z string) (s : Story) :
  uid s ≠ uid initialStory →
  run_updates (sequence_loop ai initialStory comp firstPageId n M todo) (Some s)
  = Some s.
Proof.
  intros Hs. revert n M. induction todo as [|page rest IH]; intros n M; [done|].
  cbn [sequence_loop].
  destruct (generatePageImage _ _ _ _) as [imageUrl|e];
    cbn [run_updates setStory];
    rewrite (proj2 (String.eqb_neq _ _) Hs); cbn [negb]; apply IH.
Qed.

Lemma loop_no_story (ai : ImageModel) (initialStory : Story)
    (comp : VisualComplexity) (firstPageId : option Z) (todo : list Page)
    (n : nat) (M : gmap Z string) :
  run_updates (sequence_loop ai initialStory comp firstPageId n M todo) None
  = None.
Proof.
  revert n M. induction todo as [|page rest IH]; intros n M; [done|].
  cbn [sequence_loop].
  destruct (generatePageImage _ _ _ _) as [imageUrl|e];
    cbn [run_updates setStory]; apply IH.
Qed.

Lemma settle_story_metadata (s : Story) (xs : list (Page * Promise string)) :
  same_metadata s (foldl settle_story s xs).
Proof.
  revert s. induction xs as [|x xs IH]; intros s; [by repeat split|].
  simpl. destruct (IH (settle_story s x)) as (H1 & H2 & H3 & H4 & H5 & H6).
  by repeat split.
Qed.

Lemma settle_story_pages (s : Story) (xs : list (Page * Promise string)) :
  pages (foldl settle_story s xs) = map (settle_all xs) (pages s).
Proof.
  revert s. induction xs as [|x xs IH]; intros s; simpl.
  - by rewrite map_id.
  - rewrite IH. simpl. by rewrite map_map.
Qed.

Lemma settle_id (outcome : Promise string) (p : Page) :
  StoryPage.id (settle outcome p) = StoryPage.id p.
Proof. by destruct outcome. Qed.

Lemma settle_step_content (p : Page) (x : Page * Promise string) :
  same_content p (settle_step p x).
Proof.
  unfold settle_step. destruct (_ =? _); [|by repeat split].
  by destruct (snd x).
Qed.

Lemma settle_all_cons (x : Page * Promise string)
    (xs : list (Page * Promise string)) (p : Page) :
  settle_all (x :: xs) p = settle_all xs (settle_step p x).
Proof. reflexivity. Qed.

Lemma settle_step_match (p : Page) (x : Page * Promise string) :
  StoryPage.id p = StoryPage.id (fst x) → settle_step p x = settle (snd x) p.
Proof. intros Heq. unfold settle_step. by rewrite (proj2 (Z.eqb_eq _ _) Heq). Qed.

Lemma settle_step_other (p : Page) (x : Page * Promise string) :
  StoryPage.id p ≠ StoryPage.id (fst x) → settle_step p x = p.
Proof. intros Hne. unfold settle_step. by rewrite (proj2 (Z.eqb_neq _ _) Hne). Qed.

Lemma settle_all_content (xs : list (Page * Promise string)) (p : Page) :
  same_content p (settle_all xs p).
Proof.
  revert p. induction xs as [|x xs IH]; intros p; [by repeat split|].
  rewrite settle_all_cons.
  destruct (IH (settle_step p x)) as (H1 & H2 & H3).
  destruct (settle_step_content p x) as (G1 & G2 & G3).
  repeat split; congruence.
Qed.

Lemma settle_all_no_match (xs : list (Page * Promise string)) (p : Page) :
  (∀ x, x ∈ xs → StoryPage.id (fst x) ≠ StoryPage.id p) →
  settle_all xs p = p.
Proof.
  induction xs as [|x xs IH]; intros Hno; [done|].
  rewrite settle_all_cons, settle_step_other.
  - apply IH. intros y Hy. apply Hno. by apply list_elem_of_further.
  - apply not_eq_sym, Hno, list_elem_of_here.
Qed.

Lemma settle_all_unique (xs : list (Page * Promise string)) (i : nat)
    (q p : Page) (o : Promise string) :
  NoDup (map (λ x, StoryPage.id (fst x)) xs) →
  xs !! i = Some (q, o) → StoryPage.id p = StoryPage.id q →
  settle_all xs p = settle o p.
Proof.
  revert i p. induction xs as [|x xs IH]; intros i p Hnd Hi Hid; [done|].
  simpl in Hnd. apply NoDup_cons in Hnd as [Hx Hnd].
  rewrite settle_all_cons. destruct i as [|i].
  - injection Hi as ->. rewrite settle_step_match by done. simpl.
    apply settle_all_no_match. intros y Hy Heq. apply Hx.
    rewrite settle_id, Hid in Heq. simpl. rewrite <- Heq.
    apply list_elem_of_fmap. by exists y.
  - simpl in Hi. rewrite settle_step_other; [by eapply IH|].
    intros Heq. apply Hx. rewrite <- Heq, Hid.
    apply list_elem_of_fmap. exists (q, o). split; [done|].
    by eapply list_elem_of_lookup_2.
Qed.

Lemma first_image_not_empty (parts : list Part.t) (url : string) :
  first_image parts = Some url → url ≠ "".
Proof.
  induction parts as [|part rest IH]; [done|]. simpl.
  destruct (Part.inlineData part) as [blob|]; [|done].
  destruct (truthy (Blob.data blob)); [|done]. by intros [= <-].
Qed.

Lemma generatePageImage_not_empty
    (ai : list RequestPart → Promise Response.t) (pageDesc : string)
    (styleConfig : StyleConfig) (refs : list string) (url : string) :
  generatePageImage ai pageDesc styleConfig refs = Resolved url → url ≠ "".
Proof.
  unfold generatePageImage. destruct (ai _) as [response|e]; [|done].
  destruct (first_image _) as [u|] eqn:Hu; [|done].
  intros [= <-]. by eapply first_image_not_empty.
Qed.

Lemma loop_with_pictures (ai : ImageModel) (initialStory : Story)
    (comp : VisualComplexity) (firstPageId : option Z) (todo : list Page)
    (n : nat) (M : gmap Z string) :
  with_pictures
    (settled (sequence_loop ai initialStory comp firstPageId n M todo)).
Proof.
  revert n M. induction todo as [|page rest IH]; intros n M p u Hin.
  - by apply not_elem_of_nil in Hin.
  - cbn [sequence_loop] in Hin.
    destruct (generatePageImage _ _ _ _) as [imageUrl|e] eqn:Hgen;
      cbn [settled] in Hin;
      apply elem_of_cons in Hin as [[= -> ->]|Hin];
      try (by eapply IH); try done.
    by eapply generatePageImage_not_empty.
Qed.

Lemma settle_at_rest (outcome : Promise string) (p : Page) :
  (∀ imageUrl, outcome = Resolved imageUrl → imageUrl ≠ "") →
  at_rest (settle outcome p).
Proof.
  intros Hpic. destruct outcome as [imageUrl|e]; split; try done.
  - left. simpl. specialize (Hpic imageUrl eq_refl). by destruct imageUrl.
  - by right.
Qed.

Lemma settle_all_at_rest (xs : list (Page * Promise string)) (p : Page) :
  with_pictures xs →
  at_rest p ∨ (∃ x, x ∈ xs ∧ StoryPage.id (fst x) = StoryPage.id p) →
  at_rest (settle_all xs p).
Proof.
  revert p. induction xs as [|x xs IH]; intros p Hpic Hp.
  - destruct Hp as [Hp|(x & Hx & _)]; [done|by apply not_elem_of_nil in Hx].
  - rewrite settle_all_cons.
    assert (with_pictures xs) as Hpic'
      by (intros q u Hq; eapply Hpic; by apply list_elem_of_further).
    apply IH; [done|].
    destruct (decide (StoryPage.id p = StoryPage.id (fst x))) as [Heq|Hne].
    + left. rewrite settle_step_match by done. apply settle_at_rest.
      intros u Hu. apply (Hpic (fst x) u). rewrite <- Hu.
      destruct x. apply list_elem_of_here.
    + rewrite settle_step_other by done.
      destruct Hp as [Hp|(y & Hy & Hid)]; [by left|].
      apply elem_of_cons in Hy as [->|Hy]; [by destruct Hne|].
      right. by exists y.
Qed.

Lemma at_rest_controls (p : Page) :
  at_rest p →
  page_display p ≠ Painting
  ∧ (page_controls p = [Redraw] ∨ page_controls p = [RetryFailedImage]).
Proof.
  unfold at_rest, page_display, page_controls. intros [-> Hshow].
  destruct (truthy (StoryPage.image_url p)); simpl; [by auto|].
  destruct (truthy (StoryPage.error p)); simpl; [by auto|].
  by destruct Hshow.
Qed.

(** X6. The story after a run of the sequencer that nothing interrupts, on
    a story with distinct page ids: the metadata are as before, and each
    page is the page it was with the outcome of its own call on it, the
    image and [is_generating] false after a success, the error "Failed to
    load image" and [is_generating] false after a failure. *)
Theorem X6_run_final_state
    (ai : ImageModel) (story : Story) (comp : VisualComplexity) :
  NoDup (map StoryPage.id (pages story)) →
  ∃ final,
    run_updates (generateImagesSequence ai story comp) (Some story)
    = Some final
    ∧ same_metadata story final
    ∧ length (pages final) = length (pages story)
    ∧ ∀ i p, pages story !! i = Some p →
        ∃ o, settled (generateImagesSequence ai story comp) !! i = Some (p, o)
             ∧ pages final !! i = Some (settle o p).
Proof.
  intros Hnd. unfold generateImagesSequence.
  set (events := sequence_loop ai story comp _ 0 ∅ (pages story)).
  assert (map fst (settled events) = pages story) as Hset
    by apply loop_settled.
  eexists. split; [by apply loop_final_state|].
  split; [apply settle_story_metadata|].
  rewrite settle_story_pages. split; [apply length_map|].
  intros i p Hi. destruct (settled_lookup _ _ i p Hset Hi) as [o Ho].
  exists o. split; [done|].
  change (map ?f ?l) with (f <$> l). rewrite list_lookup_fmap, Hi. simpl.
  f_equal. apply (settle_all_unique _ i p p o); [|done..].
  rewrite <- Hset, map_map in Hnd. exact Hnd.
Qed.

Lemma X6_run_final_state_witness :
  ∃ final,
    run_updates (generateImagesSequence flaky_model shifted_story BALANCED)
      (Some shifted_story) = Some final
    ∧ (StoryPage.error <$> pages final !! 1%nat)
      = Some (Some "Failed to load image")
    ∧ (StoryPage.image_url <$> pages final !! 2%nat)
      = Some (Some "data:image/png;base64,IMG2").
Proof.
  assert (NoDup (map StoryPage.id (pages shifted_story))) as Hnd.
  { apply NoDup_alt. intros [|[|[|i]]] [|[|[|j]]] x; simpl;
      intros [= <-] [=]; reflexivity. }
  destruct (X6_run_final_state flaky_model shifted_story BALANCED Hnd)
    as (final & Hrun & _ & _ & Hpages).
  exists final. split; [exact Hrun|].
  destruct (Hpages 1%nat (fresh_page 6) eq_refl) as (o1 & Ho1 & ->).
  destruct (Hpages 2%nat (fresh_page 7) eq_refl) as (o2 & Ho2 & ->).
  vm_compute in Ho1. injection Ho1 as <-.
  vm_compute in Ho2. injection Ho2 as <-.
  split; reflexivity.
Defined.

(** X7. A run of the sequencer writes to its own story only. When the
    story on display has another uid than the story of the run, or when no
    story is on display, all the updates of the run together leave the
    state as it is. *)
Theorem X7_run_spares_other_stories
    (ai : ImageModel) (story : Story) (comp : VisualComplexity) :
  (∀ other, uid other ≠ uid story →
     run_updates (generateImagesSequence ai story comp) (Some other)
     = Some other)
  ∧ run_updates (generateImagesSequence ai story comp) None = None.
Proof.
  split.
  - intros other Hne. by apply loop_other_story.
  - apply loop_no_story.
Qed.

Lemma X7_run_spares_other_stories_witness :
  run_updates (generateImagesSequence numbered_model shifted_story BALANCED)
    (Some older)
  = Some older.
Proof.
  apply (proj1 (X7_run_spares_other_stories numbered_model shifted_story
                  BALANCED)).
  discriminate.
Defined.

(** ** The generation of a story *)

Lemma settle_all_image (xs : list (Page * Promise string)) (p : Page) :
  StoryPage.image_url (settle_all xs p) = StoryPage.image_url p
  ∨ ∃ q imageUrl,
      (q, Resolved imageUrl) ∈ xs
      ∧ StoryPage.image_url (settle_all xs p) = Some imageUrl.
Proof.
  revert p. induction xs as [|x xs IH]; intros p; [by left|].
  rewrite settle_all_cons.
  destruct (IH (settle_step p x)) as [Hsame|(q & u & Hq & Hu)].
  - rewrite Hsame. unfold settle_step.
    destruct (_ =? _); [|by left].
    destruct x as [q [u|e]]; simpl; [|by left].
    right. exists q, u. split; [apply list_elem_of_here|done].
  - right. exists q, u. split; [by apply list_elem_of_further|done].
Qed.

Lemma run_at_rest (ai : ImageModel) (fullStory : Story)
    (comp : VisualComplexity) :
  ∃ final,
    run_updates (generateImagesSequence ai fullStory comp) (Some fullStory)
    = Some final
    ∧ same_metadata fullStory final
    ∧ length (pages final) = length (pages fullStory)
    ∧ ∀ i p, pages fullStory !! i = Some p →
        ∃ p', pages final !! i = Some p'
              ∧ same_content p p'
              ∧ page_display p' ≠ Painting
              ∧ (page_controls p' = [Redraw]
                 ∨ page_controls p' = [RetryFailedImage])
              ∧ (StoryPage.image_url p' = StoryPage.image_url p
                 ∨ ∃ q imageUrl,
                     (q, Resolved imageUrl)
                       ∈ settled (generateImagesSequence ai fullStory comp)
                     ∧ StoryPage.image_url p' = Some imageUrl).
Proof.
  set (events := generateImagesSequence ai fullStory comp).
  assert (map fst (settled events) = pages fullStory) as Hset
    by apply loop_settled.
  assert (with_pictures (settled events)) as Hpic by apply loop_with_pictures.
  exists (foldl settle_story fullStory (settled events)).
  split; [unfold events, generateImagesSequence; by apply loop_final_state|].
  split.
  { destruct (settle_story_metadata fullStory (settled events))
      as (H1 & H2 & H3 & H4 & H5 & H6). by repeat split. }
  rewrite settle_story_pages. split; [apply length_map|].
  intros i p Hi. exists (settle_all (settled events) p). split.
  { change (map ?f ?l) with (f <$> l). by rewrite list_lookup_fmap, Hi. }
  split.
  { destruct (settle_all_content (settled events) p) as (H1 & H2 & H3).
    by repeat split. }
  assert (at_rest (settle_all (settled events) p)) as Hrest.
  { apply settle_all_at_rest; [done|]. right.
    destruct (settled_lookup _ _ i p Hset Hi) as [o Ho].
    exists (p, o). split; [|done]. by eapply list_elem_of_lookup_2. }
  destruct (at_rest_controls _ Hrest) as [Hshow Hctl].
  split; [done|]. split; [done|]. apply settle_all_image.
Qed.

Lemma page_with_state_reads (pj : Json) (p : Page) :
  page_with_state pj = Some p →
  field "id" (spread pj) = Some (JNumber (StoryPage.id p))
  ∧ field "text" (spread pj) = Some (JString (StoryPage.text p))
  ∧ field "action_description" (spread pj)
    = Some (JString (StoryPage.action_description p))
  ∧ StoryPage.image_url p = None.
Proof.
  unfold page_with_state.
  destruct (field "id" (spread pj)) as [[| | n | | |]|]; try done.
  destruct (field "text" (spread pj)) as [[| | | t | |]|]; try done.
  destruct (field "action_description" (spread pj)) as [[| | | a | |]|];
    try done.
  by intros [= <-].
Qed.

Lemma mapM_page_objects (l : list Page) :
  mapM page_with_state (map page_object l) = Some (map fresh l).
Proof.
  apply mapM_Some_2. induction l as [|p l IH]; simpl; by constructor.
Qed.

Lemma full_story_object (storyboard : Story) (pagesWithState : list Page) :
  full_story (story_object storyboard) pagesWithState
  = Some (with_pages storyboard pagesWithState).
Proof.
  destruct storyboard as [u c t pu [age hair skin clothing expr [acc|]] g ps];
    reflexivity.
Qed.

(** X8. [handleGenerateStory] from end to end, when nothing else writes the
    state. The user is alerted, no story is put on display, no image is
    requested and [loading] ends false when the storyboard call fails, and
    also when it resolves with an object whose [pages] is not an array:
    that is what [generateStoryboard] resolves with after a response
    without text. When [pages] is an array and the story is of the declared
    type, [loading] ends false and the story on display has the metadata
    read from the object and, page for page, the ids, texts and
    descriptions of its pages; once the run is over no page is left
    painting: each one shows a picture with the redraw button or offers to
    retry the failed image; and a picture on display is one that a call of
    the run produced, whatever image the storyboard itself carried. Every
    storyboard of the declared type is handled this way. *)
Theorem X8_handleGenerateStory_end_to_end
    (ai : ImageModel) (selectedComplexity : VisualComplexity)
    (screen : Screen) :
  let caught :=
    [ SetLoading true; SetComplexity selectedComplexity;
      Alert "Something went wrong generating the story structure. Please try again.";
      SetLoading false ] in
  (∀ storyboard,
     (∀ j ps, storyboard = Resolved j →
        field "pages" (spread j) ≠ Some (JArray ps)) →
     handleGenerateStory storyboard ai selectedComplexity = Some caught)
  ∧ perform_all caught screen
    = {| story := story screen; loading := false;
         complexity := selectedComplexity |}
  ∧ (∀ (parser : JsonParser) (textModel : StoryboardPrompt → Promise Response.t)
       (env : Entropy) (text : string) (gender : Gender)
       (response : Response.t),
       textModel (storyboard_prompt text selectedComplexity gender)
       = Resolved response →
       truthy (Response.text response) = None →
       handleGenerateStory
         (generateStoryboard textModel env text selectedComplexity gender)
         ai selectedComplexity
       = Some caught)
  ∧ (∀ j ps effects,
       field "pages" (spread j) = Some (JArray ps) →
       handleGenerateStory (Resolved j) ai selectedComplexity = Some effects →
       ∃ pagesWithState fullStory final,
         mapM page_with_state ps = Some pagesWithState
         ∧ full_story j pagesWithState = Some fullStory
         ∧ effects
           = [ SetLoading true; SetComplexity selectedComplexity;
               SetStory (Some fullStory); SetLoading false;
               Sequence (generateImagesSequence ai fullStory selectedComplexity) ]
         ∧ perform_all effects screen
           = {| story := Some final; loading := false;
                complexity := selectedComplexity |}
         ∧ same_metadata fullStory final
         ∧ length (pages final) = length ps
         ∧ ∀ i pj, ps !! i = Some pj →
             ∃ p', pages final !! i = Some p'
                   ∧ field "id" (spread pj) = Some (JNumber (StoryPage.id p'))
                   ∧ field "text" (spread pj)
                     = Some (JString (StoryPage.text p'))
                   ∧ field "action_description" (spread pj)
                     = Some (JString (StoryPage.action_description p'))
                   ∧ page_display p' ≠ Painting
                   ∧ (page_controls p' = [Redraw]
                      ∨ page_controls p' = [RetryFailedImage])
                   ∧ (StoryPage.image_url p' = None
                      ∨ ∃ q imageUrl,
                          (q, Resolved imageUrl)
                            ∈ settled (generateImagesSequence ai fullStory
                                         selectedComplexity)
                          ∧ StoryPage.image_url p' = Some imageUrl))
  ∧ (∀ storyboard : Story,
       handleGenerateStory (Resolved (story_object storyboard)) ai
         selectedComplexity
       = Some [ SetLoading true; SetComplexity selectedComplexity;
                SetStory
                  (Some (with_pages storyboard (map fresh (pages storyboard))));
                SetLoading false;
                Sequence
                  (generateImagesSequence ai
                     (with_pages storyboard (map fresh (pages storyboard)))
                     selectedComplexity) ]).
Proof.
  intros caught.
  assert (∀ storyboard,
            (∀ j ps, storyboard = Resolved j →
               field "pages" (spread j) ≠ Some (JArray ps)) →
            handleGenerateStory storyboard ai selectedComplexity = Some caught)
    as Hcaught.
  { intros [j|e] Hno; [|done]. unfold handleGenerateStory.
    destruct (field "pages" (spread j)) as [[| | | |ps|]|] eqn:Hpages;
      try done.
    by destruct (Hno j ps eq_refl). }
  split; [exact Hcaught|]. split; [done|]. split; [|split].
  - intros parser textModel env text gender response Hai Htext.
    apply Hcaught. intros j ps. unfold generateStoryboard.
    rewrite Hai, Htext. simpl. rewrite JSON_parse_empty_object.
    by intros [= <-].
  - intros j ps effects Hpages. unfold handleGenerateStory. rewrite Hpages.
    destruct (mapM page_with_state ps) as [pagesWithState|] eqn:Hmap;
      [|done]. simpl.
    destruct (full_story j pagesWithState) as [fullStory|] eqn:Hfull;
      [|done]. simpl.
    intros [= <-].
    destruct (run_at_rest ai fullStory selectedComplexity)
      as (final & Hrun & Hmeta & Hlen & Hrest).
    assert (pages fullStory = pagesWithState) as Hps.
    { unfold full_story in Hfull.
      repeat (match type of Hfull with
              | context [?x ≫= _] => destruct x; simpl in Hfull; [|done]
              end).
      by injection Hfull as <-. }
    exists pagesWithState, fullStory, final.
    split; [done|]. split; [done|]. split; [done|]. split.
    { unfold perform_all. cbn [foldl perform story loading Flow.complexity].
      by rewrite Hrun. }
    split; [done|]. split.
    { rewrite Hlen, Hps. symmetry. by eapply length_mapM. }
    intros i pj Hi. apply mapM_Some_1 in Hmap.
    destruct (Forall2_lookup_l _ _ _ i pj Hmap Hi) as (p & Hp & Hread).
    apply page_with_state_reads in Hread as (Hid & Htext & Hdesc & Himage).
    rewrite <- Hps in Hp.
    destruct (Hrest i p Hp) as (p' & Hp' & (C1 & C2 & C3) & Hshow & Hctl & Hpic).
    exists p'. rewrite C1, C2, C3. repeat (split; [done|]).
    rewrite Himage in Hpic. exact Hpic.
  - intros storyboard. unfold handleGenerateStory.
    assert (field "pages" (spread (story_object storyboard))
            = Some (JArray (map page_object (pages storyboard)))) as ->
      by reflexivity.
    rewrite mapM_page_objects. cbn [mbind option_bind].
    by rewrite full_story_object.
Qed.

Lemma X8_handleGenerateStory_end_to_end_witness :
  handleGenerateStory
    (@generateStoryboard scenario_parser silent_model an_entropy
       "Timmy shares his truck." BALANCED boy)
    flaky_model BALANCED
  = Some [ SetLoading true; SetComplexity BALANCED;
           Alert "Something went wrong generating the story structure. Please try again.";
           SetLoading false ]
  ∧ ∃ effects p',
      handleGenerateStory (Resolved (story_object scrambled_story)) flaky_model
        BALANCED
      = Some effects
      ∧ (story
           (perform_all effects
              {| story := None; loading := false; complexity := RICH |})
         ≫= λ s, pages s !! 1%nat) = Some p'
      ∧ page_controls p' = [RetryFailedImage].
Proof.
  destruct (X8_handleGenerateStory_end_to_end flaky_model BALANCED
              {| story := None; loading := false; complexity := RICH |})
    as (_ & _ & Hsilent & Htyped & Hall).
  split.
  - apply (Hsilent scenario_parser silent_model an_entropy
             "Timmy shares his truck." boy
             {| Response.text := None; Response.candidates := None |});
      reflexivity.
  - pose proof (Hall scrambled_story) as Hrun.
    destruct (Htyped (story_object scrambled_story)
                (map page_object (pages scrambled_story)) _ eq_refl Hrun)
      as (pws & fullStory & final & _ & _ & _ & Hscreen & _ & _ & Hpages).
    destruct (Hpages 1%nat
                (page_object (finished_page 5 "data:image/png;base64,BBBB"))
                eq_refl)
      as (p' & Hp' & _ & _ & _ & _ & _ & _).
    eexists _, p'. split; [exact Hrun|]. rewrite Hscreen. simpl.
    split; [exact Hp'|].
    vm_compute in Hscreen. injection Hscreen as <-.
    vm_compute in Hp'. injection Hp' as <-. reflexivity.
Defined.

(** ** The story after a regeneration *)

Lemma map_page_twice (pageId : Z) (f g : Page → Page) (s : Story) :
  (∀ p, StoryPage.id (f p) = StoryPage.id p) →
  map_page pageId g (map_page pageId f s) = map_page pageId (λ p, g (f p)) s.
Proof.
  intros Hid. unfold map_page, with_pages. simpl. f_equal.
  rewrite map_map. apply map_ext. intros p.
  destruct (Z.eqb_spec (StoryPage.id p) pageId) as [Heq|Hne].
  - by rewrite Hid, (proj2 (Z.eqb_eq _ _) Heq).
  - by rewrite (proj2 (Z.eqb_neq _ _) Hne).
Qed.

(** X9. The regeneration of a page from end to end, on the story on
    display, when nothing else writes the state. The call is made for the
    first page that has the id; afterwards the metadata and the pages with
    other ids are as before, and every page with the id is no longer
    generating: after a success it has the new image and no error, whatever
    error it had before; after a failure it has the image it had and the
    error "Retry failed". *)
Theorem X9_regeneration_end_to_end
    (ai : ImageModel) (story : Story) (complexity : VisualComplexity)
    (pageId : Z) (page : Page) :
  List.find (λ p, StoryPage.id p =? pageId) (pages story) = Some page →
  ∃ refs outcome final,
    handleRegenerateImage ai (Some story) complexity pageId
    = [ Updated (RetryLoading pageId); Requested page refs;
        Settled page outcome;
        Updated match outcome with
                | Resolved imageUrl => RetryImage pageId imageUrl
                | Rejected _ => RetryFailure pageId
                end ]
    ∧ run_updates (handleRegenerateImage ai (Some story) complexity pageId)
        (Some story)
      = Some final
    ∧ same_metadata story final
    ∧ others_unchanged pageId story final
    ∧ targets pageId (retried outcome) story final.
Proof.
  intros Hfind. unfold handleRegenerateImage. rewrite Hfind.
  exists (regenerate_refs story pageId).
  exists (generatePageImage (ai O) (StoryPage.action_description page)
            (styleConfig_of story complexity) (regenerate_refs story pageId)).
  destruct (generatePageImage _ _ _ _) as [imageUrl|e].
  - eexists. split; [reflexivity|]. cbn [run_updates setStory].
    rewrite map_page_twice by done.
    split; [reflexivity|]. split; [apply map_page_metadata|].
    split; [apply map_page_others|].
    apply map_page_targets. intros p. by repeat split.
  - eexists. split; [reflexivity|]. cbn [run_updates setStory].
    rewrite map_page_twice by done.
    split; [reflexivity|]. split; [apply map_page_metadata|].
    split; [apply map_page_others|].
    apply map_page_targets. intros p. by repeat split.
Qed.

Lemma X9_regeneration_end_to_end_witness :
  ∃ final,
    run_updates
      (handleRegenerateImage numbered_model (Some scrambled_story) BALANCED 5)
      (Some scrambled_story)
    = Some final
    ∧ (StoryPage.image_url <$> pages final !! 1%nat)
      = Some (Some "data:image/png;base64,IMG0").
Proof.
  destruct (X9_regeneration_end_to_end numbered_model scrambled_story
              BALANCED 5 (finished_page 5 "data:image/png;base64,BBBB")
              eq_refl)
    as (refs & outcome & final & Hevents & Hrun & _ & _ & Htargets).
  exists final. split; [exact Hrun|].
  vm_compute in Hevents. injection Hevents as _ <-.
  destruct (Htargets 1%nat (finished_page 5 "data:image/png;base64,BBBB")
              eq_refl eq_refl) as (p' & -> & _ & _ & Himage & _).
  simpl. by rewrite Himage.
Defined.

(** ** Images that come back as references *)

Lemma split_base64_no_semicolon (r : string) :
  has_semicolon r = false → split_base64 r = None.
Proof.
  induction r as [|c r IH]; [done|]. cbn [has_semicolon split_base64].
  intros Hno. apply orb_false_elim in Hno as [Hc Hr]. rewrite IH by done.
  cbn [strip_prefix]. rewrite Ascii.eqb_sym in Hc. by rewrite Hc.
Qed.

Lemma split_base64_exact (m d : string) :
  d ≠ "" → has_semicolon d = false →
  split_base64 (m +:+ ";base64," +:+ d) = Some (m, d).
Proof.
  intros Hd Hno. induction m as [|c m IH].
  - change ("" +:+ ";base64," +:+ d) with (String ";" ("base64," +:+ d)).
    cbn [split_base64].
    rewrite split_base64_no_semicolon by (by simpl).
    assert (strip_prefix ";base64," (String ";" ("base64," +:+ d)) = Some d)
      as -> by (by apply strip_prefix_spec).
    by destruct d.
  - change (String c m +:+ ";base64," +:+ d)
      with (String c (m +:+ ";base64," +:+ d)).
    cbn [split_base64]. by rewrite IH.
Qed.

Lemma match_data_url_exact (m d : string) :
  m ≠ "" → d ≠ "" →
  has_line_terminator m = false → has_line_terminator d = false →
  has_semicolon d = false →
  match_data_url (data_url m d) = Some (m, d).
Proof.
  intros Hm Hd Htm Htd Hno. unfold match_data_url, data_url.
  assert (strip_prefix "data:" ("data:" +:+ m +:+ ";base64," +:+ d)
          = Some (m +:+ ";base64," +:+ d)) as ->
    by (by apply strip_prefix_spec).
  rewrite !has_line_terminator_app, Htm, Htd. simpl.
  rewrite split_base64_exact by done. by destruct m.
Qed.

Lemma generatePageImage_read
    (ai : list RequestPart → Promise Response.t) (pageDesc : string)
    (styleConfig : StyleConfig) (refs : list string) :
  generatePageImage ai pageDesc styleConfig refs
  = read_image (ai (image_request pageDesc styleConfig refs)).
Proof.
  unfold generatePageImage, read_image, image_request.
  rewrite reference_parts_omap.
  replace (bool_decide (0 < length refs)%nat) with (bool_decide (refs ≠ []))
    by (destruct refs; apply bool_decide_ext; simpl; split;
        (done || lia || (intros; lia))).
  destruct (ai _) as [response|e]; [|done].
  rewrite first_image_inline.
  by destruct (head (inline_images response)) as [[mime data]|].
Qed.

Lemma inline_images_data (response : Response.t) (m d : string) :
  head (inline_images response) = Some (m, d) → d ≠ "".
Proof.
  unfold inline_images.
  induction (response_parts response) as [|part rest IH]; [done|]. simpl.
  destruct (Part.inlineData part) as [blob|]; simpl; [|done].
  destruct (Blob.data blob) as [[|c data]|]; simpl; try done.
  by intros [= <- <-].
Qed.

(** X10. An image that [generatePageImage] returns comes back intact when
    it is passed as a reference. When the first inline image of the
    response has a mime type that is not empty, no line break in the mime
    type or in the data, and no semicolon in the data (base64 text has
    none), the function resolves with [data:<mime>;base64,<data>], the
    pattern splits this url into the very mime type and the very data of
    the response, and as a reference the url is sent to the model as the
    inline part that carries them. *)
Theorem X10_image_round_trip
    (ai : list RequestPart → Promise Response.t) (pageDesc : string)
    (styleConfig : StyleConfig) (refs : list string)
    (response : Response.t) (mime data : string) :
  ai (image_request pageDesc styleConfig refs) = Resolved response →
  head (inline_images response) = Some (mime, data) →
  mime ≠ "" →
  has_line_terminator mime = false → has_line_terminator data = false →
  has_semicolon data = false →
  generatePageImage ai pageDesc styleConfig refs
  = Resolved (data_url mime data)
  ∧ match_data_url (data_url mime data) = Some (mime, data)
  ∧ reference_parts [data_url mime data] = [InlineData mime data].
Proof.
  intros Hai Hhead Hm Htm Htd Hno.
  rewrite generatePageImage_read, Hai. unfold read_image. rewrite Hhead.
  pose proof (inline_images_data _ _ _ Hhead) as Hd.
  pose proof (match_data_url_exact mime data Hm Hd Htm Htd Hno) as Hmatch.
  split; [done|]. split; [done|]. simpl. by rewrite Hmatch.
Qed.

Lemma X10_image_round_trip_witness :
  generatePageImage (numbered_model 0) "Wide shot"
    (styleConfig_of shifted_story BALANCED) []
  = Resolved (data_url "image/png" "IMG0")
  ∧ match_data_url (data_url "image/png" "IMG0") = Some ("image/png", "IMG0")
  ∧ reference_parts [data_url "image/png" "IMG0"]
    = [InlineData "image/png" "IMG0"].
Proof.
  apply (X10_image_round_trip (numbered_model 0) "Wide shot"
           (styleConfig_of shifted_story BALANCED) []
           (image_response "image/png" "IMG0") "image/png" "IMG0");
    (reflexivity || discriminate).
Defined.

Lemma split_base64_tail (c : ascii) (r : string) :
  split_base64 (String c r) = None → split_base64 r = None.
Proof.
  cbn [split_base64]. by destruct (split_base64 r) as [[m d]|].
Qed.

Lemma split_base64_suffix (m r : string) :
  split_base64 (m +:+ r) = None → split_base64 r = None.
Proof.
  induction m as [|c m IH]; [done|]. intros Hnone.
  apply IH. by eapply split_base64_tail.
Qed.

Lemma split_base64_rightmost (r m d : string) :
  split_base64 r = Some (m, d) → split_base64 d = None.
Proof.
  revert m. induction r as [|c r IH]; intros m; [done|].
  cbn [split_base64].
  destruct (split_base64 r) as [[m' d']|] eqn:Hr.
  - intros [= <- <-]. by eapply IH.
  - destruct (strip_prefix ";base64," (String c r)) as [[|c' d0]|] eqn:Hs;
      [done| |done].
    intros [= <- <-]. apply strip_prefix_spec in Hs. injection Hs as -> ->.
    by apply (split_base64_suffix "base64,").
Qed.

(** X11. The first group of the pattern is greedy: when a reference url
    matches, the data group holds no further [;base64,] that is followed by
    anything, so the mime group is the longest one that leaves data. *)
Theorem X11_mime_group_is_longest (url mime data : string) :
  match_data_url url = Some (mime, data) →
  ∀ before after,
    after ≠ "" → data ≠ before +:+ ";base64," +:+ after.
Proof.
  unfold match_data_url.
  destruct (strip_prefix "data:" url) as [r|]; [|done].
  destruct (has_line_terminator r); [done|].
  destruct (split_base64 r) as [[[|c m] d]|] eqn:Hs; [done| |done].
  intros [= <- <-] before after Hafter ->.
  apply split_base64_rightmost in Hs.
  destruct (split_base64_complete before after Hafter) as (m' & d' & Hsome & _).
  congruence.
Qed.

Lemma X11_mime_group_is_longest_witness :
  match_data_url "data:a;base64,b;base64,c" = Some ("a;base64,b", "c")
  ∧ "c" ≠ "" +:+ ";base64," +:+ "c".
Proof.
  assert (match_data_url "data:a;base64,b;base64,c"
          = Some ("a;base64,b", "c")) as Hm by reflexivity.
  split; [exact Hm|].
  apply (X11_mime_group_is_longest _ _ _ Hm). discriminate.
Defined.

Lemma omap_length_le {A B : Type} (f : A → option B) (l : list A) :
  (length (omap f l) ≤ length l)%nat.
Proof.
  induction l as [|x l IH]; [done|]. csimpl. destruct (f x); simpl; lia.
Qed.

(** X12. The prompt speaks of reference images as soon as the reference
    list is not empty, whether or not any of them is sent. With a list that
    is not empty and holds no data url, the model receives the text part
    alone, and the prompt in it has the reference handling rules; with an
    empty list it receives the text part alone without these rules. In
    every case the request has one text part, which is its last part, after
    at most one inline part for each reference. *)
Theorem X12_references_announced_not_sent
    (ai : list RequestPart → Promise Response.t) (pageDesc : string)
    (styleConfig : StyleConfig) (refs : list string) :
  generatePageImage ai pageDesc styleConfig refs
  = read_image (ai (image_request pageDesc styleConfig refs))
  ∧ (∃ inline prompt,
       image_request pageDesc styleConfig refs = inline ++ [Text prompt]
       ∧ (∀ part, part ∈ inline → ∃ mime data, part = InlineData mime data)
       ∧ (length inline ≤ length refs)%nat
       ∧ (prompt_reference_handling prompt = true ↔ refs ≠ []))
  ∧ (refs ≠ [] → (∀ url, url ∈ refs → ¬ matches_pattern url) →
     ∃ prompt,
       image_request pageDesc styleConfig refs = [Text prompt]
       ∧ prompt_reference_handling prompt = true).
Proof.
  assert (∀ url, reference_part url = None ↔ ¬ matches_pattern url) as Hdrop.
  { intros url. rewrite matches_pattern_match. unfold reference_part.
    destruct (match_data_url url) as [groups|]; simpl; split.
    - done.
    - intros Hno. destruct Hno. by exists groups.
    - by intros _ [groups [=]].
    - done. }
  split; [apply generatePageImage_read|]. split.
  - eexists _, _. split; [reflexivity|]. split; [|split].
    + intros part Hin. apply list_elem_of_omap in Hin as (url & _ & Hpart).
      unfold reference_part in Hpart.
      destruct (match_data_url url) as [[m d]|]; [|done].
      injection Hpart as <-. by eexists _, _.
    + apply omap_length_le.
    + simpl. apply bool_decide_eq_true.
  - intros Hne Hnone. eexists. unfold image_request.
    replace (omap reference_part refs) with (@nil RequestPart).
    { split; [done|]. simpl. by apply bool_decide_eq_true. }
    symmetry. clear Hne. induction refs as [|url refs IH]; [done|]. simpl.
    rewrite (proj2 (Hdrop url)) by (apply Hnone, list_elem_of_here).
    apply IH. intros u Hu. apply Hnone. by apply list_elem_of_further.
Qed.

Lemma X12_references_announced_not_sent_witness :
  ∃ prompt,
    image_request "Wide shot" (styleConfig_of shifted_story BALANCED)
      ["https://example.org/a.png"]
    = [Text prompt]
    ∧ prompt_reference_handling prompt = true.
Proof.
  destruct (X12_references_announced_not_sent (numbered_model 0) "Wide shot"
              (styleConfig_of shifted_story BALANCED)
              ["https://example.org/a.png"]) as (_ & _ & Hsilent).
  apply Hsilent; [discriminate|].
  intros url Hurl. apply elem_of_cons in Hurl as [->|Hurl].
  - rewrite matches_pattern_match. vm_compute. intros [x [=]].
  - by apply not_elem_of_nil in Hurl.
Defined.

Lemma tidy_image (ai : ImageModel) (n : nat) (pageDesc : string)
    (styleConfig : StyleConfig) (refs : list string) (url : string) :
  tidy ai →
  generatePageImage (ai n) pageDesc styleConfig refs = Resolved url →
  matches_pattern url.
Proof.
  intros Htidy. rewrite generatePageImage_read. unfold read_image.
  destruct (ai n _) as [response|e] eqn:Hai; [|done].
  destruct (head (inline_images response)) as [[mime data]|] eqn:Hhead; [|done].
  intros [= <-].
  destruct (Htidy _ _ _ _ _ Hai Hhead) as (Hm & Htm & Htd).
  exists mime, data. repeat split; try done.
  by eapply inline_images_data.
Qed.

Lemma sequence_refs_elem (firstPageId : option Z) (M : gmap Z string)
    (page : Page) (url : string) :
  url ∈ sequence_refs firstPageId M page → ∃ key, M !! key = Some url.
Proof.
  rewrite sequence_refs_sources. intros Hin.
  apply list_elem_of_omap in Hin as (key & _ & Hkey). by exists key.
Qed.

Lemma loop_tidy (ai : ImageModel) (initialStory : Story)
    (comp : VisualComplexity) (firstPageId : option Z) (todo : list Page)
    (n : nat) (M : gmap Z string) (page : Page) (refs : list string) :
  tidy ai →
  (∀ key url, M !! key = Some url → matches_pattern url) →
  Requested page refs ∈ sequence_loop ai initialStory comp firstPageId n M todo →
  ∀ url, url ∈ refs → matches_pattern url.
Proof.
  intros Htidy. revert n M.
  induction todo as [|p rest IH]; intros n M HM Hin; cbn [sequence_loop] in Hin.
  - by apply not_elem_of_nil in Hin.
  - apply elem_of_cons in Hin as [[= -> ->]|Hin].
    { intros url Hurl. apply sequence_refs_elem in Hurl as [key Hkey].
      by eapply HM. }
    apply elem_of_cons in Hin as [[=]|Hin].
    destruct (generatePageImage _ _ _ _) as [imageUrl|e] eqn:Hgen;
      apply elem_of_cons in Hin as [[=]|Hin].
    + eapply IH; [|exact Hin]. intros key url.
      destruct (decide (key = StoryPage.id p)) as [->|Hne].
      * rewrite lookup_insert_eq. intros [= <-]. by eapply tidy_image.
      * rewrite lookup_insert_ne by done. apply HM.
    + by eapply IH.
Qed.

Lemma omap_all_some {A B : Type} (f : A → option B) (l : list A) :
  (∀ x, x ∈ l → is_Some (f x)) → length (omap f l) = length l.
Proof.
  induction l as [|x l IH]; [done|]. intros Hall. csimpl.
  destruct (Hall x) as [y ->]; [apply list_elem_of_here|]. simpl.
  f_equal. apply IH. intros z Hz. apply Hall. by apply list_elem_of_further.
Qed.

(** X13. With a model whose images have a mime type and no line break,
    the sequencer never hands [generatePageImage] a reference that it
    drops: every reference of every request of a run is a data url that
    the pattern matches, so the model receives one inline part for each
    reference, and the text part. *)
Theorem X13_sequencer_references_all_sent (ai : ImageModel) (story : Story)
    (comp : VisualComplexity) (page : Page) (refs : list string) :
  tidy ai →
  Requested page refs ∈ generateImagesSequence ai story comp →
  (∀ url, url ∈ refs → matches_pattern url)
  ∧ length (reference_parts refs) = length refs
  ∧ length (image_request (StoryPage.action_description page)
              (styleConfig_of story comp) refs)
    = S (length refs).
Proof.
  intros Htidy Hin.
  assert (∀ url, url ∈ refs → matches_pattern url) as Hall.
  { eapply loop_tidy; [exact Htidy| |exact Hin]. intros key url.
    by rewrite lookup_empty. }
  assert (length (omap reference_part refs) = length refs) as Hlen.
  { apply omap_all_some. intros url Hurl. unfold reference_part.
    apply fmap_is_Some, matches_pattern_match. by apply Hall. }
  split; [exact Hall|]. split.
  - by rewrite reference_parts_omap.
  - unfold image_request. rewrite length_app, Hlen. simpl. lia.
Qed.

Lemma X13_sequencer_references_all_sent_witness :
  tidy constant_model
  ∧ length (reference_parts ["data:image/png;base64,AAAA"]) = 1%nat.
Proof.
  assert (tidy constant_model) as Htidy.
  { intros n parts response mime data [= <-] [= <- <-]. by repeat split. }
  split; [exact Htidy|].
  apply (X13_sequencer_references_all_sent constant_model newer BALANCED
           (fresh_page 2) ["data:image/png;base64,AAAA"] Htidy).
  vm_compute. apply list_elem_of_further, list_elem_of_further,
    list_elem_of_further, list_elem_of_here.
Defined.

Lemma trimStart_empty (s : string) :
  trimStart s = "" ↔ ∀ c, c ∈ list_ascii_of_string s → is_space c = true.
Proof.
  induction s as [|c s IH]; simpl.
  - split; [|done]. intros _ c Hc. by apply not_elem_of_nil in Hc.
  - destruct (is_space c) eqn:Hc.
    + rewrite IH. split.
      * intros Hall c' Hc'. apply elem_of_cons in Hc' as [->|Hc']; [done|].
        by apply Hall.
      * intros Hall c' Hc'. by apply Hall, list_elem_of_further.
    + split; [done|]. intros Hall.
      rewrite (Hall c) in Hc by apply list_elem_of_here. done.
Qed.

Lemma trimEnd_empty (s : string) :
  trimEnd s = "" ↔ ∀ c, c ∈ list_ascii_of_string s → is_space c = true.
Proof.
  induction s as [|c s IH]; simpl.
  - split; [|done]. intros _ c Hc. by apply not_elem_of_nil in Hc.
  - destruct (trimEnd s) as [|c0 rest] eqn:Hs.
    + destruct (is_space c) eqn:Hc.
      * split; [|done]. intros _ c' Hc'.
        apply elem_of_cons in Hc' as [->|Hc']; [done|].
        by apply (proj1 IH).
      * split; [done|]. intros Hall.
        rewrite (Hall c) in Hc by apply list_elem_of_here. done.
    + split; [done|]. intros Hall.
      assert (String c0 rest = "") as Habs; [|done].
      apply IH. intros c' Hc'. by apply Hall, list_elem_of_further.
Qed.

Lemma trimStart_spaces (s : string) :
  (∀ c, c ∈ list_ascii_of_string (trimStart s) → is_space c = true) →
  ∀ c, c ∈ list_ascii_of_string s → is_space c = true.
Proof.
  induction s as [|c s IH]; simpl; [done|].
  destruct (is_space c) eqn:Hc.
  - intros Hall c' Hc'. apply elem_of_cons in Hc' as [->|Hc']; [done|].
    by apply IH.
  - done.
Qed.

Lemma some_not_space (l : list ascii) :
  ¬ (∀ c, c ∈ l → is_space c = true) → ∃ c, c ∈ l ∧ is_space c = false.
Proof.
  induction l as [|c l IH]; intros Hnot.
  - destruct Hnot. intros c Hc. by apply not_elem_of_nil in Hc.
  - destruct (is_space c) eqn:Hc.
    + destruct IH as (c' & Hin & Hc').
      * intros Hall. apply Hnot. intros c' Hin.
        apply elem_of_cons in Hin as [->|Hin]; [done|]. by apply Hall.
      * exists c'. split; [by apply list_elem_of_further|done].
    + exists c. split; [apply list_elem_of_here|done].
Qed.

Lemma trim_empty (s : string) :
  trim s = "" ↔ ∀ c, c ∈ list_ascii_of_string s → is_space c = true.
Proof.
  unfold trim. rewrite trimEnd_empty. split.
  - apply trimStart_spaces.
  - intros Hall. apply trimStart_empty in Hall. rewrite Hall.
    intros c Hc. by apply not_elem_of_nil in Hc.
Qed.

(** X14. [handleSubmit] calls [onGenerate] exactly when the text of the
    mode (the text typed in custom mode, the text of the selected template
    otherwise) has a character that is not white space, and then with this
    text as it is, not trimmed, and the complexity and gender chosen. The
    submit button agrees with it in custom mode: when nothing is loading it
    is enabled exactly when a click leads to a call. In template mode it is
    enabled whenever nothing is loading, also for a template whose text is
    blank, where a click does nothing. While a story is loading the button
    is disabled. *)
Theorem X14_handleSubmit_calls_on_text (mode : StoryMode) (customText : string)
    (selectedTemplate : Template) (complexity : VisualComplexity)
    (gender : Gender) :
  let text := match mode with
              | CUSTOM => customText
              | TEMPLATE => template_text selectedTemplate
              end in
  let call := handleSubmit mode customText selectedTemplate complexity gender in
  (is_Some call ↔ ∃ c, c ∈ list_ascii_of_string text ∧ is_space c = false)
  ∧ (∀ made, call = Some made → made = (text, complexity, gender))
  ∧ (mode = CUSTOM → (submit_disabled false mode customText = false ↔ is_Some call))
  ∧ (mode = TEMPLATE → submit_disabled false mode customText = false)
  ∧ submit_disabled true mode customText = true.
Proof.
  intros text call.
  assert (String.eqb (trim text) "" = false
          ↔ ∃ c, c ∈ list_ascii_of_string text ∧ is_space c = false) as Hblank.
  { rewrite String.eqb_neq, trim_empty. split.
    - apply some_not_space.
    - intros (c & Hin & Hc) Hall. by rewrite (Hall c Hin) in Hc. }
  assert (is_Some call ↔ String.eqb (trim text) "" = false) as Hcall.
  { subst call. unfold handleSubmit. fold text.
    destruct (String.eqb (trim text) ""); split;
      try done; try (by intros [x [=]]); by eexists. }
  split; [by rewrite Hcall|]. split.
  { subst call. unfold handleSubmit. fold text. intros made.
    destruct (String.eqb (trim text) ""); [done|]. by intros [= <-]. }
  split; [|split].
  - intros ->. rewrite Hcall. by subst text.
  - by intros ->.
  - done.
Qed.

Lemma X14_handleSubmit_calls_on_text_witness :
  is_Some (handleSubmit CUSTOM "  Max shares his truck. "
             {| template_id := "sharing"; template_title := "Learning to Share";
                template_text := "Max has a truck."; template_purpose := "Social" |}
             MINIMAL boy).
Proof.
  apply (proj1 (X14_handleSubmit_calls_on_text CUSTOM "  Max shares his truck. "
           {| template_id := "sharing"; template_title := "Learning to Share";
              template_text := "Max has a truck."; template_purpose := "Social" |}
           MINIMAL boy)).
  exists "M"%char. split; [|reflexivity]. cbn [list_ascii_of_string].
  apply list_elem_of_further, list_elem_of_further, list_elem_of_here.
Defined.

Lemma generatePageImage_complexity
    (ai : list RequestPart → Promise Response.t) (pageDesc : string)
    (story : Story) (c1 c2 : VisualComplexity) (refs : list string) :
  generatePageImage ai pageDesc (styleConfig_of story c1) refs
  = generatePageImage ai pageDesc (styleConfig_of story c2) refs.
Proof. reflexivity. Qed.

Lemma loop_complexity (ai : ImageModel) (initialStory : Story)
    (c1 c2 : VisualComplexity) (firstPageId : option Z) (todo : list Page)
    (n : nat) (M : gmap Z string) :
  sequence_loop ai initialStory c1 firstPageId n M todo
  = sequence_loop ai initialStory c2 firstPageId n M todo.
Proof.
  revert n M. induction todo as [|page rest IH]; intros n M; [done|].
  cbn [sequence_loop].
  rewrite (generatePageImage_complexity _ _ _ c1 c2).
  destruct (generatePageImage _ _ _ _); by rewrite IH.
Qed.

(** X15. The visual complexity that the user selects has no part in the
    illustrations: [generatePageImage] never reads the complexity of its
    style configuration, so a run of the sequencer and a regeneration make
    the same requests and the same updates for every complexity. What the
    prompt of a request takes from the story is the style guide, or the
    character blueprint when the style guide is the empty string; the
    scene is the description passed. *)
Theorem X15_complexity_not_in_image_requests (ai : ImageModel) (story : Story)
    (c1 c2 : VisualComplexity) :
  generateImagesSequence ai story c1 = generateImagesSequence ai story c2
  ∧ (∀ pageId,
       handleRegenerateImage ai (Some story) c1 pageId
       = handleRegenerateImage ai (Some story) c2 pageId)
  ∧ (∀ pageDesc refs,
       image_request pageDesc (styleConfig_of story c1) refs
       = image_request pageDesc (styleConfig_of story c2) refs
       ∧ ∃ prompt,
           last (image_request pageDesc (styleConfig_of story c1) refs)
           = Some (Text prompt)
           ∧ prompt_scene prompt = pageDesc
           ∧ prompt_base prompt
             = if String.eqb (visual_style_guide story) ""
               then Character (character_blueprint story)
               else VisualStyle (visual_style_guide story)).
Proof.
  split; [apply loop_complexity|]. split.
  - intros pageId. cbn [handleRegenerateImage].
    destruct (List.find _ _) as [page|]; [|done].
    by rewrite (generatePageImage_complexity _ _ _ c1 c2).
  - intros pageDesc refs. split; [done|].
    eexists. split; [apply last_snoc|]. split; [done|].
    cbn [prompt_base]. unfold baseDescription, styleConfig_of.
    cbn [globalPrompt blueprint truthy].
    by destruct (visual_style_guide story) as [|c g].
Qed.

Lemma removelast_take {A : Type} (l : list A) :
  removelast l = take (length l - 1) l.
Proof.
  induction l as [|x [|y l] IH]; [done..|].
  change (removelast (x :: y :: l)) with (x :: removelast (y :: l)).
  rewrite IH. simpl. by rewrite Nat.sub_0_r.
Qed.

Lemma take_removelast {A : Type} (l : list A) (k : nat) :
  (k < length l)%nat → take k (removelast l) = take k l.
Proof.
  intros Hk. rewrite removelast_take, take_take. f_equal. lia.
Qed.

Lemma persist_history_not_nil (story : Story) (prev : list Story) :
  persist_history story prev ≠ [].
Proof.
  unfold persist_history. destruct prev as [|h prev]; [done|].
  by destruct (existsb _ _).
Qed.

Lemma trySave_from_S (fuel : nat) (setItem : Legacy.LocalStorage)
    (data : list Story) :
  Legacy.trySave_from (S fuel) setItem data
  = match setItem data with
    | None => [Legacy.SetItem data]
    | Some e =>
        if Legacy.quota_exceeded e then
          if bool_decide (1 < length data)%nat then
            Legacy.Console "Storage quota exceeded, removing oldest story"
            :: Legacy.trySave_from fuel setItem (removelast data)
            ++ [Legacy.SetHistory (removelast data)]
          else [Legacy.Console "Cannot save even one story, storage is full"]
        else []
    end.
Proof. reflexivity. Qed.

Lemma legacy_history_after (fuel : nat) (setItem : Legacy.LocalStorage)
    (data history : list Story) :
  Legacy.history_after (Legacy.trySave_from (S fuel) setItem data) history
  = match setItem data with
    | Some e =>
        if Legacy.quota_exceeded e && bool_decide (1 < length data)%nat
        then removelast data else history
    | None => history
    end.
Proof.
  rewrite trySave_from_S.
  destruct (setItem data) as [e|]; [|done].
  destruct (Legacy.quota_exceeded e); [|done].
  destruct (bool_decide _); [|done].
  unfold Legacy.history_after. cbn [foldl andb]. by rewrite foldl_app.
Qed.

Lemma legacy_saved (setItem : Legacy.LocalStorage) (fuel : nat)
    (data d : list Story) :
  (length data ≤ fuel)%nat →
  Legacy.SetItem d ∈ Legacy.trySave_from (S fuel) setItem data
  ↔ ∃ k, d = take k data
         ∧ (k ≤ length data)%nat ∧ (data ≠ [] → 1 ≤ k)%nat
         ∧ setItem d = None
         ∧ ∀ j, (k < j ≤ length data)%nat →
             ∃ e, setItem (take j data) = Some e
                  ∧ Legacy.quota_exceeded e = true.
Proof.
  revert data. induction fuel as [|fuel IH]; intros data Hfuel.
  - destruct data as [|x data]; [|simpl in Hfuel; lia].
    cbn [Legacy.trySave_from]. destruct (setItem []) as [e|] eqn:Hset.
    + split.
      * destruct (Legacy.quota_exceeded e); cbn.
        -- intros Hin. apply elem_of_cons in Hin as [[=]|Hin].
           by apply not_elem_of_nil in Hin.
        -- intros Hin. by apply not_elem_of_nil in Hin.
      * intros (k & -> & _ & _ & Hnone & _). rewrite take_nil in Hnone.
        congruence.
    + split.
      * intros Hin. apply elem_of_cons in Hin as [[= ->]|Hin];
          [|by apply not_elem_of_nil in Hin].
        exists 0%nat. repeat split; try done. simpl. lia.
      * intros (k & -> & _). rewrite take_nil. apply list_elem_of_here.
  - rewrite trySave_from_S.
    destruct (setItem data) as [e|] eqn:Hset.
    + destruct (Legacy.quota_exceeded e) eqn:Hq.
      * destruct (bool_decide (1 < length data)%nat) eqn:Hlen.
        -- apply bool_decide_eq_true in Hlen.
           assert (length (removelast data) = (length data - 1)%nat) as Hrl
             by (rewrite removelast_take, length_take; lia).
           assert (removelast data ≠ []) as Hne
             by (intros Hnil; rewrite Hnil in Hrl; simpl in Hrl; lia).
           rewrite elem_of_cons, elem_of_app, list_elem_of_singleton.
           rewrite IH by lia. split.
           ++ intros [[=]|[(k & -> & Hk & Hpos & Hnone & Hfail)|[=]]].
              rewrite Hrl in Hk.
              assert (take k (removelast data) = take k data) as Htake
                by (apply take_removelast; lia).
              exists k. rewrite <- Htake. repeat split; try done; try lia.
              { intros _. by apply Hpos. }
              intros j Hj.
              destruct (decide (j = length data)) as [->|Hjn].
              ** rewrite firstn_all. by exists e.
              ** destruct (Hfail j) as (e' & He' & Hq'); [rewrite Hrl; lia|].
                 exists e'. split; [|done]. rewrite <- He'.
                 by rewrite take_removelast by lia.
           ++ intros (k & -> & Hk & Hpos & Hnone & Hfail).
              right. left.
              assert (k ≠ length data) as Hkn.
              { intros ->. rewrite firstn_all in Hnone. congruence. }
              assert (take k (removelast data) = take k data) as Htake
                by (apply take_removelast; lia).
              exists k. rewrite Htake, Hrl. repeat split; try done; try lia.
              { intros _. apply Hpos. intros ->. simpl in Hlen. lia. }
              intros j Hj. destruct (Hfail j) as (e' & He' & Hq'); [lia|].
              exists e'. split; [|done]. rewrite <- He'.
              by rewrite take_removelast by lia.
        -- apply bool_decide_eq_false in Hlen. split.
           ++ intros Hin. apply elem_of_cons in Hin as [[=]|Hin].
              by apply not_elem_of_nil in Hin.
           ++ intros (k & -> & Hk & Hpos & Hnone & Hfail).
              destruct data as [|x data].
              { rewrite take_nil in Hnone. congruence. }
              assert (k = length (x :: data)) as ->
                by (specialize (Hpos ltac:(done)); lia).
              rewrite firstn_all in Hnone. congruence.
      * split; [intros Hin; by apply not_elem_of_nil in Hin|].
        intros (k & -> & Hk & Hpos & Hnone & Hfail).
        destruct (decide (k = length data)) as [->|Hkn].
        -- rewrite firstn_all in Hnone. congruence.
        -- destruct (Hfail (length data)) as (e' & He' & Hq'); [lia|].
           rewrite firstn_all in He'. congruence.
    + rewrite list_elem_of_singleton. split.
      * intros [= ->]. exists (length data).
        rewrite firstn_all. repeat split; try done; try lia.
        intros Hne. destruct data; [done|simpl; lia].
      * intros (k & -> & Hk & Hpos & Hnone & Hfail).
        destruct (decide (k = length data)) as [->|Hkn].
        -- by rewrite firstn_all.
        -- destruct (Hfail (length data)) as (e' & He' & Hq'); [lia|].
           rewrite firstn_all in He'. congruence.
Qed.

Lemma legacy_fuel (setItem : Legacy.LocalStorage) (fuel fuel' : nat)
    (data : list Story) :
  (length data ≤ fuel)%nat → (length data ≤ fuel')%nat →
  Legacy.trySave_from (S fuel) setItem data
  = Legacy.trySave_from (S fuel') setItem data.
Proof.
  revert fuel' data. induction fuel as [|fuel IH]; intros fuel' data Hf Hf'.
  - destruct data as [|x data]; [|simpl in Hf; lia].
    cbn [Legacy.trySave_from]. destruct (setItem []) as [e|]; [|done].
    destruct (Legacy.quota_exceeded e); [|done]. done.
  - rewrite (trySave_from_S (S fuel)), (trySave_from_S fuel').
    destruct (setItem data) as [e|]; [|done].
    destruct (Legacy.quota_exceeded e); [|done].
    destruct (bool_decide (1 < length data)%nat) eqn:Hlen; [|done].
    apply bool_decide_eq_true in Hlen.
    assert (length (removelast data) = (length data - 1)%nat) as Hrl
      by (rewrite removelast_take, length_take; lia).
    destruct fuel' as [|fuel']; [lia|].
    f_equal. f_equal. apply IH; lia.
Qed.

Lemma legacy_stored_cases (effects : list Legacy.Effect)
    (stored : option (list Story)) :
  ((∀ d, Legacy.SetItem d ∉ effects)
   ∧ Legacy.stored_after effects stored = stored)
  ∨ ∃ d, Legacy.SetItem d ∈ effects
         ∧ Legacy.stored_after effects stored = Some d.
Proof.
  revert stored. induction effects as [|e effects IH]; intros stored.
  - left. split; [|done]. intros d. apply not_elem_of_nil.
  - destruct e as [value|data|message].
    + destruct (IH stored) as [[Hno Heq]|(d & Hin & Heq)].
      * left. split; [|done]. intros d Hin.
        apply elem_of_cons in Hin as [[=]|Hin]. by eapply Hno.
      * right. exists d. split; [by apply list_elem_of_further|done].
    + destruct (IH (Some data)) as [[Hno Heq]|(d & Hin & Heq)].
      * right. exists data. split; [apply list_elem_of_here|done].
      * right. exists d. split; [by apply list_elem_of_further|done].
    + destruct (IH stored) as [[Hno Heq]|(d & Hin & Heq)].
      * left. split; [|done]. intros d Hin.
        apply elem_of_cons in Hin as [[=]|Hin]. by eapply Hno.
      * right. exists d. split; [by apply list_elem_of_further|done].
Qed.

(** X16. The storage handler of the earlier App, [saveToHistory] with its
    [trySave]. The recursion of [trySave] ends. What it writes to the
    storage is the longest prefix of the updated history that the storage
    takes, when every longer prefix was refused for quota: it gives up the
    entries at the end, one at a time, and keeps at least the first. The
    history state is not brought to what was written: the calls of
    [setHistory] return in the reverse order of the attempts, so the state
    ends as the updated history without its last entry whenever the first
    attempt was refused for quota and there is more than one entry, whatever
    was written in the end. When two or more entries had to go, the history
    on display is longer than the history in the storage. *)
Theorem X16_legacy_history_after_quota (setItem : Legacy.LocalStorage)
    (newStory : Story) (currentHistory history : list Story)
    (stored : option (list Story)) :
  let updated := persist_history newStory currentHistory in
  let effects := Legacy.saveToHistory setItem newStory currentHistory in
  (∀ fuel, (length updated < fuel)%nat →
     Legacy.trySave_from fuel setItem updated = Legacy.trySave setItem updated)
  ∧ (∀ d, Legacy.SetItem d ∈ effects
          ↔ ∃ k, d = take k updated ∧ (1 ≤ k ≤ length updated)%nat
                 ∧ setItem d = None
                 ∧ ∀ j, (k < j ≤ length updated)%nat →
                     ∃ e, setItem (take j updated) = Some e
                          ∧ Legacy.quota_exceeded e = true)
  ∧ Legacy.history_after effects history
    = match setItem updated with
      | Some e =>
          if Legacy.quota_exceeded e && bool_decide (1 < length updated)%nat
          then removelast updated else updated
      | None => updated
      end
  ∧ (∀ d, Legacy.SetItem d ∈ effects →
       Legacy.stored_after effects stored = Some d
       ∧ ((length d + 2 ≤ length updated)%nat →
          length (Legacy.history_after effects history)
          = (length updated - 1)%nat
          ∧ Legacy.history_after effects history ≠ d)).
Proof.
  intros updated effects.
  assert (updated ≠ []) as Hne by apply persist_history_not_nil.
  assert (∀ d, Legacy.SetItem d ∈ effects
               ↔ ∃ k, d = take k updated ∧ (1 ≤ k ≤ length updated)%nat
                      ∧ setItem d = None
                      ∧ ∀ j, (k < j ≤ length updated)%nat →
                          ∃ e, setItem (take j updated) = Some e
                               ∧ Legacy.quota_exceeded e = true) as Hsaved.
  { intros d. subst effects. unfold Legacy.saveToHistory, Legacy.trySave.
    fold updated. rewrite elem_of_cons, legacy_saved by lia. split.
    - intros [[=]|(k & -> & Hk & Hpos & Hnone & Hfail)].
      exists k. specialize (Hpos Hne). repeat split; try done; lia.
    - intros (k & -> & Hk & Hnone & Hfail). right.
      exists k. repeat split; try done; lia. }
  assert (Legacy.history_after effects history
          = match setItem updated with
            | Some e =>
                if Legacy.quota_exceeded e && bool_decide (1 < length updated)%nat
                then removelast updated else updated
            | None => updated
            end) as Hhistory.
  { subst effects. unfold Legacy.saveToHistory, Legacy.trySave. fold updated.
    change (Legacy.history_after (?e :: ?l) ?h)
      with (Legacy.history_after l
              match e with Legacy.SetHistory value => value | _ => h end).
    apply legacy_history_after. }
  split; [|split; [exact Hsaved|split; [exact Hhistory|]]].
  - intros [|fuel] Hfuel; [lia|]. unfold Legacy.trySave.
    apply legacy_fuel; lia.
  - intros d Hd. split.
    + destruct (legacy_stored_cases effects stored)
        as [[Hno _]|(d' & Hd' & Heq)]; [by destruct (Hno d)|].
      rewrite Heq. f_equal.
      apply Hsaved in Hd as (k & -> & Hk & Hnone & Hfail).
      apply Hsaved in Hd' as (k' & -> & Hk' & Hnone' & Hfail').
      destruct (decide (k = k')) as [->|Hkk]; [done|].
      destruct (decide (k < k')%nat).
      * destruct (Hfail k') as (e & He & _); [lia|]. congruence.
      * destruct (Hfail' k) as (e & He & _); [lia|]. congruence.
    + intros Hshort. rewrite Hhistory.
      apply Hsaved in Hd as (k & -> & Hk & Hnone & Hfail).
      rewrite length_take in Hshort.
      destruct (Hfail (length updated)) as (e & He & Hq); [lia|].
      rewrite firstn_all in He. rewrite He, Hq.
      rewrite bool_decide_eq_true_2 by lia. cbn [andb].
      assert (length (removelast updated) = (length updated - 1)%nat) as Hrl
        by (rewrite removelast_take, length_take; lia).
      split; [done|]. intros Heq.
      apply (f_equal length) in Heq. rewrite Hrl, length_take in Heq. lia.
Qed.

Lemma X16_legacy_history_after_quota_witness :
  Legacy.stored_after
    (Legacy.saveToHistory Legacy.small_storage newer_retitled
       [a_story "z9" 9000 []; older]) None
  = Some [newer_retitled]
  ∧ length
      (Legacy.history_after
         (Legacy.saveToHistory Legacy.small_storage newer_retitled
            [a_story "z9" 9000 []; older]) []) = 2%nat.
Proof.
  destruct (X16_legacy_history_after_quota Legacy.small_storage newer_retitled
              [a_story "z9" 9000 []; older] [] None)
    as (_ & _ & _ & Hstored).
  destruct (Hstored [newer_retitled]) as [Heq Hlonger].
  - vm_compute. apply list_elem_of_further, list_elem_of_further,
      list_elem_of_further, list_elem_of_here.
  - split; [exact Heq|]. apply Hlonger. vm_compute. lia.
Defined.
